(** * yelp-bot: a challenge-aware authenticated browser session

    A shallow embedding of the TypeScript sources
      - [src/lib/serialQueue.ts]        (module [SerialQueue])
      - [src/env.ts]                    (module [Config])
      - [src/yelp/debugArtifacts.ts],
        [src/yelp/biz/yelpBizClient.ts] (module [Client])
      - [src/server.ts]                 (module [Server])
    followed by the properties proved about them. *)

From Stdlib Require Import List String Ascii Bool Arith NArith Lia QArith.
From Stdlib Require Import FunctionalExtensionality.
Import ListNotations.
Open Scope string_scope.
Open Scope list_scope.
Close Scope Q_scope.
Open Scope nat_scope.

Set Implicit Arguments.

(* ================================================================= *)
(** * Part I: the embedding *)
(* ================================================================= *)

(** ** JavaScript values shared by all modules *)

Module Js.

(** A thrown JavaScript [Error]: its [name] and its [message]. *)
Record exn : Type := mkExn { name : string; message : string }.

(** [new Error(msg)] *)
Definition Error (msg : string) : exn := mkExn "Error" msg.

(** [String(error)], that is [Error.prototype.toString]. *)
Definition String_ (e : exn) : string :=
  if String.eqb (name e) "" then message e
  else if String.eqb (message e) "" then name e
  else name e ++ ": " ++ message e.

(** The completion of a call: a value is returned or an exception thrown. *)
Inductive Res (A : Type) : Type :=
| Ok (a : A)
| Throw (e : exn).

Arguments Ok {A} a.
Arguments Throw {A} e.

(** [p.catch(() => d)] applied to a completion. *)
Definition orElse {A : Type} (r : Res A) (d : A) : A :=
  match r with
  | Ok a => a
  | Throw _ => d
  end.

(** [xs.join(sep)] *)
Definition join (sep : string) (xs : list string) : string :=
  String.concat sep xs.

(** [x !== undefined] *)
Definition defined {A : Type} (x : option A) : bool :=
  match x with
  | Some _ => true
  | None => false
  end.

End Js.

Import Js.

(* ----------------------------------------------------------------- *)
(** ** [src/lib/serialQueue.ts]: the serial command queue

    [enqueue] is two calls of [Promise.prototype.then].  Their meaning is
    given by a small model of the ECMAScript promise machinery: a heap of
    promise cells, reactions registered on pending promises, and the
    microtask (job) queue.  Promise identities are named after the place
    that allocates them; the flag [clash] records whether a name was ever
    given out twice.

    The heap holds the promises of the queue and of its tasks.  What the
    callers do with the handles they get (awaiting them, enqueueing more
    work from a continuation) and what the task bodies do is the
    environment: it shows as the actions [Enqueue] and [Complete], which
    may come at any point between two microtasks of the queue. *)

Module SerialQueue.

(** Values carried by settlements. *)
Inductive value : Type :=
| Undefined
| Val (n : nat).

Inductive settlement : Type :=
| Fulfilled (v : value)
| Rejected (r : value).

Definition carried (s : settlement) : value :=
  match s with
  | Fulfilled v => v
  | Rejected r => r
  end.

(** Promise identities. *)
Inductive pid : Type :=
| PInit               (* [Promise.resolve()] of the [#tail] initialiser *)
| PRun (i : nat)      (* [run] of the enqueue call number [i] *)
| PTail (i : nat)     (* the [#tail] assigned by the enqueue call number [i] *)
| PTask (i : nat)     (* the promise returned by the call of [fn] number [i] *)
| PAdopt (p : pid).   (* the promise made by the [then] call through which
                         [p] adopts the state of a returned promise *)

Lemma pid_eq_dec (p q : pid) : {p = q} + {p <> q}.
Proof. decide equality; apply Nat.eq_dec. Defined.

(** Functions that are registered as reactions. *)
Inductive handler : Type :=
| Fn (i : nat)          (* the [fn] passed to the enqueue call number [i] *)
| ConstUndefined        (* [() => undefined] *)
| ResolveOf (p : pid)   (* the resolving functions of promise [p] *)
| RejectOf (p : pid).

Record reaction : Type := mkReaction {
  onFulfilled : handler;
  onRejected : handler;
  derived : pid
}.

Inductive pstate : Type :=
| Pending (reactions : list reaction)
| Settled (s : settlement).

Inductive job : Type :=
| ReactionJob (h : handler) (d : pid) (arg : value)
| ResolveThenableJob (p : pid) (thenable : pid).

(** What a call of a task function does at once. *)
Inductive behaviour : Type :=
| Throws (r : value)                (* throws before returning a promise *)
| ReturnsSettled (s : settlement)   (* returns an already settled promise *)
| ReturnsPending.                   (* returns a promise its body settles later *)

(** Observations: task [i] was called; the promise of task [i] settled. *)
Inductive event : Type :=
| Started (i : nat)
| Finished (i : nat) (s : settlement).

Record runtime : Type := mkRuntime {
  heap : pid -> option pstate;
  jobs : list job;            (* the microtask queue, oldest first *)
  fns : list behaviour;       (* the functions enqueued so far *)
  tail : pid;                 (* [SerialQueue.#tail] *)
  log : list event;
  clash : bool                (* an allocation reused a live identity *)
}.

Definition upd (p : pid) (c : pstate) (h : pid -> option pstate)
    : pid -> option pstate :=
  fun q => if pid_eq_dec q p then Some c else h q.

Definition setHeap (h : pid -> option pstate) (rt : runtime) : runtime :=
  mkRuntime h (jobs rt) (fns rt) (tail rt) (log rt) (clash rt).

Definition pushJob (j : job) (rt : runtime) : runtime :=
  mkRuntime (heap rt) (jobs rt ++ [j]) (fns rt) (tail rt) (log rt) (clash rt).

Definition pushJobs (js : list job) (rt : runtime) : runtime :=
  mkRuntime (heap rt) (jobs rt ++ js) (fns rt) (tail rt) (log rt) (clash rt).

Definition record (e : event) (rt : runtime) : runtime :=
  mkRuntime (heap rt) (jobs rt) (fns rt) (tail rt) (log rt ++ [e]) (clash rt).

(** A new promise object named [p] in state [c]. *)
Definition alloc (p : pid) (c : pstate) (rt : runtime) : runtime :=
  mkRuntime (upd p c (heap rt)) (jobs rt) (fns rt) (tail rt) (log rt)
            (clash rt || defined (heap rt p)).

(** The job that a settlement [s] triggers for a registered reaction. *)
Definition jobFor (s : settlement) (r : reaction) : job :=
  match s with
  | Fulfilled v => ReactionJob (onFulfilled r) (derived r) v
  | Rejected v => ReactionJob (onRejected r) (derived r) v
  end.

(** Fulfil or reject a pending promise and schedule its reactions; a
    promise that is already settled keeps its state. *)
Definition settle (p : pid) (s : settlement) (rt : runtime) : runtime :=
  match heap rt p with
  | Some (Pending rs) =>
      pushJobs (map (jobFor s) rs) (setHeap (upd p (Settled s) (heap rt)) rt)
  | _ => rt
  end.

(** [p.then(onF, onR)], the derived promise being the new object [d]. *)
Definition then_ (p : pid) (onF onR : handler) (d : pid) (rt : runtime)
    : runtime :=
  let r := mkReaction onF onR d in
  let rt := alloc d (Pending []) rt in
  match heap rt p with
  | Some (Pending rs) => setHeap (upd p (Pending (rs ++ [r])) (heap rt)) rt
  | Some (Settled s) => pushJob (jobFor s r) rt
  | None => rt
  end.

(** How the call of a handler completes. *)
Inductive completion : Type :=
| Returns (v : value)
| ReturnsPromise (q : pid)
| Raises (r : value).

(** Resolve the derived promise [d] with the completion of its handler. *)
Definition resolveWith (d : pid) (c : completion) (rt : runtime) : runtime :=
  match c with
  | Returns v => settle d (Fulfilled v) rt
  | Raises r => settle d (Rejected r) rt
  | ReturnsPromise q => pushJob (ResolveThenableJob d q) rt
  end.

Definition callFn (i : nat) (rt : runtime) : completion * runtime :=
  let rt := record (Started i) rt in
  match nth_error (fns rt) i with
  | Some (Throws r) => (Raises r, record (Finished i (Rejected r)) rt)
  | Some (ReturnsSettled s) =>
      (ReturnsPromise (PTask i),
       record (Finished i s) (alloc (PTask i) (Settled s) rt))
  | Some ReturnsPending =>
      (ReturnsPromise (PTask i), alloc (PTask i) (Pending []) rt)
  | None => (Returns Undefined, rt)
  end.

Definition callHandler (h : handler) (arg : value) (rt : runtime)
    : completion * runtime :=
  match h with
  | Fn i => callFn i rt
  | ConstUndefined => (Returns Undefined, rt)
  | ResolveOf p => (Returns Undefined, settle p (Fulfilled arg) rt)
  | RejectOf p => (Returns Undefined, settle p (Rejected arg) rt)
  end.

Definition runJob (j : job) (rt : runtime) : runtime :=
  match j with
  | ReactionJob h d arg =>
      let (c, rt') := callHandler h arg rt in resolveWith d c rt'
  | ResolveThenableJob p q =>
      then_ q (ResolveOf p) (RejectOf p) (PAdopt p) rt
  end.

(** [#tail: Promise<void> = Promise.resolve()] *)
Definition init : runtime :=
  mkRuntime (upd PInit (Settled (Fulfilled Undefined)) (fun _ => None))
            [] [] PInit [] false.

(** [enqueue(fn)]: returns [run] and the queue after the call.  The
    function [fn], behaving as [b], becomes function number
    [length (fns rt)]. *)
Definition enqueue (b : behaviour) (rt : runtime) : pid * runtime :=
  let i := List.length (fns rt) in
  let rt := mkRuntime (heap rt) (jobs rt) (fns rt ++ [b]) (tail rt)
                      (log rt) (clash rt) in
  (* const run = this.#tail.then(fn, fn); *)
  let run := PRun i in
  let rt := then_ (tail rt) (Fn i) (Fn i) run rt in
  (* this.#tail = run.then(() => undefined, () => undefined); *)
  let rt := then_ run ConstUndefined ConstUndefined (PTail i) rt in
  let rt := mkRuntime (heap rt) (jobs rt) (fns rt) (PTail i)
                      (log rt) (clash rt) in
  (* return run; *)
  (run, rt).

(** What can happen next: a caller enqueues a function; the body of a
    running task settles the promise it returned; the engine runs the
    oldest microtask. *)
Inductive action : Type :=
| Enqueue (b : behaviour)
| Complete (i : nat) (s : settlement)
| Microtask.

Definition step (rt : runtime) (a : action) : runtime :=
  match a with
  | Enqueue b => snd (enqueue b rt)
  | Complete i s =>
      match heap rt (PTask i) with
      | Some (Pending _) => settle (PTask i) s (record (Finished i s) rt)
      | _ => rt
      end
  | Microtask =>
      match jobs rt with
      | [] => rt
      | j :: js =>
          runJob j (mkRuntime (heap rt) js (fns rt) (tail rt)
                              (log rt) (clash rt))
      end
  end.

Definition exec (acts : list action) (rt : runtime) : runtime :=
  fold_left step acts rt.

(** The handle returned by the enqueue call number [i]. *)
Definition handle (i : nat) : pid := PRun i.

(** A log in which the tasks from number [i] on run one after the other:
    task [i] starts, settles, then task [i+1] starts, and so on; the last
    started task may still be running. *)
Fixpoint serialFrom (i : nat) (l : list event) : Prop :=
  match l with
  | [] => True
  | Started j :: l' =>
      j = i /\
      match l' with
      | [] => True
      | Finished j' _ :: l'' => j' = i /\ serialFrom (S i) l''
      | Started _ :: _ => False
      end
  | Finished _ _ :: _ => False
  end.

(** Task [j] is executing: it has started and has not settled. *)
Definition executing (l : list event) (j : nat) : Prop :=
  In (Started j) l /\ forall s, ~ In (Finished j s) l.

(** *** The serial view of a runtime

    The states the queue can be in, told by the number [front] of the task
    that is next or in progress and by how far that task has come. *)

Inductive phase : Type :=
| Idle                               (* every enqueued task is through *)
| Scheduled                          (* the job calling [fn] is queued *)
| Adopting (o : option settlement)   (* [fn] returned a promise that [run]
                                        is about to adopt; [o] is its state *)
| Running                            (* [run] waits for the task promise *)
| Forwarding (s : settlement)        (* the task settled; the job settling
                                        [run] is queued *)
| Releasing (s : settlement).        (* [run] settled; the job settling the
                                        next [#tail] is queued *)

Record view : Type := mkView {
  vfns : list behaviour;
  front : nat;
  ph : phase;
  outs : list settlement      (* the outcomes of the tasks before [front] *)
}.

Definition link (j : nat) : reaction := mkReaction (Fn j) (Fn j) (PRun j).

Definition relay (j : nat) : reaction :=
  mkReaction ConstUndefined ConstUndefined (PTail j).

Definition adoption (j : nat) : reaction :=
  mkReaction (ResolveOf (PRun j)) (RejectOf (PRun j)) (PAdopt (PRun j)).

Definition throwing (fs : list behaviour) (j : nat) : bool :=
  match nth_error fs j with
  | Some (Throws _) => true
  | _ => false
  end.

Definition settledAt (os : list settlement) (j : nat) : option pstate :=
  match nth_error os j with
  | Some s => Some (Settled s)
  | None => None
  end.

(** The [#tail] that the enqueue call number [i] finds. *)
Definition tailBefore (i : nat) : pid :=
  match i with
  | 0 => PInit
  | S j => PTail j
  end.

Definition expect (v : view) (p : pid) : option pstate :=
  let n := List.length (vfns v) in
  let k := front v in
  match p with
  | PInit => Some (Settled (Fulfilled Undefined))
  | PTail j =>
      if j <? k then Some (Settled (Fulfilled Undefined))
      else if j <? n then
        Some (Pending (if S j <? n then [link (S j)] else []))
      else None
  | PRun j =>
      if j <? k then settledAt (outs v) j
      else if j <? n then
        match ph v with
        | Releasing s => if j =? k then Some (Settled s)
                         else Some (Pending [relay j])
        | _ => Some (Pending [relay j])
        end
      else None
  | PTask j =>
      if j <? k then
        if throwing (vfns v) j then None else settledAt (outs v) j
      else if j =? k then
        match ph v with
        | Idle | Scheduled => None
        | Adopting None => Some (Pending [])
        | Adopting (Some s) => Some (Settled s)
        | Running => Some (Pending [adoption k])
        | Forwarding s => Some (Settled s)
        | Releasing s =>
            if throwing (vfns v) k then None else Some (Settled s)
        end
      else None
  | PAdopt (PRun j) =>
      if j <? k then
        if throwing (vfns v) j then None
        else Some (Settled (Fulfilled Undefined))
      else if j =? k then
        match ph v with
        | Running | Forwarding _ => Some (Pending [])
        | Releasing _ =>
            if throwing (vfns v) k then None
            else Some (Settled (Fulfilled Undefined))
        | _ => None
        end
      else None
  | PAdopt _ => None
  end.

Definition phaseJobs (k : nat) (p : phase) : list job :=
  match p with
  | Idle | Running => []
  | Scheduled => [ReactionJob (Fn k) (PRun k) Undefined]
  | Adopting _ => [ResolveThenableJob (PRun k) (PTask k)]
  | Forwarding (Fulfilled x) =>
      [ReactionJob (ResolveOf (PRun k)) (PAdopt (PRun k)) x]
  | Forwarding (Rejected x) =>
      [ReactionJob (RejectOf (PRun k)) (PAdopt (PRun k)) x]
  | Releasing s => [ReactionJob ConstUndefined (PTail k) (carried s)]
  end.

Fixpoint logFrom (i : nat) (os : list settlement) : list event :=
  match os with
  | [] => []
  | s :: os' => Started i :: Finished i s :: logFrom (S i) os'
  end.

Definition phaseLog (k : nat) (p : phase) : list event :=
  match p with
  | Idle | Scheduled => []
  | Adopting None | Running => [Started k]
  | Adopting (Some s) | Forwarding s | Releasing s =>
      [Started k; Finished k s]
  end.

(** The runtime state that a view stands for. *)
Definition concr (v : view) : runtime :=
  mkRuntime (expect v) (phaseJobs (front v) (ph v)) (vfns v)
            (tailBefore (List.length (vfns v)))
            (logFrom 0 (outs v) ++ phaseLog (front v) (ph v)) false.

Definition wf (v : view) : Prop :=
  List.length (outs v) = front v /\
  match ph v with
  | Idle => front v = List.length (vfns v)
  | Scheduled => front v < List.length (vfns v)
  | Releasing _ => front v < List.length (vfns v)
  | Adopting _ | Running | Forwarding _ =>
      front v < List.length (vfns v) /\ throwing (vfns v) (front v) = false
  end /\
  (forall j r, nth_error (vfns v) j = Some (Throws r) -> j < front v ->
               nth_error (outs v) j = Some (Rejected r)) /\
  (forall s r, ph v = Releasing s ->
               nth_error (vfns v) (front v) = Some (Throws r) ->
               s = Rejected r).

(** The moves of the serial view. *)
Definition astep (v : view) (a : action) : view :=
  let n := List.length (vfns v) in
  let k := front v in
  match a with
  | Enqueue b =>
      mkView (vfns v ++ [b]) k
             (match ph v with Idle => Scheduled | p => p end) (outs v)
  | Complete i s =>
      if i =? k then
        match ph v with
        | Adopting None => mkView (vfns v) k (Adopting (Some s)) (outs v)
        | Running => mkView (vfns v) k (Forwarding s) (outs v)
        | _ => v
        end
      else v
  | Microtask =>
      match ph v with
      | Idle | Running => v
      | Scheduled =>
          match nth_error (vfns v) k with
          | Some (Throws r) =>
              mkView (vfns v) k (Releasing (Rejected r)) (outs v)
          | Some (ReturnsSettled s) =>
              mkView (vfns v) k (Adopting (Some s)) (outs v)
          | Some ReturnsPending =>
              mkView (vfns v) k (Adopting None) (outs v)
          | None => v
          end
      | Adopting None => mkView (vfns v) k Running (outs v)
      | Adopting (Some s) => mkView (vfns v) k (Forwarding s) (outs v)
      | Forwarding s => mkView (vfns v) k (Releasing s) (outs v)
      | Releasing s =>
          mkView (vfns v) (S k) (if S k <? n then Scheduled else Idle)
                 (outs v ++ [s])
      end
  end.

(** Microtasks left before the queue is at rest, if no task settles. *)
Definition rank (p : phase) : nat :=
  match p with
  | Idle | Running => 0
  | Releasing _ => 1
  | Forwarding _ => 2
  | Adopting _ => 3
  | Scheduled => 4
  end.

Definition measure (v : view) : nat :=
  5 * (List.length (vfns v) - front v) + rank (ph v).

(** The functions passed to the enqueue calls of a schedule, in the
    order of the calls. *)
Fixpoint submitted (acts : list action) : list behaviour :=
  match acts with
  | [] => []
  | Enqueue b :: acts' => b :: submitted acts'
  | _ :: acts' => submitted acts'
  end.

(** [s] is the outcome of the task whose function is number [i] of [fs]:
    what the function threw, the state of the settled promise it
    returned, or what its body settled the returned promise with. *)
Definition outcomeOf (acts : list action) (fs : list behaviour) (i : nat)
    (s : settlement) : Prop :=
  match nth_error fs i with
  | Some (Throws r) => s = Rejected r
  | Some (ReturnsSettled s') => s = s'
  | Some ReturnsPending => In (Complete i s) acts
  | None => False
  end.

(** A task the queue waits for is one whose function returned a pending
    promise. *)
Definition awaited (v : view) : Prop :=
  match ph v with
  | Running | Adopting None =>
      nth_error (vfns v) (front v) = Some ReturnsPending
  | _ => True
  end.

(** Where the outcome [s] of task [i] comes from: its body settled the
    promise it had returned, or its function threw, or its function
    returned a promise that was settled already. *)
Definition sourced (acts : list action) (fs : list behaviour) (i : nat)
    (s : settlement) : Prop :=
  In (Complete i s) acts
  \/ (exists r, nth_error fs i = Some (Throws r) /\ s = Rejected r)
  \/ nth_error fs i = Some (ReturnsSettled s).

End SerialQueue.

(* ----------------------------------------------------------------- *)
(** ** [src/env.ts]: credential resolution *)

Module Config.

(** The credential fields of [z.infer<typeof EnvSchema>]; each one is
    [undefined] ([None]) or a trimmed, non-empty string. *)
Record EnvData : Type := mkEnvData {
  YELP_BUSINESS_USERNAME : option string;
  YELP_BUSINESS_PASSWORD : option string;
  YELP_BIZ_USERNAME : option string;
  YELP_BIZ_PASSWORD : option string
}.

(** [source: "YELP_BUSINESS_*" | "YELP_BIZ_*"] *)
Inductive CredSource : Type :=
| SrcBusiness
| SrcBiz.

Definition sourceText (s : CredSource) : string :=
  match s with
  | SrcBusiness => "YELP_BUSINESS_*"
  | SrcBiz => "YELP_BIZ_*"
  end.

Record BizCreds : Type := mkBizCreds {
  username : string;
  password : string;
  source : CredSource
}.

Definition incompleteBusiness : exn :=
  Error "Incomplete biz credentials: set both YELP_BUSINESS_USERNAME and YELP_BUSINESS_PASSWORD.".

Definition incompleteBiz : exn :=
  Error "Incomplete biz credentials: set both YELP_BIZ_USERNAME and YELP_BIZ_PASSWORD.".

Definition ambiguous (candidates : list BizCreds) : exn :=
  Error ("Ambiguous Yelp for Business credentials: found multiple credential pairs ("
         ++ join ", " (map (fun c => sourceText (source c)) candidates)
         ++ "). Set only one pair.").

(** [candidates.push({source, username: u!, password: p!})] under the guard
    [hasUsername && hasPassword]: the pair is pushed exactly when both
    members are defined. *)
Definition pushPair (src : CredSource) (u p : option string)
    (candidates : list BizCreds) : list BizCreds :=
  match u, p with
  | Some u', Some p' => candidates ++ [mkBizCreds u' p' src]
  | _, _ => candidates
  end.

(** [resolveBizCredentials(data)]; [null] is [None]. *)
Definition resolveBizCredentials (data : EnvData) : Res (option BizCreds) :=
  let candidates : list BizCreds := [] in
  let hasBusinessUsername := defined (YELP_BUSINESS_USERNAME data) in
  let hasBusinessPassword := defined (YELP_BUSINESS_PASSWORD data) in
  if negb (Bool.eqb hasBusinessUsername hasBusinessPassword) then
    Throw incompleteBusiness
  else
    let candidates :=
      pushPair SrcBusiness (YELP_BUSINESS_USERNAME data)
               (YELP_BUSINESS_PASSWORD data) candidates in
    let hasBizUsername := defined (YELP_BIZ_USERNAME data) in
    let hasBizPassword := defined (YELP_BIZ_PASSWORD data) in
    if negb (Bool.eqb hasBizUsername hasBizPassword) then
      Throw incompleteBiz
    else
      let candidates :=
        pushPair SrcBiz (YELP_BIZ_USERNAME data)
                 (YELP_BIZ_PASSWORD data) candidates in
      if Nat.eqb (List.length candidates) 0 then Ok None
      else if Nat.ltb 1 (List.length candidates) then
        Throw (ambiguous candidates)
      else Ok (nth_error candidates 0).

(** Exactly one member of a pair is set. *)
Definition halfSet (u p : option string) : Prop :=
  defined u <> defined p.

End Config.

(* ----------------------------------------------------------------- *)
(** ** [src/yelp/debugArtifacts.ts] and [src/yelp/biz/yelpBizClient.ts]

    The browser, the file system, the clock and the built-in string
    functions of the JavaScript runtime are the environment of the
    program: a [Platform] over a type [Env] of environment states.  Every
    awaited call is an [op] that the platform performs; it completes with
    a value or an exception and may change the environment, the page being
    live while the client looks at it. *)

Module Client.

(** The double quote and the line feed. *)
Definition dq : string := String (ascii_of_nat 34) EmptyString.
Definition nl : string := String (ascii_of_nat 10) EmptyString.

(** [/source/flags] *)
Record RegExp : Type := mkRegExp { source : string; flags : string }.

(** The object returned by [locator.boundingBox()]. *)
Record Box : Type := mkBox { x : Q; y : Q; width : Q; height : Q }.

Inductive locator : Type :=
| Css (selector : string)                  (* [page.locator(selector)] *)
| RoleButton (name : RegExp)               (* [page.getByRole("button", {name})] *)
| HasText (l : locator) (text : RegExp).   (* [l.filter({hasText})] *)

(** The two page functions given to [page.waitForFunction]. *)
Inductive pageFunction : Type :=
| NoLargeCaptchaFrame     (* yelpBizClient.ts, lines 223-244 *)
| NoTwoFactorPrompt.      (* yelpBizClient.ts, lines 277-299 *)

Inductive op : Type -> Type :=
| FsMkdir (path : string) : op unit
| FsWriteFile (path content : string) : op unit
| LaunchPersistentContext (userDataDir : string) (slowMo : N) : op unit
| SetDefaultTimeout (ms : N) : op unit
| SetDefaultNavigationTimeout (ms : N) : op unit
| FirstPageOrNewPage : op unit
| ContextClose : op unit
| PageGoto (url : string) : op unit
| PageTitle : op string
| PageContent : op string
| PageScreenshot (path : string) : op unit
| Count (l : locator) : op nat
| NthBoundingBox (l : locator) (idx : nat) : op (option Box)
| FirstIsVisible (l : locator) : op bool
| FirstFill (l : locator) (text : string) : op unit
| FirstClick (l : locator) : op unit
| WaitForURLOffLogin (timeoutMs : N) : op unit
| WaitForFunction (f : pageFunction) (timeoutMs : N) : op unit.

(** A call made to the platform. *)
Inductive event : Type :=
| Call (A : Type) (o : op A).

(** The calls that only look at the page. *)
Definition isQuery (e : event) : bool :=
  match e with
  | Call o =>
      match o with
      | PageTitle | Count _ | NthBoundingBox _ _ | FirstIsVisible _ => true
      | _ => false
      end
  end.

(** The calls that [captureDebugArtifacts] makes. *)
Definition isCapture (e : event) : bool :=
  match e with
  | Call o =>
      match o with
      | FsMkdir _ | FsWriteFile _ _ | PageContent | PageScreenshot _ => true
      | _ => false
      end
  end.

Definition isWait (e : event) : bool :=
  match e with
  | Call o =>
      match o with
      | WaitForFunction _ _ | WaitForURLOffLogin _ => true
      | _ => false
      end
  end.

Definition isFill (e : event) : bool :=
  match e with
  | Call o => match o with FirstFill _ _ => true | _ => false end
  end.

Definition isClick (e : event) : bool :=
  match e with
  | Call o => match o with FirstClick _ => true | _ => false end
  end.

Definition isGoto (e : event) : bool :=
  match e with
  | Call o => match o with PageGoto _ => true | _ => false end
  end.

Record Platform (Env : Type) : Type := mkPlatform {
  perform : forall A : Type, op A -> Env -> Res A * Env;
  page_url : Env -> string;                  (* [page.url()] *)
  Date_toISOString : Env -> string;          (* [new Date().toISOString()] *)
  URL_host : string -> Res string;           (* [new URL(u).host] *)
  RegExp_test : RegExp -> string -> bool;    (* [re.test(s)] *)
  String_replaceAll : RegExp -> string -> string -> string;
                                             (* [s.replaceAll(re, by)] as [re by s] *)
  String_replaceAllText : string -> string -> string -> string;
                                             (* [s.replaceAll(text, by)] *)
  String_slice : nat -> nat -> string -> string;   (* [s.slice(a, b)] *)
  String_trim : string -> string;
  String_toLowerCase : string -> string;
  JSON_stringify : string -> string;         (* of a string value *)
  path_join : list string -> string;
  rejectsFirst : Env -> exn -> exn -> bool
    (* of two operations under way at once that reject with the two
       exceptions, whether the one listed first rejects first in time *)
}.

(** [YelpBizClientOptions] after the constructor has filled in the
    default of [challengeTimeoutMs]. *)
Record Options : Type := mkOptions {
  artifactsDir : string;
  challengeTimeoutMs : N;
  slowMoMs : option N;
  userDataDir : string
}.

(** [new YelpBizClient(options)] *)
Definition constructor (artifacts : string) (challengeTimeout : option N)
    (slowMo : option N) (userData : string) : Options :=
  mkOptions artifacts
            (match challengeTimeout with Some t => t | None => 10 * 60000 end)%N
            slowMo userData.

Record Credentials : Type := mkCredentials {
  username : string;
  password : string
}.

Definition RegExp_eqb (a b : RegExp) : bool :=
  String.eqb (source a) (source b) && String.eqb (flags a) (flags b).

Fixpoint locator_eqb (a b : locator) : bool :=
  match a, b with
  | Css s, Css t => String.eqb s t
  | RoleButton n, RoleButton m => RegExp_eqb n m
  | HasText l r, HasText l' r' => locator_eqb l l' && RegExp_eqb r r'
  | _, _ => false
  end.

Section WithPlatform.

Variable Env : Type.
Variable pf : Platform Env.
Variable options : Options.

(** The environment, the calls made so far, and the private fields
    [#context] and [#page] of the client (set or [undefined]). *)
Record World : Type := mkWorld {
  env : Env;
  trace : list event;
  context : bool;
  pageHandle : bool
}.

(** Asynchronous code that may throw. *)
Definition M (A : Type) : Type := World -> Res A * World.

Definition ret {A : Type} (a : A) : M A := fun w => (Ok a, w).

Definition throw {A : Type} (e : exn) : M A := fun w => (Throw e, w).

Definition bind {A B : Type} (m : M A) (k : A -> M B) : M B :=
  fun w =>
    match m w with
    | (Ok a, w') => k a w'
    | (Throw e, w') => (Throw e, w')
    end.

(** [m.catch(() => d)] *)
Definition orDefault {A : Type} (m : M A) (d : A) : M A :=
  fun w =>
    match m w with
    | (Ok a, w') => (Ok a, w')
    | (Throw _, w') => (Ok d, w')
    end.

(** [try { m } catch (error) { h(error) }] *)
Definition tryCatch {A : Type} (m : M A) (h : exn -> M A) : M A :=
  fun w =>
    match m w with
    | (Ok a, w') => (Ok a, w')
    | (Throw e, w') => h e w'
    end.

(** An awaited call of the platform. *)
Definition call {A : Type} (o : op A) : M A :=
  fun w =>
    let (r, e') := perform pf o (env w) in
    (r, mkWorld e' (trace w ++ [Call o]) (context w) (pageHandle w)).

(** [page.url()], which is synchronous. *)
Definition url_ : M string := fun w => (Ok (page_url pf (env w)), w).

(** [new Date()], kept as its ISO string. *)
Definition now_ : M string := fun w => (Ok (Date_toISOString pf (env w)), w).

Definition getContext : M bool := fun w => (Ok (context w), w).

Definition setContext (b : bool) : M unit :=
  fun w => (Ok tt, mkWorld (env w) (trace w) b (pageHandle w)).

Definition getPage : M bool := fun w => (Ok (pageHandle w), w).

Definition setPage (b : bool) : M unit :=
  fun w => (Ok tt, mkWorld (env w) (trace w) (context w) b).

(** A synchronous call that may throw, such as [new URL(u)]. *)
Definition lift {A : Type} (r : Res A) : M A := fun w => (r, w).

Notation "x <- m ;; k" := (bind m (fun x => k))
  (at level 61, m at next level, right associativity).
Notation "m ;;; k" := (bind m (fun _ => k))
  (at level 61, right associativity).

(** [Promise.all([m1, m2])]: both are under way whatever becomes of the
    other.  When one rejects, its exception is the one thrown; when both
    reject, it is the exception of the one that rejects first in time,
    which the platform decides. *)
Definition both {A B : Type} (m1 : M A) (m2 : M B) : M (A * B) :=
  fun w =>
    let (r1, w1) := m1 w in
    let (r2, w2) := m2 w1 in
    (match r1, r2 with
     | Ok a, Ok b => Ok (a, b)
     | Throw e, Ok _ => Throw e
     | Ok _, Throw e => Throw e
     | Throw e1, Throw e2 =>
         Throw (if rejectsFirst pf (env w) e1 e2 then e1 else e2)
     end, w2).

(** *** debugArtifacts.ts *)

Definition safeSegment (value : string) : string :=
  String_slice pf 0 80
    (String_replaceAll pf (mkRegExp "^-+|-+$" "g") ""
       (String_replaceAll pf (mkRegExp "[^a-z0-9]+" "g") "-"
          (String_toLowerCase pf (String_trim pf value)))).

Definition isoTimestampForPath (iso : string) : string :=
  String_replaceAllText pf "." "-" (String_replaceAllText pf ":" "-" iso).

(** [JSON.stringify({ capturedAt, title, url }, null, 2)] *)
Definition metaJson (capturedAt title url : string) : string :=
  "{" ++ nl
  ++ "  " ++ dq ++ "capturedAt" ++ dq ++ ": " ++ JSON_stringify pf capturedAt ++ "," ++ nl
  ++ "  " ++ dq ++ "title" ++ dq ++ ": " ++ JSON_stringify pf title ++ "," ++ nl
  ++ "  " ++ dq ++ "url" ++ dq ++ ": " ++ JSON_stringify pf url ++ nl
  ++ "}".

(** [captureDebugArtifacts(page, { artifactsDir, label, namespace })],
    returning the [dir] of its result. *)
Definition captureDebugArtifacts (artifacts label : string)
    (namespace : option string) : M string :=
  now <- now_ ;;
  let namespace := match namespace with Some n => n | None => "yelp" end in
  let dir :=
    path_join pf [artifacts; namespace;
                  (isoTimestampForPath now ++ "-" ++ safeSegment label)%string] in
  call (FsMkdir dir) ;;;
  url <- url_ ;;
  th <- both (call PageTitle) (call PageContent) ;;
  let (title, html) := th in
  both (call (PageScreenshot (path_join pf [dir; "page.png"])))
       (both (call (FsWriteFile (path_join pf [dir; "page.html"]) html))
             (call (FsWriteFile (path_join pf [dir; "meta.json"])
                                (metaJson now title url)))) ;;;
  ret dir.

(** *** yelpBizClient.ts *)

Definition capture (label : string) : M string :=
  captureDebugArtifacts (artifactsDir options) label (Some "yelp-biz").

Definition start : M unit :=
  started <- getContext ;;
  if started then ret tt
  else
    call (FsMkdir (userDataDir options)) ;;;
    call (LaunchPersistentContext
            (userDataDir options)
            (match slowMoMs options with Some ms => ms | None => 0%N end)) ;;;
    setContext true ;;;
    call (SetDefaultTimeout 30000) ;;;
    call (SetDefaultNavigationTimeout 45000) ;;;
    call FirstPageOrNewPage ;;;
    setPage true.

Definition stop : M unit :=
  started <- getContext ;;
  (if started then call ContextClose else ret tt) ;;;
  setContext false ;;;
  setPage false.

Definition notStarted : exn :=
  Error "YelpBizClient not started. Call client.start() first.".

Definition page : M unit :=
  p <- getPage ;;
  if p then ret tt else throw notStarted.

Definition emailSelector : string :=
  "input[data-testid=" ++ dq ++ "email" ++ dq ++ "], input[name=" ++ dq
  ++ "email" ++ dq ++ "], input#email, input[type=" ++ dq ++ "email" ++ dq ++ "]".

Definition passwordSelector : string :=
  "input[data-testid=" ++ dq ++ "password" ++ dq ++ "], input[name=" ++ dq
  ++ "password" ++ dq ++ "], input#password, input[type=" ++ dq ++ "password"
  ++ dq ++ "]".

Definition isEmailPasswordLoginVisible : M bool :=
  let email := Css emailSelector in
  orDefault (call (FirstIsVisible email)) false.

Definition maybeDismissOverlays : M unit :=
  let knownSelectors :=
    ["#onetrust-accept-btn-handler";
     ("button[id=" ++ dq ++ "onetrust-accept-btn-handler" ++ dq ++ "]")%string] in
  fold_right
    (fun selector rest =>
       let button := Css selector in
       visible <- orDefault (call (FirstIsVisible button)) false ;;
       (if visible then orDefault (call (FirstClick button)) tt else ret tt) ;;;
       rest)
    (ret tt) knownSelectors.

Definition captchaSelectors : string :=
  join ", "
    [("iframe[src*=" ++ dq ++ "captcha-delivery.com" ++ dq ++ " i]")%string;
     ("iframe[src*=" ++ dq ++ "hcaptcha.com" ++ dq ++ " i]")%string;
     ("iframe[src*=" ++ dq ++ "recaptcha" ++ dq ++ " i]")%string;
     ("iframe[title*=" ++ dq ++ "captcha" ++ dq ++ " i]")%string].

(** [box.width >= 100 && box.height >= 100] *)
Definition large (box : Box) : bool :=
  Qle_bool (100 # 1) (width box) && Qle_bool (100 # 1) (height box).

(** The loop [for (let idx = ...; idx < iframeCount; idx += 1)] with
    [remaining = iframeCount - idx]; its result is the final value of
    [captchaChallengeVisible]. *)
Fixpoint captchaLoop (captchaIframes : locator) (remaining idx : nat)
    : M bool :=
  match remaining with
  | 0 => ret false
  | S remaining' =>
      box <- orDefault (call (NthBoundingBox captchaIframes idx)) None ;;
      match box with
      | None => captchaLoop captchaIframes remaining' (S idx)
      | Some b =>
          if large b then ret true
          else captchaLoop captchaIframes remaining' (S idx)
      end
  end.

(** Lines 196-209: the value of [captchaChallengeVisible]. *)
Definition captchaChallengeVisible : M bool :=
  let captchaIframes := Css captchaSelectors in
  iframeCount <- orDefault (call (Count captchaIframes)) 0 ;;
  captchaLoop captchaIframes iframeCount 0.

Definition captchaStillPresent (dir : string) : exn :=
  Error ("CAPTCHA still present after waiting. Debug artifacts written to: " ++ dir).

Definition maybeHandleCaptcha (label : string) : M unit :=
  visible <- captchaChallengeVisible ;;
  if negb visible then ret tt
  else
    dir <- capture ("captcha-" ++ label) ;;
    tryCatch
      (call (WaitForFunction NoLargeCaptchaFrame (challengeTimeoutMs options)))
      (fun _ => throw (captchaStillPresent dir)).

Definition otpSelector : string :=
  "input[autocomplete=" ++ dq ++ "one-time-code" ++ dq ++ "], input[name*="
  ++ dq ++ "code" ++ dq ++ " i], input[id*=" ++ dq ++ "code" ++ dq ++ " i]".

Definition twoFactorTextSelector : string :=
  "text=/two[- ]factor|2fa|verification code|authentication code|enter the code/i".

(** Lines 256-265: the value of [hasOtp]. *)
Definition hasOtp : M bool :=
  let otpInput := Css otpSelector in
  let twoFactorText := Css twoFactorTextSelector in
  a <- orDefault (call (FirstIsVisible otpInput)) false ;;
  if a then ret true
  else orDefault (call (FirstIsVisible twoFactorText)) false.

Definition twoFactorStillPresent (dir : string) : exn :=
  Error ("Two-factor / verification step still present after waiting. Debug artifacts written to: "
         ++ dir).

Definition maybeHandleTwoFactor (label : string) : M unit :=
  present <- hasOtp ;;
  if negb present then ret tt
  else
    dir <- capture ("twofactor-" ++ label) ;;
    tryCatch
      (call (WaitForFunction NoTwoFactorPrompt (challengeTimeoutMs options)))
      (fun _ => throw (twoFactorStillPresent dir)).

Record BlockSignals : Type := mkBlockSignals {
  blockUrl : string;
  blockTitle : string;
  likelyBlockUrl : bool;
  cloudfrontBlockTitle : bool;
  cloudfrontBlockText : bool
}.

(** Lines 311-318. *)
Definition blockSignals : M BlockSignals :=
  url <- url_ ;;
  let likely :=
    RegExp_test pf (mkRegExp "access-denied|blocked|forbidden|challenge" "i") url in
  title <- orDefault (call PageTitle) "" ;;
  let cfTitle :=
    String.eqb (String_toLowerCase pf (String_trim pf title))
               "error: the request could not be satisfied" in
  let cloudfrontText :=
    Css "text=/generated by cloudfront|request could not be satisfied/i" in
  cfText <- orDefault (call (FirstIsVisible cloudfrontText)) false ;;
  ret (mkBlockSignals url title likely cfTitle cfText).

Definition blocked (s : BlockSignals) : bool :=
  negb (negb (likelyBlockUrl s) && negb (cloudfrontBlockTitle s)
        && negb (cloudfrontBlockText s)).

Definition blockedError (url title dir : string) : exn :=
  Error ("Yelp Biz appears blocked/unavailable (url=" ++ url ++ ", title="
         ++ JSON_stringify pf title ++ "). Debug artifacts written to: " ++ dir).

Definition maybeThrowIfBlocked (label : string) : M unit :=
  s <- blockSignals ;;
  if negb (blocked s) then ret tt
  else
    dir <- capture ("blocked-" ++ label) ;;
    throw (blockedError (blockUrl s) (blockTitle s) dir).

Definition handleChallengesOrBlocks (label : string) : M unit :=
  maybeHandleCaptcha label ;;;
  maybeHandleTwoFactor label ;;;
  maybeThrowIfBlocked label.

Definition goto (url : string) : M unit :=
  page ;;;
  call (PageGoto url) ;;;
  maybeDismissOverlays ;;;
  handleChallengesOrBlocks "navigation".

Definition loginFieldsMissing (dir : string) : exn :=
  Error ("Biz login page did not expose expected email/password fields. Debug artifacts written to: "
         ++ dir).

Definition loginSubmitFailed (dir : string) (error : exn) : exn :=
  Error ("Failed to click the 'Log in' submit button. Debug artifacts written to: "
         ++ dir ++ ". Underlying error: " ++ String_ error).

Definition loginDidNotSucceed (dir : string) : exn :=
  Error ("Login did not succeed (login form still visible). Debug artifacts written to: "
         ++ dir).

(** [#login], lines 118-169: up to and including the challenge pass that
    follows the submit. *)
Definition loginSubmit (credentials : Credentials) : M unit :=
  handleChallengesOrBlocks "login-start" ;;;
  let email := Css emailSelector in
  let password_ := Css passwordSelector in
  hasEmail <- orDefault (call (FirstIsVisible email)) false ;;
  hasPassword <- orDefault (call (FirstIsVisible password_)) false ;;
  if negb hasEmail || negb hasPassword then
    dir <- capture "biz-login-missing-fields" ;;
    throw (loginFieldsMissing dir)
  else
    call (FirstFill email (username credentials)) ;;;
    call (FirstFill password_ (password credentials)) ;;;
    let submitByRole := RoleButton (mkRegExp "^log in$" "i") in
    let submitBySelector :=
      HasText (Css ("button[type=" ++ dq ++ "submit" ++ dq ++ "], input[type="
                    ++ dq ++ "submit" ++ dq ++ "]"))
              (mkRegExp "log in" "i") in
    tryCatch
      (byRole <- orDefault (call (FirstIsVisible submitByRole)) false ;;
       if byRole then call (FirstClick submitByRole)
       else call (FirstClick submitBySelector))
      (fun error =>
         dir <- capture "biz-login-submit-click-failed" ;;
         throw (loginSubmitFailed dir error)) ;;;
    orDefault (call (WaitForURLOffLogin 45000)) tt ;;;
    handleChallengesOrBlocks "login-post-submit".

(** [#login], lines 171-179: the check that the form is gone. *)
Definition loginVerify : M unit :=
  stillLoginVisible <- isEmailPasswordLoginVisible ;;
  if stillLoginVisible then
    dir <- capture "biz-login-still-visible" ;;
    throw (loginDidNotSucceed dir)
  else ret tt.

Definition login (credentials : Credentials) : M unit :=
  loginSubmit credentials ;;;
  loginVerify.

Definition missingCredentials (dir : string) : exn :=
  Error (join " "
    ["Yelp Biz login form is visible but no credentials were provided.";
     "Set env vars (YELP_BUSINESS_USERNAME + YELP_BUSINESS_PASSWORD) or run `npm run auth:biz` to log in manually.";
     ("Debug artifacts written to: " ++ dir)%string]).

Definition redirectedToMarketing (dir : string) : exn :=
  Error ("Expected to land on biz.yelp.com after auth, but got redirected to business.yelp.com. This usually means you are not authenticated or the account cannot access the biz portal. Debug artifacts written to: "
         ++ dir).

(** [ensureAuthenticated], lines 70-93: log in if the form shows. *)
Definition authenticate (credentials : option Credentials) : M unit :=
  start ;;;
  page ;;;
  goto "https://biz.yelp.com/login" ;;;
  isLoginFormVisible <- isEmailPasswordLoginVisible ;;
  if isLoginFormVisible then
    match credentials with
    | None =>
        dir <- capture "biz-login-visible-but-missing-credentials" ;;
        throw (missingCredentials dir)
    | Some c => login c
    end
  else ret tt.

(** [ensureAuthenticated], lines 95-107: the post-condition. *)
Definition verifyLanding : M unit :=
  goto "https://biz.yelp.com/" ;;;
  url <- url_ ;;
  host <- lift (URL_host pf url) ;;
  if String.eqb host "business.yelp.com" then
    dir <- capture "biz-auth-redirected-to-marketing" ;;
    throw (redirectedToMarketing dir)
  else ret tt.

Definition ensureAuthenticated (credentials : option Credentials) : M unit :=
  authenticate credentials ;;;
  verifyLanding.

(** *** Vocabulary of the properties *)

(** What the platform answered to a bounding-box query shows a frame
    of at least 100 by 100. *)
Definition largeFrame (r : Res (option Box)) : bool :=
  match r with
  | Ok (Some b) => large b
  | _ => false
  end.

(** In the environments [I] the page has the captcha frames [boxes]: the
    count query finds them, the bounding-box query of frame [idx] is
    answered by entry [idx], and looking does not leave [I]. *)
Definition showsFrames (I : Env -> Prop) (boxes : list (Res (option Box)))
    : Prop :=
  forall e, I e ->
    (fst (perform pf (Count (Css captchaSelectors)) e) = Ok (List.length boxes)
     /\ I (snd (perform pf (Count (Css captchaSelectors)) e)))
    /\ forall idx, idx < List.length boxes ->
         fst (perform pf (NthBoundingBox (Css captchaSelectors) idx) e)
         = nth idx boxes (Ok None)
         /\ I (snd (perform pf (NthBoundingBox (Css captchaSelectors) idx) e)).

(** The exception [e] is one that the snapshot sink threw. *)
Definition sinkThrew (e : exn) : Prop :=
  exists label w w', capture label w = (Throw e, w').

(** From [w] to [w'] the client made the calls [evs] and kept its
    session fields. *)
Definition made (w w' : World) (evs : list event) : Prop :=
  trace w' = trace w ++ evs
  /\ context w' = context w
  /\ pageHandle w' = pageHandle w.

(** The calls [evs] only look at the page: each is a query, and none
    takes a snapshot, waits, fills, clicks or navigates. *)
Definition onlyLooks (evs : list event) : Prop :=
  Forall (fun e => isQuery e = true /\ isCapture e = false /\ isWait e = false
                   /\ isFill e = false /\ isClick e = false
                   /\ isGoto e = false) evs.

(** Whatever the result, [m] only makes calls that satisfy [P] and
    leaves the session fields alone. *)
Definition emits (P : event -> bool) (A : Type) (m : M A) : Prop :=
  forall w r w', m w = (r, w') ->
    exists evs, made w w' evs /\ forallb P evs = true.

(** Calls that do not act on the page: no fill, no click, no navigation. *)
Definition passive (e : event) : bool :=
  negb (isFill e) && negb (isClick e) && negb (isGoto e).

(** Whatever the result, [m] fills at most [f] fields and clicks at most
    [c] times. *)
Definition bounded (f c : nat) (A : Type) (m : M A) : Prop :=
  forall w r w', m w = (r, w') ->
    exists evs, made w w' evs
                /\ List.length (filter isFill evs) <= f
                /\ List.length (filter isClick evs) <= c.

(** Every page query fails. *)
Definition queriesFail : Prop :=
  forall (A : Type) (o : op A) (e : Env),
    isQuery (Call o) = true -> exists x, fst (perform pf o e) = Throw x.

(** The answer of a page query that stands for "not present": no frame,
    no box, not visible, an empty title. *)
Definition absent (A : Type) (o : op A) : option A :=
  match o in op T return option T with
  | Count _ => Some 0
  | NthBoundingBox _ _ => Some None
  | FirstIsVisible _ => Some false
  | PageTitle => Some ""
  | _ => None
  end.

(** The platform on which a page query that fails on [pf] answers "not
    present" instead, the page changing as it does on [pf]; every other
    call is that of [pf]. *)
Definition forgiving : Platform Env :=
  mkPlatform
    (fun A o e =>
       match absent o, perform pf o e with
       | Some d, (Throw _, e') => (Ok d, e')
       | _, r => r
       end)
    (page_url pf) (Date_toISOString pf) (URL_host pf) (RegExp_test pf)
    (String_replaceAll pf) (String_replaceAllText pf) (String_slice pf)
    (String_trim pf) (String_toLowerCase pf) (JSON_stringify pf)
    (path_join pf) (rejectsFirst pf).

(** How a handler that detected its challenge in the world [w1] ends with
    the exception [e]: the snapshot labelled [label] threw [e]; or the
    snapshot returned a location [dir], the wait for [wait] (when the
    handler waits) failed, and [e] is [err dir]. *)
Definition snapshotThen (label : string) (wait : option pageFunction)
    (err : string -> exn) (w1 : World) (e : exn) : Prop :=
  (exists w2, capture label w1 = (Throw e, w2))
  \/ (exists dir w2,
        capture label w1 = (Ok dir, w2) /\ e = err dir
        /\ match wait with
           | Some f =>
               exists x,
                 fst (perform pf (WaitForFunction f (challengeTimeoutMs options))
                        (env w2)) = Throw x
           | None => True
           end).

(** Calls that act on the page: a fill, a click or a navigation. *)
Definition active (e : event) : bool := negb (passive e).

(** [xs] is the beginning of [ys]. *)
Definition beginning (xs ys : list event) : Prop :=
  exists rest, ys = xs ++ rest.

(** What [m] does to the page follows one of the scripts [Ls]: when [m]
    returns, the fills, clicks and navigations it made are, in this
    order, those of one of the scripts; when it throws, they are the
    beginning of one. *)
Definition follows (Ls : list (list event)) (A : Type) (m : M A) : Prop :=
  forall w r w', m w = (r, w') ->
    exists evs L,
      trace w' = trace w ++ evs /\ In L Ls
      /\ match r with
         | Ok _ => filter active evs = L
         | Throw _ => beginning (filter active evs) L
         end.

(** A script of [Ls1] followed by a script of [Ls2]. *)
Definition seqs (Ls1 Ls2 : list (list event)) : list (list event) :=
  flat_map (fun l1 => map (app l1) Ls2) Ls1.

(** The buttons that [#maybeDismissOverlays] looks for. *)
Definition overlayButtons : list locator :=
  [Css "#onetrust-accept-btn-handler";
   Css ("button[id=" ++ dq ++ "onetrust-accept-btn-handler" ++ dq ++ "]")].

(** Each of the two buttons is clicked or not, in their order. *)
Definition overlayScripts : list (list event) :=
  [[];
   [Call (FirstClick (Css "#onetrust-accept-btn-handler"))];
   [Call (FirstClick (Css ("button[id=" ++ dq ++ "onetrust-accept-btn-handler"
                           ++ dq ++ "]")))];
   [Call (FirstClick (Css "#onetrust-accept-btn-handler"));
    Call (FirstClick (Css ("button[id=" ++ dq ++ "onetrust-accept-btn-handler"
                           ++ dq ++ "]")))]].

Definition gotoScripts (url : string) : list (list event) :=
  map (cons (Call (PageGoto url))) overlayScripts.

(** The two submit buttons of [#login]. *)
Definition submitByRole : locator := RoleButton (mkRegExp "^log in$" "i").

Definition submitBySelector : locator :=
  HasText (Css ("button[type=" ++ dq ++ "submit" ++ dq ++ "], input[type="
                ++ dq ++ "submit" ++ dq ++ "]"))
          (mkRegExp "log in" "i").

Definition loginScripts (credentials : Credentials) : list (list event) :=
  [[Call (FirstFill (Css emailSelector) (username credentials));
    Call (FirstFill (Css passwordSelector) (password credentials));
    Call (FirstClick submitByRole)];
   [Call (FirstFill (Css emailSelector) (username credentials));
    Call (FirstFill (Css passwordSelector) (password credentials));
    Call (FirstClick submitBySelector)]].

Definition authScripts (credentials : option Credentials)
    : list (list event) :=
  seqs (gotoScripts "https://biz.yelp.com/login")
       (seqs ([] :: match credentials with
                    | Some c => loginScripts c
                    | None => []
                    end)
             (gotoScripts "https://biz.yelp.com/")).

(** The public methods of the client, and a caller that invokes them
    one after the other, going on after a failure. *)
Inductive method : Type :=
| Start
| Stop
| Goto (url : string)
| EnsureAuthenticated (credentials : option Credentials).

Definition invoke (m : method) : M unit :=
  match m with
  | Start => start
  | Stop => stop
  | Goto url => goto url
  | EnsureAuthenticated credentials => ensureAuthenticated credentials
  end.

Definition session (ms : list method) (w : World) : World :=
  fold_left (fun w m => snd (invoke m w)) ms w.

(** The page is only set on a client that has a context. *)
Definition paged (w : World) : Prop :=
  pageHandle w = true -> context w = true.

(** Code that always throws. *)
Definition aborts (A : Type) (m : M A) : Prop :=
  forall w, exists e w', m w = (Throw e, w').

(** A look at, or a click on, one of the overlay buttons. *)
Definition overlayCall (e : event) : bool :=
  match e with
  | Call o =>
      match o with
      | FirstIsVisible l | FirstClick l =>
          existsb (locator_eqb l) overlayButtons
      | _ => false
      end
  end.

(** The calls of [start] that launch the browser. *)
Definition launchCalls : list event :=
  [Call (FsMkdir (userDataDir options));
   Call (LaunchPersistentContext
           (userDataDir options)
           (match slowMoMs options with Some ms => ms | None => 0%N end));
   Call (SetDefaultTimeout 30000);
   Call (SetDefaultNavigationTimeout 45000);
   Call FirstPageOrNewPage].

End WithPlatform.

Arguments page {Env}.
Arguments getPage {Env}.
Arguments getContext {Env}.
Arguments ret {Env A} a.
Arguments throw {Env A} e.
Arguments lift {Env A} r.

End Client.

(* ----------------------------------------------------------------- *)
(** ** [src/server.ts]: the status and navigate handlers *)

Module Server.
Import Client.

Record Flags : Type := mkFlags {
  captchaVisible : bool;
  twoFactorVisible : bool;
  loginVisible : bool;
  marketingSite : bool
}.

(** The two shapes of the status reply; [null] is [None]. *)
Inductive Status : Type :=
| NotStarted                                      (* [{ started: false }] *)
| Started (url : string) (host : option string)
          (title : option string) (flags : Flags).

(** A member of the request body: missing, a string, or another value. *)
Inductive Field : Type :=
| Absent
| Text (s : string)
| NotText.

Record Body : Type := mkBody {
  bodyUrl : Field;
  bodyCaptureLabel : Field
}.

Inductive Issue : Type :=
| BodyNotAnObject
| UrlRequired
| UrlNotAString
| UrlInvalid
| UrlNotAllowed (message : string)
| CaptureLabelNotAString
| CaptureLabelTooShort.

Record Parsed : Type := mkParsed {
  parsedUrl : string;
  parsedCaptureLabel : option string
}.

Record Navigated : Type := mkNavigated {
  navUrl : string;
  navTitle : string;
  navArtifactsDir : option string
}.

(** What a handler does with the request: [reply.code(400).send(...)], or
    the value it returns. *)
Inductive Reply (A : Type) : Type :=
| BadRequest (issues : list Issue)
| Returned (a : A).

Arguments BadRequest {A} issues.
Arguments Returned {A} a.

Definition allowedPrefixes : list string :=
  ["https://biz.yelp.com/"; "https://business.yelp.com/"; "https://www.yelp.com/"].

(** [allowedPrefixes.some((p) => u.startsWith(p))] *)
Definition allowed (u : string) : bool :=
  existsb (fun p => String.prefix p u) allowedPrefixes.

Definition notAllowedMessage : string :=
  "Only Yelp URLs are allowed: " ++ join ", " allowedPrefixes.

Section WithPlatform.

Variable Env : Type.
Variable pf : Platform Env.
Variable options : Options.

(** The check of [z.string().url()]. *)
Variable isUrl : string -> bool.

Notation "x <- m ;; k" := (bind m (fun x => k))
  (at level 61, m at next level, right associativity).
Notation "m ;;; k" := (bind m (fun _ => k))
  (at level 61, right associativity).

(** [yelpQueue.enqueue(task)] as seen by the one request that awaits it:
    the handle settles with the outcome of [task], which runs when the
    tasks enqueued before it have settled (module [SerialQueue]). *)
Definition enqueue {A : Type} (task : M Env A) : M Env A := task.

(** The copy of the captcha loop in the status handler, lines 307-312 of
    [server.ts]. *)
Fixpoint statusCaptchaLoop (iframes : locator) (remaining idx : nat)
    : M Env bool :=
  match remaining with
  | 0 => ret false
  | S remaining' =>
      box <- orDefault (call pf (NthBoundingBox iframes idx)) None ;;
      match box with
      | None => statusCaptchaLoop iframes remaining' (S idx)
      | Some b =>
          if Qle_bool (100 # 1) (width b) && Qle_bool (100 # 1) (height b)
          then ret true
          else statusCaptchaLoop iframes remaining' (S idx)
      end
  end.

Definition statusTwoFactorSelector : string :=
  "input[autocomplete=" ++ dq ++ "one-time-code" ++ dq ++ "], input[name*="
  ++ dq ++ "code" ++ dq ++ " i], input[id*=" ++ dq ++ "code" ++ dq
  ++ " i], text=/two[- ]factor|2fa|verification code|authentication code|enter the code/i".

Definition statusLoginSelector : string :=
  "input[data-testid=" ++ dq ++ "email" ++ dq ++ "], input[name=" ++ dq
  ++ "email" ++ dq ++ "], input[type=" ++ dq ++ "email" ++ dq
  ++ "], input[data-testid=" ++ dq ++ "password" ++ dq ++ "], input[name="
  ++ dq ++ "password" ++ dq ++ "], input[type=" ++ dq ++ "password" ++ dq ++ "]".

(** [try { host = new URL(url).host } catch { host = null }] *)
Definition hostOf (url : string) : option string :=
  match URL_host pf url with
  | Ok h => Some h
  | Throw _ => None
  end.

(** [await page.title().catch(() => null)] *)
Definition titleOrNull : M Env (option string) :=
  orDefault (t <- call pf PageTitle ;; ret (Some t)) None.

(** The body of the [try] of the status task. *)
Definition statusBody : M Env Status :=
  page ;;;
  url <- url_ pf ;;
  title <- titleOrNull ;;
  captcha <-
    (let iframes := Css captchaSelectors in
     count <- orDefault (call pf (Count iframes)) 0 ;;
     statusCaptchaLoop iframes count 0) ;;
  twoFactor <-
    orDefault (call pf (FirstIsVisible (Css statusTwoFactorSelector))) false ;;
  login <-
    orDefault (call pf (FirstIsVisible (Css statusLoginSelector))) false ;;
  let host := hostOf url in
  ret (Started url host title
         (mkFlags captcha twoFactor login
            (match host with
             | Some h => String.eqb h "business.yelp.com"
             | None => false
             end))).

(** [GET /yelp/biz/status] *)
Definition status : M Env Status :=
  enqueue (tryCatch statusBody (fun _ => ret NotStarted)).

(** [Body.safeParse(request.body)] *)
Definition checkUrl (f : Field) : list Issue :=
  match f with
  | Absent => [UrlRequired]
  | NotText => [UrlNotAString]
  | Text u =>
      (if isUrl u then [] else [UrlInvalid])
      ++ (if allowed u then [] else [UrlNotAllowed notAllowedMessage])
  end.

Definition checkCaptureLabel (f : Field) : list Issue :=
  match f with
  | Absent => []
  | NotText => [CaptureLabelNotAString]
  | Text l => if Nat.leb 1 (String.length l) then [] else [CaptureLabelTooShort]
  end.

Definition safeParse (body : option Body) : list Issue + Parsed :=
  match body with
  | None => inl [BodyNotAnObject]
  | Some b =>
      match checkUrl (bodyUrl b) ++ checkCaptureLabel (bodyCaptureLabel b),
            bodyUrl b with
      | [], Text u =>
          inr (mkParsed u
                 (match bodyCaptureLabel b with
                  | Text l => Some l
                  | _ => None
                  end))
      | issues, _ => inl issues
      end
  end.

(** [parsed.data.captureLabel ? await captureDebugArtifacts(...) : undefined],
    kept as the [dir] of the result; the empty string is falsy. *)
Definition optionalCapture (captureLabel : option string)
    : M Env (option string) :=
  match captureLabel with
  | Some l =>
      if String.eqb l "" then ret None
      else
        dir <- captureDebugArtifacts pf (artifactsDir options) l (Some "yelp-biz") ;;
        ret (Some dir)
  | None => ret None
  end.

(** A [captureLabel] that the schema lets through, and what it parses
    to: none, or a string that is not empty. *)
Definition acceptableLabel (f : Field) (l : option string) : Prop :=
  (f = Absent /\ l = None)
  \/ (exists t, f = Text t /\ t <> "" /\ l = Some t).

(** The task that the navigate handler enqueues. *)
Definition navigateTask (data : Parsed) : M Env Navigated :=
  start pf options ;;;
  goto pf options (parsedUrl data) ;;;
  page ;;;
  artifacts <- optionalCapture (parsedCaptureLabel data) ;;
  url <- url_ pf ;;
  title <- call pf PageTitle ;;
  ret (mkNavigated url title artifacts).

(** [POST /yelp/biz/navigate] *)
Definition navigate (body : option Body) : M Env (Reply Navigated) :=
  match safeParse body with
  | inl issues => ret (BadRequest issues)
  | inr data =>
      result <- enqueue (navigateTask data) ;;
      ret (Returned result)
  end.

(** The two shapes of the reply of [GET /yelp/biz/page]. *)
Inductive PageReply : Type :=
| PageNotStarted                       (* [{ started: false }] *)
| PageStarted (url title : string).

(** [GET /yelp/biz/page]: only the check that the session is started
    goes through the queue. *)
Definition currentPage : M Env PageReply :=
  isStarted <- enqueue (tryCatch (page ;;; ret true) (fun _ => ret false)) ;;
  if negb isStarted then ret PageNotStarted
  else
    page ;;;
    url <- url_ pf ;;
    title <- call pf PageTitle ;;
    ret (PageStarted url title).

End WithPlatform.

End Server.

(* ----------------------------------------------------------------- *)
(** ** [src/env.ts]: the schema and the exported configuration

    The module reads [process.env] when it is loaded.  The built-in
    functions it calls are parameters. *)

Module Environment.

(** The values that [Number.parseInt] returns. *)
Inductive Number : Type :=
| NaN
| Infinity (negative : bool)
| NegativeZero
| Int (z : Z).

(** [Number.isFinite(n)] *)
Definition Number_isFinite (n : Number) : bool :=
  match n with
  | NaN | Infinity _ => false
  | NegativeZero | Int _ => true
  end.

(** A zod issue: where, and what. *)
Record Issue : Type := mkIssue { path : list string; issueMessage : string }.

(** [z.infer<typeof EnvSchema>]: the four credential fields and the six
    others. *)
Record Data : Type := mkData {
  credentialFields : Config.EnvData;
  YELP_BUSINESS_USERNMAE : option string;
  PORT : option string;
  HEADLESS : option string;
  SLOW_MO_MS : option string;
  ARTIFACTS_DIR : option string;
  YELP_BIZ_USER_DATA_DIR : option string
}.

(** The exported [env]. *)
Record YelpBiz : Type := mkYelpBiz {
  credentials : option Config.BizCreds;
  userDataDir : string
}.

Record ServerSettings : Type := mkServerSettings { port : Number }.

Record Playwright : Type := mkPlaywright { headless : bool; slowMoMs : Number }.

Record Exports : Type := mkExports {
  yelpBiz : YelpBiz;
  server : ServerSettings;
  playwright : Playwright;
  artifactsDir : string
}.

(** The keys of [EnvSchema], in its order. *)
Definition keys : list string :=
  ["YELP_BUSINESS_USERNAME"; "YELP_BUSINESS_PASSWORD";
   "YELP_BIZ_USERNAME"; "YELP_BIZ_PASSWORD";
   "YELP_BUSINESS_USERNMAE";
   "PORT"; "HEADLESS"; "SLOW_MO_MS";
   "ARTIFACTS_DIR"; "YELP_BIZ_USER_DATA_DIR"].

(** [xs.includes(x)] *)
Definition includes (xs : list string) (x : string) : bool :=
  existsb (String.eqb x) xs.

Definition truthy : list string := ["1"; "true"; "t"; "yes"; "y"; "on"].

Definition falsy : list string := ["0"; "false"; "f"; "no"; "n"; "off"].

Definition typo : exn :=
  Error "Found env var YELP_BUSINESS_USERNMAE, which looks like a typo. Did you mean YELP_BUSINESS_USERNAME?".

Definition headlessUnsupported : exn :=
  Error "HEADLESS=true is not supported. This service always runs Playwright in headful mode.".

Definition missingCredentials : exn :=
  Error (join " "
    ["Missing Yelp for Business credentials.";
     "Set either (YELP_BUSINESS_USERNAME + YELP_BUSINESS_PASSWORD) or (YELP_BIZ_USERNAME + YELP_BIZ_PASSWORD).";
     "If you prefer not to store passwords, run `npm run auth:biz` to log in manually and persist a session."]).

(** [requireYelpBizCredentials()] on the exported [env]. *)
Definition requireYelpBizCredentials (env : Exports)
    : Res Client.Credentials :=
  match credentials (yelpBiz env) with
  | None => Throw missingCredentials
  | Some c =>
      Ok (Client.mkCredentials (Config.username c) (Config.password c))
  end.

Section WithBuiltins.

Variable String_trim : string -> string.
Variable String_toLowerCase : string -> string.
Variable JSON_stringify : string -> string.       (* of a string value *)
Variable Number_parseInt : string -> Number.      (* [Number.parseInt(s, 10)] *)
Variable path_resolve : string -> string.

(** The message of the issue that [z.string().min(1)] raises. *)
Variable tooSmall : string.

(** The function given to [z.preprocess]; a value of [process.env] is a
    string or [undefined]. *)
Definition preprocess (value : option string) : option string :=
  match value with
  | None => None
  | Some v =>
      let trimmed := String_trim v in
      if String.eqb trimmed "" then None else Some trimmed
  end.

(** [optionalTrimmedString()] applied to a value: the message of an
    issue, or the parsed value. *)
Definition optionalTrimmedString (value : option string)
    : string + option string :=
  match preprocess value with
  | None => inr None
  | Some s => if Nat.leb 1 (String.length s) then inr (Some s) else inl tooSmall
  end.

Definition issuesAt (processEnv : string -> option string) (key : string)
    : list Issue :=
  match optionalTrimmedString (processEnv key) with
  | inl m => [mkIssue [key] m]
  | inr _ => []
  end.

Definition valueAt (processEnv : string -> option string) (key : string)
    : option string :=
  match optionalTrimmedString (processEnv key) with
  | inl _ => None
  | inr v => v
  end.

(** [EnvSchema.safeParse(process.env)] *)
Definition safeParse (processEnv : string -> option string)
    : list Issue + Data :=
  match flat_map (issuesAt processEnv) keys with
  | [] =>
      inr (mkData
             (Config.mkEnvData
                (valueAt processEnv "YELP_BUSINESS_USERNAME")
                (valueAt processEnv "YELP_BUSINESS_PASSWORD")
                (valueAt processEnv "YELP_BIZ_USERNAME")
                (valueAt processEnv "YELP_BIZ_PASSWORD"))
             (valueAt processEnv "YELP_BUSINESS_USERNMAE")
             (valueAt processEnv "PORT")
             (valueAt processEnv "HEADLESS")
             (valueAt processEnv "SLOW_MO_MS")
             (valueAt processEnv "ARTIFACTS_DIR")
             (valueAt processEnv "YELP_BIZ_USER_DATA_DIR"))
  | issues => inl issues
  end.

Definition invalidConfiguration (issues : list Issue) : exn :=
  Error ("Invalid environment configuration:" ++ Client.nl
         ++ join Client.nl
              (map (fun issue =>
                      ("- " ++ join "." (path issue) ++ ": "
                       ++ issueMessage issue)%string)
                   issues)).

Definition invalidBoolean (value : string) : exn :=
  Error ("Invalid boolean value: " ++ JSON_stringify value).

Definition parseBoolean (value : option string) (defaultValue : bool)
    : Res bool :=
  match value with
  | None => Ok defaultValue
  | Some v =>
      let normalized := String_toLowerCase (String_trim v) in
      if includes truthy normalized then Ok true
      else if includes falsy normalized then Ok false
      else Throw (invalidBoolean v)
  end.

Definition invalidInteger (value : string) : exn :=
  Error ("Invalid integer value: " ++ JSON_stringify value).

Definition parseInteger (value : option string) (defaultValue : Number)
    : Res Number :=
  match value with
  | None => Ok defaultValue
  | Some v =>
      let parsed := Number_parseInt v in
      if negb (Number_isFinite parsed) then Throw (invalidInteger v)
      else Ok parsed
  end.

(** [a ?? b] *)
Definition orDefault (a : option string) (b : string) : string :=
  match a with
  | Some x => x
  | None => b
  end.

(** The evaluation of the module, from [process.env] as it is after
    [dotenv.config()]: the exported [env], or the error thrown. *)
Definition load (processEnv : string -> option string) : Res Exports :=
  match safeParse processEnv with
  | inl issues => Throw (invalidConfiguration issues)
  | inr data =>
      if defined (YELP_BUSINESS_USERNMAE data) then Throw typo
      else
        match Config.resolveBizCredentials (credentialFields data) with
        | Throw e => Throw e
        | Ok bizCredentials =>
            let userDataDir :=
              path_resolve (orDefault (YELP_BIZ_USER_DATA_DIR data)
                                      "state/yelp-biz/user-data") in
            match parseInteger (PORT data) (Int 3000) with
            | Throw e => Throw e
            | Ok port =>
                match parseInteger (SLOW_MO_MS data) (Int 250) with
                | Throw e => Throw e
                | Ok slowMoMs =>
                    let env :=
                      mkExports (mkYelpBiz bizCredentials userDataDir)
                                (mkServerSettings port)
                                (mkPlaywright false slowMoMs)
                                (path_resolve (orDefault (ARTIFACTS_DIR data)
                                                         "artifacts")) in
                    if defined (HEADLESS data) then
                      match parseBoolean (HEADLESS data) false with
                      | Throw e => Throw e
                      | Ok true => Throw headlessUnsupported
                      | Ok false => Ok env
                      end
                    else Ok env
                end
            end
        end
  end.

(** *** Vocabulary of the properties *)

(** The variable [key] is not set, or set to a string that trims to
    the empty string. *)
Definition blank (processEnv : string -> option string) (key : string)
    : Prop :=
  preprocess (processEnv key) = None.

(** The data that the variables of [processEnv] trim to. *)
Definition trimmed (processEnv : string -> option string) : Data :=
  mkData
    (Config.mkEnvData
       (preprocess (processEnv "YELP_BUSINESS_USERNAME"))
       (preprocess (processEnv "YELP_BUSINESS_PASSWORD"))
       (preprocess (processEnv "YELP_BIZ_USERNAME"))
       (preprocess (processEnv "YELP_BIZ_PASSWORD")))
    (preprocess (processEnv "YELP_BUSINESS_USERNMAE"))
    (preprocess (processEnv "PORT"))
    (preprocess (processEnv "HEADLESS"))
    (preprocess (processEnv "SLOW_MO_MS"))
    (preprocess (processEnv "ARTIFACTS_DIR"))
    (preprocess (processEnv "YELP_BIZ_USER_DATA_DIR")).

(** The ten fields of the parsed data. *)
Definition fields (data : Data) : list (option string) :=
  [Config.YELP_BUSINESS_USERNAME (credentialFields data);
   Config.YELP_BUSINESS_PASSWORD (credentialFields data);
   Config.YELP_BIZ_USERNAME (credentialFields data);
   Config.YELP_BIZ_PASSWORD (credentialFields data);
   YELP_BUSINESS_USERNMAE data; PORT data; HEADLESS data; SLOW_MO_MS data;
   ARTIFACTS_DIR data; YELP_BIZ_USER_DATA_DIR data].

(** [process.env] with the variable [key] set to [value], or unset. *)
Definition setVar (key : string) (value : option string)
    (processEnv : string -> option string) : string -> option string :=
  fun k => if String.eqb k key then value else processEnv k.

End WithBuiltins.

End Environment.

(* ----------------------------------------------------------------- *)
(** ** [scripts/smoke-biz.ts]: the login page smoke check *)

Module Smoke.
Import Client.

Record Report : Type := mkReport {
  ok : bool;
  url : string;
  title : string;
  loginFieldsVisible_email : bool;
  loginFieldsVisible_password : bool;
  captchaVisible : bool
}.

Section WithPlatform.

Variable Env : Type.
Variable pf : Platform Env.
Variable options : Options.

Notation "x <- m ;; k" := (bind m (fun x => k))
  (at level 61, m at next level, right associativity).
Notation "m ;;; k" := (bind m (fun _ => k))
  (at level 61, right associativity).

(** [try { m } finally { cleanup }] *)
Definition finally_ {A : Type} (m : M Env A) (cleanup : M Env unit)
    : M Env A :=
  fun w =>
    let (r, w1) := m w in
    match cleanup w1 with
    | (Ok _, w2) => (r, w2)
    | (Throw e, w2) => (Throw e, w2)
    end.

(** The copy of the captcha loop, lines 35-40. *)
Fixpoint captchaLoop (iframes : locator) (remaining idx : nat)
    : M Env bool :=
  match remaining with
  | 0 => ret false
  | S remaining' =>
      box <- orDefault (call pf (NthBoundingBox iframes idx)) None ;;
      match box with
      | None => captchaLoop iframes remaining' (S idx)
      | Some b =>
          if Qle_bool (100 # 1) (width b) && Qle_bool (100 # 1) (height b)
          then ret true
          else captchaLoop iframes remaining' (S idx)
      end
  end.

Definition emailSelector : string :=
  "input[name=" ++ dq ++ "email" ++ dq ++ "], input[type=" ++ dq ++ "email"
  ++ dq ++ "]".

Definition passwordSelector : string :=
  "input[name=" ++ dq ++ "password" ++ dq ++ "], input[type=" ++ dq
  ++ "password" ++ dq ++ "]".

(** The [try] block of [main]; what it returns is the object that is
    printed. *)
Definition check : M Env Report :=
  start pf options ;;;
  page ;;;
  call pf (PageGoto "https://biz.yelp.com/login") ;;;
  emailVisible <-
    orDefault (call pf (FirstIsVisible (Css emailSelector))) false ;;
  passwordVisible <-
    orDefault (call pf (FirstIsVisible (Css passwordSelector))) false ;;
  captchaVisible <-
    (let iframes := Css captchaSelectors in
     count <- orDefault (call pf (Count iframes)) 0 ;;
     captchaLoop iframes count 0) ;;
  url <- url_ pf ;;
  title <- call pf PageTitle ;;
  ret (mkReport true url title emailVisible passwordVisible captchaVisible).

(** [main()], on the client it has just made. *)
Definition main : M Env Report := finally_ check (stop pf).

End WithPlatform.

End Smoke.

(* ----------------------------------------------------------------- *)
(** ** [scripts/explore-biz.ts]: the links of a page

    [extractInternalLinks] from the value that [page.evaluate] hands
    back, the anchors of the page with a non-empty [href]. *)

Module Explore.

Record Link : Type := mkLink { href : string; text : string }.

Section WithBuiltins.

Variable String_trim : string -> string.
Variable localeCompare : string -> string -> Z.   (* [a.localeCompare(b)] *)

(** The [href] made absolute, lines 23-27. *)
Definition absolute (href : string) : string :=
  if String.prefix "http" href then href
  else if String.prefix "/" href then "https://biz.yelp.com" ++ href
  else href.

Definition normalized (links : list Link) : list Link :=
  filter (fun l => String.prefix "http" (href l))
    (map (fun l =>
            let href := String_trim (href l) in
            mkLink (absolute href) (text l))
         links).

(** A [Map<string, Link>]: its entries in insertion order. *)
Definition has (m : list (string * Link)) (key : string) : bool :=
  existsb (fun kv => String.eqb (fst kv) key) m.

Fixpoint set (m : list (string * Link)) (key : string) (value : Link)
    : list (string * Link) :=
  match m with
  | [] => [(key, value)]
  | (k, v) :: m' =>
      if String.eqb k key then (k, value) :: m'
      else (k, v) :: set m' key value
  end.

Definition values (m : list (string * Link)) : list Link := map snd m.

(** Lines 32-35. *)
Definition unique (links : list Link) : list (string * Link) :=
  fold_left
    (fun unique link =>
       if negb (has unique (href link)) then set unique (href link) link
       else unique)
    links [].

(** [xs.sort(compare)] for a consistent [compare]: the stable sort. *)
Fixpoint insert (compare : Link -> Link -> Z) (x : Link) (sorted : list Link)
    : list Link :=
  match sorted with
  | [] => [x]
  | y :: sorted' =>
      if (compare x y <? 0)%Z then x :: y :: sorted'
      else y :: insert compare x sorted'
  end.

Definition sort (compare : Link -> Link -> Z) (xs : list Link) : list Link :=
  fold_left (fun sorted x => insert compare x sorted) xs [].

Definition extractInternalLinks (links : list Link) : list Link :=
  sort (fun a b => localeCompare (href a) (href b))
       (values (unique (normalized links))).

End WithBuiltins.

End Explore.

(* ----------------------------------------------------------------- *)
(** ** A scripted platform

    A small browser whose answers are written down in advance, and
    ASCII versions of the built-in string functions; the concrete
    runs below are made on it. *)

Module Demo.
Import Client.

Definition lowerChar (c : ascii) : ascii :=
  let n := nat_of_ascii c in
  if Nat.leb 65 n && Nat.leb n 90 then ascii_of_nat (n + 32) else c.

Definition toLowerCase (s : string) : string :=
  string_of_list_ascii (map lowerChar (list_ascii_of_string s)).

Definition isSpace (c : ascii) : bool :=
  let n := nat_of_ascii c in
  (Nat.leb 9 n && Nat.leb n 13) || Nat.eqb n 32.

Fixpoint dropWhile (f : ascii -> bool) (l : list ascii) : list ascii :=
  match l with
  | [] => []
  | c :: l' => if f c then dropWhile f l' else l
  end.

Definition strip (f : ascii -> bool) (s : string) : string :=
  string_of_list_ascii
    (rev (dropWhile f (rev (dropWhile f (list_ascii_of_string s))))).

Definition trim (s : string) : string := strip isSpace s.

Fixpoint contains (needle hay : string) : bool :=
  String.prefix needle hay
  || match hay with
     | EmptyString => false
     | String _ hay' => contains needle hay'
     end.

Fixpoint splitOn (sep : ascii) (acc : string) (s : string) : list string :=
  match s with
  | EmptyString => [acc]
  | String c s' =>
      if Ascii.eqb c sep then acc :: splitOn sep "" s'
      else splitOn sep (acc ++ String c "") s'
  end.

(** A pattern that is an alternation of plain words, with or without
    the flag [i]. *)
Definition test (re : RegExp) (s : string) : bool :=
  let s' := if contains "i" (flags re) then toLowerCase s else s in
  existsb (fun w => contains w s') (splitOn "|" "" (source re)).

Definition isAlnum (c : ascii) : bool :=
  let n := nat_of_ascii c in
  (Nat.leb 97 n && Nat.leb n 122) || (Nat.leb 48 n && Nat.leb n 57).

Fixpoint collapse (inRun : bool) (l : list ascii) : list ascii :=
  match l with
  | [] => []
  | c :: l' =>
      if isAlnum c then c :: collapse false l'
      else if inRun then collapse true l'
      else "-"%char :: collapse true l'
  end.

Definition isDash (c : ascii) : bool := Ascii.eqb c "-".

(** The two patterns of [safeSegment]. *)
Definition replaceAll (re : RegExp) (by_ s : string) : string :=
  if String.eqb (source re) "[^a-z0-9]+" then
    string_of_list_ascii (collapse false (list_ascii_of_string s))
  else if String.eqb (source re) "^-+|-+$" then strip isDash s
  else s.

(** A pattern and a replacement of one character each. *)
Definition replaceAllText (text by_ s : string) : string :=
  match text, by_ with
  | String t EmptyString, String b EmptyString =>
      string_of_list_ascii
        (map (fun c => if Ascii.eqb c t then b else c) (list_ascii_of_string s))
  | _, _ => s
  end.

Fixpoint takeHost (s : string) : string :=
  match s with
  | EmptyString => EmptyString
  | String c s' =>
      if Ascii.eqb c "/" || Ascii.eqb c "?" || Ascii.eqb c "#" then EmptyString
      else String c (takeHost s')
  end.

(** The host of an [http(s)://host/...] URL without port, user or
    upper-case letters. *)
Definition host (u : string) : Res string :=
  if String.prefix "https://" u then Ok (takeHost (substring 8 (String.length u) u))
  else if String.prefix "http://" u then Ok (takeHost (substring 7 (String.length u) u))
  else Throw (mkExn "TypeError" "Invalid URL").

Definition timeoutError : exn := mkExn "TimeoutError" "Timeout exceeded.".

Definition ioError : exn := mkExn "Error" "EIO: i/o error".

(** The browser: where it is, where a navigation lands, and what the
    page answers. *)
Record Browser : Type := mkBrowser {
  at_ : string;
  landing : string -> string;
  title : Res string;
  frames : Res (list (Res (option Box)));
  emailVisible : Res bool;
  passwordVisible : Res bool;
  otherVisible : Res bool;
  emailVisibleAfterClick : Res bool;
  sinkFails : bool;
  waitFails : bool;
  clock : string
}.

Definition isCss (sel : string) (l : locator) : bool :=
  match l with
  | Css s => String.eqb s sel
  | _ => false
  end.

Definition io (b : Browser) : Res unit * Browser :=
  (if sinkFails b then Throw ioError else Ok tt, b).

Definition perform (A : Type) (o : op A) (b : Browser) : Res A * Browser :=
  match o in op T return Res T * Browser with
  | FsMkdir _ => io b
  | FsWriteFile _ _ => io b
  | PageScreenshot _ => io b
  | PageContent => (if sinkFails b then Throw ioError else Ok "<html></html>", b)
  | LaunchPersistentContext _ _ => (Ok tt, b)
  | SetDefaultTimeout _ => (Ok tt, b)
  | SetDefaultNavigationTimeout _ => (Ok tt, b)
  | FirstPageOrNewPage => (Ok tt, b)
  | ContextClose => (Ok tt, b)
  | PageGoto u =>
      (Ok tt,
       mkBrowser (landing b u) (landing b) (title b) (frames b)
                 (emailVisible b) (passwordVisible b) (otherVisible b)
                 (emailVisibleAfterClick b) (sinkFails b) (waitFails b)
                 (clock b))
  | PageTitle => (title b, b)
  | Count _ =>
      (match frames b with
       | Ok fs => Ok (List.length fs)
       | Throw e => Throw e
       end, b)
  | NthBoundingBox _ idx =>
      (match frames b with
       | Ok fs => nth idx fs (Ok None)
       | Throw e => Throw e
       end, b)
  | FirstIsVisible l =>
      (if isCss emailSelector l then emailVisible b
       else if isCss passwordSelector l then passwordVisible b
       else otherVisible b, b)
  | FirstFill _ _ => (Ok tt, b)
  | FirstClick _ =>
      (Ok tt,
       mkBrowser (at_ b) (landing b) (title b) (frames b)
                 (emailVisibleAfterClick b) (passwordVisible b)
                 (otherVisible b) (emailVisibleAfterClick b) (sinkFails b)
                 (waitFails b) (clock b))
  | WaitForURLOffLogin _ => (Ok tt, b)
  | WaitForFunction _ _ =>
      (if waitFails b then Throw timeoutError else Ok tt, b)
  end.

Definition platform : Platform Browser :=
  mkPlatform perform at_ clock host test replaceAll replaceAllText
             (fun a b s => substring a (b - a) s) trim toLowerCase
             (fun s => (dq ++ s ++ dq)%string) (join "/")
             (fun _ _ _ => true).

Definition options : Options :=
  constructor "artifacts" None (Some 250%N) "state/yelp-biz/user-data".

(** A quiet page: nothing visible, no frames, navigations land where
    they are sent. *)
Definition quiet : Browser :=
  mkBrowser "about:blank" (fun u => u) (Ok "Yelp for Business") (Ok [])
            (Ok false) (Ok false) (Ok false) (Ok false) false false
            "2025-01-02T03:04:05.678Z".

Definition fresh (b : Browser) : World Browser := mkWorld b [] false false.

Definition running (b : Browser) : World Browser := mkWorld b [] true true.

(** A page that never changes: its queries all throw, or all answer
    the same (no captcha frame, every locator visible or none); waiting
    for it times out; the file system works. *)
Definition fixedPerform (queriesThrow visible : bool) (A : Type) (o : op A)
    (e : unit) : Res A * unit :=
  match o in op T return Res T * unit with
  | PageTitle =>
      (if queriesThrow then Throw timeoutError else Ok "Verify it is you", e)
  | Count _ => (if queriesThrow then Throw timeoutError else Ok 0, e)
  | NthBoundingBox _ _ =>
      (if queriesThrow then Throw timeoutError else Ok None, e)
  | FirstIsVisible _ =>
      (if queriesThrow then Throw timeoutError else Ok visible, e)
  | WaitForURLOffLogin _ => (Throw timeoutError, e)
  | WaitForFunction _ _ => (Throw timeoutError, e)
  | PageContent => (Ok "<html></html>", e)
  | FsMkdir _ => (Ok tt, e)
  | FsWriteFile _ _ => (Ok tt, e)
  | PageScreenshot _ => (Ok tt, e)
  | LaunchPersistentContext _ _ => (Ok tt, e)
  | SetDefaultTimeout _ => (Ok tt, e)
  | SetDefaultNavigationTimeout _ => (Ok tt, e)
  | FirstPageOrNewPage => (Ok tt, e)
  | ContextClose => (Ok tt, e)
  | PageGoto _ => (Ok tt, e)
  | FirstFill _ _ => (Ok tt, e)
  | FirstClick _ => (Ok tt, e)
  end.

Definition fixed (queriesThrow visible : bool) : Platform unit :=
  mkPlatform (fixedPerform queriesThrow visible)
             (fun _ => "https://biz.yelp.com/login")
             (fun _ => "2025-01-02T03:04:05.678Z")
             host test replaceAll replaceAllText
             (fun a b s => substring a (b - a) s) trim toLowerCase
             (fun s => (dq ++ s ++ dq)%string) (join "/")
             (fun _ _ _ => true).

(** The scripted pages of the runs. *)

Definition box (w h : Z) : Box := mkBox 0 0 (w # 1) (h # 1).

Definition fourFrames : list (Res (option Box)) :=
  [Ok (Some (box 80 80)); Throw timeoutError; Ok None; Ok (Some (box 150 150))].

Definition framed : Browser :=
  mkBrowser "https://biz.yelp.com/login" (fun u => u) (Ok "Log in")
            (Ok fourFrames) (Ok false) (Ok false) (Ok false) (Ok false)
            false false "2025-01-02T03:04:05.678Z".

(** The page of [framed], whose title query fails. *)
Definition framedUntitled : Browser :=
  mkBrowser "https://biz.yelp.com/login" (fun u => u) (Throw timeoutError)
            (Ok fourFrames) (Ok false) (Ok false) (Ok false) (Ok false)
            false false "2025-01-02T03:04:05.678Z".

(** The page of [framed] on which the title query and the visibility
    queries of the status handler fail. *)
Definition flaky : Browser :=
  mkBrowser "https://biz.yelp.com/login" (fun u => u) (Throw timeoutError)
            (Ok fourFrames) (Ok false) (Ok false) (Throw timeoutError) (Ok false)
            false false "2025-01-02T03:04:05.678Z".

(** The login form shows and stays after the submit. *)
Definition rejecting : Browser :=
  mkBrowser "https://biz.yelp.com/login" (fun u => u) (Ok "Log in") (Ok [])
            (Ok true) (Ok true) (Ok false) (Ok true) false false
            "2025-01-02T03:04:05.678Z".

(** The page of [rejecting] on a machine whose disk fails. *)
Definition rejectingDiskFull : Browser :=
  mkBrowser "https://biz.yelp.com/login" (fun u => u) (Ok "Log in") (Ok [])
            (Ok true) (Ok true) (Ok false) (Ok true) true false
            "2025-01-02T03:04:05.678Z".

(** Only a password prompt shows. *)
Definition passwordOnly : Browser :=
  mkBrowser "about:blank" (fun u => u) (Ok "Log in") (Ok [])
            (Ok false) (Ok true) (Ok false) (Ok false) false false
            "2025-01-02T03:04:05.678Z".

(** Every navigation ends on the given site. *)
Definition redirecting (target : string) : Browser :=
  mkBrowser "about:blank" (fun _ => target) (Ok "Yelp") (Ok [])
            (Ok false) (Ok false) (Ok false) (Ok false) false false
            "2025-01-02T03:04:05.678Z".

(** The title query fails. *)
Definition untitled : Browser :=
  mkBrowser "https://biz.yelp.com/" (fun u => u) (Throw timeoutError) (Ok [])
            (Ok false) (Ok false) (Ok false) (Ok false) false false
            "2025-01-02T03:04:05.678Z".

Definition someone : Credentials := mkCredentials "owner@example.com" "hunter2".

(** The URL check of the schema: the string parses as a URL. *)
Definition isUrl (u : string) : bool :=
  match host u with
  | Ok _ => true
  | Throw _ => false
  end.

(** The characters of a path segment: a lower-case letter, a digit or
    a dash. *)
Definition segmentChar (c : ascii) : bool := isAlnum c || isDash c.

(** On the two patterns of [safeSegment] the platform replaces as the
    ASCII versions do, and [slice(0, 80)] keeps the first eighty
    characters. *)
Definition segmentsAsAscii (Env : Type) (pf : Platform Env) : Prop :=
  (forall s,
     String_replaceAll pf (mkRegExp "[^a-z0-9]+" "g") "-" s
     = string_of_list_ascii (collapse false (list_ascii_of_string s)))
  /\ (forall s,
        String_replaceAll pf (mkRegExp "^-+|-+$" "g") "" s = strip isDash s)
  /\ (forall s, String_slice pf 0 80 s = substring 0 80 s).

(** A platform on which the calls picked out by [broken] throw, the
    others being those of [platform]. *)
Definition breaking (broken : forall A : Type, op A -> bool) : Platform Browser :=
  mkPlatform
    (fun A o b => if broken A o then (Throw ioError, b) else perform o b)
    at_ clock host test replaceAll replaceAllText
    (fun a b s => substring a (b - a) s) trim toLowerCase
    (fun s => (dq ++ s ++ dq)%string) (join "/")
    (fun _ _ _ => true).

Definition opensPage (A : Type) (o : op A) : bool :=
  match o with
  | FirstPageOrNewPage => true
  | _ => false
  end.

Definition closes (A : Type) (o : op A) : bool :=
  match o with
  | ContextClose => true
  | _ => false
  end.

(** Decimal digits, read from the left. *)
Definition digit (c : ascii) : option Z :=
  let n := nat_of_ascii c in
  if Nat.leb 48 n && Nat.leb n 57 then Some (Z.of_nat (n - 48)) else None.

Fixpoint digits (acc : option Z) (l : list ascii) : option Z :=
  match l with
  | [] => acc
  | c :: l' =>
      match digit c with
      | Some d =>
          digits (Some (10 * match acc with Some a => a | None => 0 end + d)%Z) l'
      | None => acc
      end
  end.

(** [Number.parseInt(s, 10)] on a short ASCII string. *)
Definition parseInt (s : string) : Environment.Number :=
  match dropWhile isSpace (list_ascii_of_string s) with
  | "-"%char :: l =>
      match digits None l with
      | Some 0%Z => Environment.NegativeZero
      | Some z => Environment.Int (- z)
      | None => Environment.NaN
      end
  | "+"%char :: l =>
      match digits None l with
      | Some z => Environment.Int z
      | None => Environment.NaN
      end
  | l =>
      match digits None l with
      | Some z => Environment.Int z
      | None => Environment.NaN
      end
  end.

(** The module [src/env.ts] on the ASCII built-ins. *)
Definition load (processEnv : string -> option string)
    : Res Environment.Exports :=
  Environment.load trim toLowerCase (fun s => (dq ++ s ++ dq)%string) parseInt
                   (fun p => ("/srv/yelp-bot/" ++ p)%string)
                   "String must contain at least 1 character(s)" processEnv.

(** A [process.env] given by its entries. *)
Fixpoint processEnv (entries : list (string * string)) (key : string)
    : option string :=
  match entries with
  | [] => None
  | (k, v) :: entries' =>
      if String.eqb k key then Some v else processEnv entries' key
  end.

(** Comparison of strings by their characters. *)
Definition localeCompare (a b : string) : Z :=
  match String.compare a b with
  | Lt => (-1)%Z
  | Eq => 0%Z
  | Gt => 1%Z
  end.

End Demo.

(* ================================================================= *)
(** * Part II: properties *)
(* ================================================================= *)

(* ----------------------------------------------------------------- *)
(** ** The serial command queue *)

Module SerialQueueFacts.
Import SerialQueue.

(** *** The promise operations on a known heap *)

Lemma runtime_ext h1 h2 j1 j2 f1 f2 t1 t2 l1 l2 c1 c2 :
  (forall p, h1 p = h2 p) -> j1 = j2 -> f1 = f2 -> t1 = t2 -> l1 = l2 -> c1 = c2 ->
  mkRuntime h1 j1 f1 t1 l1 c1 = mkRuntime h2 j2 f2 t2 l2 c2.
Proof. intros H -> -> -> -> ->. f_equal. apply functional_extensionality, H. Qed.

Lemma then_pending rt p rs f g d :
  heap rt p = Some (Pending rs) -> d <> p ->
  then_ p f g d rt
  = mkRuntime (upd p (Pending (rs ++ [mkReaction f g d])) (upd d (Pending []) (heap rt)))
              (jobs rt) (fns rt) (tail rt) (log rt) (clash rt || defined (heap rt d)).
Proof.
  intros H Hd. unfold then_, alloc; simpl. unfold upd at 1.
  destruct (pid_eq_dec p d); [congruence|]. rewrite H. reflexivity.
Qed.

Lemma then_settled rt p s f g d :
  heap rt p = Some (Settled s) -> d <> p ->
  then_ p f g d rt
  = mkRuntime (upd d (Pending []) (heap rt))
              (jobs rt ++ [jobFor s (mkReaction f g d)]) (fns rt) (tail rt) (log rt)
              (clash rt || defined (heap rt d)).
Proof.
  intros H Hd. unfold then_, alloc; simpl. unfold upd at 1.
  destruct (pid_eq_dec p d); [congruence|]. rewrite H. reflexivity.
Qed.

Lemma settle_pending rt p rs s :
  heap rt p = Some (Pending rs) ->
  settle p s rt
  = mkRuntime (upd p (Settled s) (heap rt)) (jobs rt ++ map (jobFor s) rs)
              (fns rt) (tail rt) (log rt) (clash rt).
Proof. intros H. unfold settle. rewrite H. reflexivity. Qed.

Lemma upd_same p c h : upd p c h p = Some c.
Proof. unfold upd. destruct (pid_eq_dec p p); congruence. Qed.

Lemma upd_other p q c h : q <> p -> upd p c h q = h q.
Proof. unfold upd. destruct (pid_eq_dec q p); congruence. Qed.

Lemma throwing_app fs b j : j < List.length fs -> throwing (fs ++ [b]) j = throwing fs j.
Proof. intros H. unfold throwing. rewrite nth_error_app1 by assumption. reflexivity. Qed.

Lemma settledAt_app os s j : j < List.length os -> settledAt (os ++ [s]) j = settledAt os j.
Proof. intros H. unfold settledAt. rewrite nth_error_app1 by assumption. reflexivity. Qed.

Lemma settledAt_last os s : settledAt (os ++ [s]) (List.length os) = Some (Settled s).
Proof. unfold settledAt. rewrite nth_error_app2 by lia. rewrite Nat.sub_diag. reflexivity. Qed.

Ltac nat_cases :=
  repeat match goal with
  | |- context [?a <? ?b] => destruct (Nat.ltb_spec a b); cbv beta iota
  | |- context [?a =? ?b] => destruct (Nat.eqb_spec a b); cbv beta iota
  end.

Ltac pid_cases :=
  repeat match goal with
  | |- context [pid_eq_dec ?p ?q] =>
      destruct (pid_eq_dec p q) as [->|?]; cbv beta iota
  end.

Ltac pid_neq :=
  repeat match goal with
  | H : PRun ?a <> PRun ?b |- _ =>
      assert (a <> b) by (intro; apply H; f_equal; assumption); clear H
  | H : PTail ?a <> PTail ?b |- _ =>
      assert (a <> b) by (intro; apply H; f_equal; assumption); clear H
  | H : PTask ?a <> PTask ?b |- _ =>
      assert (a <> b) by (intro; apply H; f_equal; assumption); clear H
  | H : PAdopt (PRun ?a) <> PAdopt (PRun ?b) |- _ =>
      assert (a <> b) by (intro; apply H; do 2 f_equal; assumption); clear H
  | H : ?p <> ?p |- _ => exfalso; apply H; reflexivity
  end.

Ltac cell :=
  pid_neq;
  unfold expect; cbn [vfns front ph outs]; rewrite ?length_app; cbn [List.length];
  repeat match goal with H : List.length _ = S _ |- _ => rewrite ?H; revert H end; intros;
  nat_cases; try lia; try congruence; try reflexivity;
  rewrite ?throwing_app by (cbn [List.length]; lia);
  rewrite ?settledAt_app by (cbn [List.length]; lia);
  try reflexivity;
  repeat match goal with
         | H : ?a = ?b |- _ => is_var a; subst a
         end;
  repeat match goal with
         | H : throwing _ _ = _ |- _ => rewrite H
         end;
  rewrite ?settledAt_last;
  try reflexivity; try congruence.

Lemma tailBefore_neq_run i j : tailBefore i <> PRun j.
Proof. destruct i; discriminate. Qed.


#[local] Arguments Nat.ltb : simpl never.
#[local] Arguments Nat.eqb : simpl never.
#[local] Arguments Nat.leb : simpl never.

Lemma expect_tail_settled v :
  front v = List.length (vfns v) ->
  expect v (tailBefore (List.length (vfns v))) = Some (Settled (Fulfilled Undefined)).
Proof.
  destruct v as [fs k p os]; simpl. intros ->.
  destruct fs as [|b fs]; [reflexivity|]. unfold expect; simpl.
  nat_cases; try lia; reflexivity.
Qed.

Lemma expect_tail_pending v :
  front v < List.length (vfns v) ->
  expect v (tailBefore (List.length (vfns v))) = Some (Pending []).
Proof.
  destruct v as [fs k p os]; simpl. intros H.
  destruct fs as [|b fs]; [simpl in H; lia|]. unfold expect; simpl in *.
  nat_cases; try lia; reflexivity.
Qed.

Lemma expect_fresh_run v j :
  List.length (vfns v) <= j -> front v <= List.length (vfns v) -> expect v (PRun j) = None.
Proof.
  destruct v as [fs k p os]; simpl. intros H1 H2. unfold expect; simpl.
  nat_cases; try lia; reflexivity.
Qed.

Lemma expect_fresh_tail v j :
  List.length (vfns v) <= j -> front v <= List.length (vfns v) -> expect v (PTail j) = None.
Proof.
  destruct v as [fs k p os]; simpl. intros H1 H2. unfold expect; simpl.
  nat_cases; try lia; reflexivity.
Qed.

Lemma wf_front_le v : wf v -> front v <= List.length (vfns v).
Proof. destruct v as [fs k p os]. unfold wf; simpl. destruct p; intuition lia. Qed.


#[local] Arguments expect : simpl never.

Lemma enqueue_settled rt b s :
  heap rt (tail rt) = Some (Settled s) ->
  tail rt <> PRun (List.length (fns rt)) ->
  heap rt (PRun (List.length (fns rt))) = None ->
  heap rt (PTail (List.length (fns rt))) = None ->
  clash rt = false ->
  snd (enqueue b rt)
  = let n := List.length (fns rt) in
    mkRuntime (upd (PRun n) (Pending [relay n])
                 (upd (PTail n) (Pending []) (upd (PRun n) (Pending []) (heap rt))))
              (jobs rt ++ [jobFor s (link n)]) (fns rt ++ [b]) (PTail n) (log rt) false.
Proof.
  destruct rt as [h js fs t l c]; simpl. intros Ht Hne Hr Hp ->.
  unfold enqueue; simpl.
  rewrite (@then_settled (mkRuntime h js (fs ++ [b]) t l false) t s); simpl; auto.
  rewrite (@then_pending _ (PRun (List.length fs)) []); simpl;
    [| apply upd_same | discriminate ].
  rewrite Hr. rewrite upd_other by discriminate. rewrite Hp. reflexivity.
Qed.

Lemma enqueue_pending rt b rs :
  heap rt (tail rt) = Some (Pending rs) ->
  tail rt <> PRun (List.length (fns rt)) ->
  heap rt (PRun (List.length (fns rt))) = None ->
  heap rt (PTail (List.length (fns rt))) = None ->
  clash rt = false ->
  snd (enqueue b rt)
  = let n := List.length (fns rt) in
    mkRuntime (upd (PRun n) (Pending [relay n])
                 (upd (PTail n) (Pending [])
                    (upd (tail rt) (Pending (rs ++ [link n]))
                       (upd (PRun n) (Pending []) (heap rt)))))
              (jobs rt) (fns rt ++ [b]) (PTail n) (log rt) false.
Proof.
  destruct rt as [h js fs t l c]; simpl. intros Ht Hne Hr Hp ->.
  unfold enqueue; simpl.
  rewrite (@then_pending (mkRuntime h js (fs ++ [b]) t l false) t rs); simpl; auto.
  rewrite (@then_pending _ (PRun (List.length fs)) []); simpl.
  - rewrite Hr. rewrite upd_other by (intro E; rewrite <- E in Ht; congruence).
    rewrite upd_other by discriminate.
    rewrite Hp. reflexivity.
  - rewrite upd_other by congruence. apply upd_same.
  - discriminate.
Qed.

Lemma tailBefore_snoc (fs : list behaviour) b :
  tailBefore (List.length (fs ++ [b])) = PTail (List.length fs).
Proof. rewrite length_app, Nat.add_comm. reflexivity. Qed.

Lemma refine_enqueue v b : wf v -> step (concr v) (Enqueue b) = concr (astep v (Enqueue b)).
Proof.
  intros Hwf. pose proof (wf_front_le Hwf) as Hle.
  assert (Hr : expect v (PRun (List.length (vfns v))) = None)
    by (apply expect_fresh_run; simpl; lia).
  assert (Ht : expect v (PTail (List.length (vfns v))) = None)
    by (apply expect_fresh_tail; simpl; lia).
  unfold step.
  destruct (Nat.eq_dec (front v) (List.length (vfns v))) as [Hk|Hk].
  - rewrite (@enqueue_settled (concr v) b (Fulfilled Undefined));
      [ | apply expect_tail_settled; assumption | apply tailBefore_neq_run
        | assumption | assumption | reflexivity ].
    destruct v as [fs k p os]. unfold wf in Hwf; simpl in *. destruct Hwf as [Hlen [Hph [Hthrown Hrel]]].
    assert (p = Idle) by (destruct p; try reflexivity; lia). subst p k. simpl.
    unfold concr; simpl.
    apply runtime_ext; try reflexivity; try (symmetry; apply tailBefore_snoc).
    intros q. unfold upd. pid_cases.
    all: try solve [cell].
    destruct q as [|j|j|j|q]; try solve [cell].
    destruct q; try solve [cell].
  - rewrite (@enqueue_pending (concr v) b []);
      [ | apply expect_tail_pending; lia | apply tailBefore_neq_run
        | assumption | assumption | reflexivity ].
    destruct v as [fs k p os]. unfold wf in Hwf; simpl in *. destruct Hwf as [Hlen [Hph [Hthrown Hrel]]].
    destruct p; try (exfalso; lia).
    all: unfold concr, astep; cbn [vfns front ph outs heap jobs fns tail log clash].
    all: apply runtime_ext; try reflexivity; try (symmetry; apply tailBefore_snoc).
    all: intros q; unfold upd.
    all: destruct (List.length fs) as [|m] eqn:Hn; [exfalso; lia|]; cbn [tailBefore].
    all: pid_cases.
    all: try solve [cell].
    all: destruct q as [|j|j|j|q]; try solve [cell].
    all: destruct q; try solve [cell].
Qed.


Ltac log_eq := repeat rewrite <- app_assoc; cbn [app]; reflexivity.

Ltac fresh_ok :=
  unfold expect; cbn [vfns front ph outs orb defined];
  nat_cases; try lia; try reflexivity;
  repeat match goal with
         | H : throwing _ _ = _ |- _ => rewrite H
         end;
  reflexivity.

Ltac lookup :=
  unfold record, alloc, pushJob, pushJobs, setHeap; cbn [heap];
  unfold upd; pid_cases; try congruence;
  unfold expect; cbn [vfns front ph outs];
  nat_cases; try lia;
  repeat match goal with
         | H : throwing _ _ = _ |- _ => rewrite H
         end;
  reflexivity.

Ltac heap_cases :=
  let q := fresh "q" in
  intros q; unfold upd; pid_cases; try solve [cell];
  try (destruct q as [|?j|?j|?j|q]; try solve [cell];
       try (destruct q; try solve [cell])).

Lemma expect_task_pending v i rs :
  expect v (PTask i) = Some (Pending rs) ->
  i = front v /\
  ((ph v = Adopting None /\ rs = []) \/ (ph v = Running /\ rs = [adoption (front v)])).
Proof.
  destruct v as [fs k p os]. unfold expect; cbn [vfns front ph outs].
  nat_cases.
  - destruct (throwing fs i); [discriminate|]. unfold settledAt.
    destruct (nth_error os i); discriminate.
  - subst i. destruct p as [| |[s|]| | |s]; try discriminate.
    + intros E; inversion E; auto.
    + intros E; inversion E; auto.
    + destruct (throwing fs k); discriminate.
  - discriminate.
Qed.

Lemma astep_complete_noop v i s :
  (forall rs, expect v (PTask i) <> Some (Pending rs)) ->
  astep v (Complete i s) = v.
Proof.
  destruct v as [fs k p os]. unfold astep; cbn [vfns front ph outs].
  intros H. destruct (Nat.eqb_spec i k) as [->|]; [|reflexivity].
  destruct p as [| |[s'|]| | |s']; try reflexivity; exfalso.
  - apply (H []). unfold expect; cbn [vfns front ph outs].
    nat_cases; try lia. reflexivity.
  - apply (H [adoption k]). unfold expect; cbn [vfns front ph outs].
    nat_cases; try lia. reflexivity.
Qed.

Lemma refine_complete v i s :
  wf v -> step (concr v) (Complete i s) = concr (astep v (Complete i s)).
Proof.
  intros Hwf. unfold step. cbn [concr heap].
  destruct (expect v (PTask i)) as [[rs|s']|] eqn:E.
  - apply expect_task_pending in E. destruct E as [-> E].
    destruct v as [fs k p os]. cbn [front ph] in *.
    unfold wf in Hwf; cbn [vfns front ph outs] in Hwf. destruct Hwf as [Hlen [Hph [Hthrown Hrel]]].
    unfold astep; cbn [vfns front ph outs]. rewrite Nat.eqb_refl.
    destruct E as [[-> ->]|[-> ->]].
    + erewrite settle_pending.
      2:{ cbn [heap record concr]. unfold expect; cbn [vfns front ph outs].
          nat_cases; try lia. reflexivity. }
      unfold concr. cbn -[expect].
      apply runtime_ext; try reflexivity.
      * heap_cases.
      * log_eq.
    + erewrite settle_pending.
      2:{ cbn [heap record concr]. unfold expect; cbn [vfns front ph outs].
          nat_cases; try lia. reflexivity. }
      unfold concr. cbn -[expect].
      apply runtime_ext; try reflexivity.
      * heap_cases.
      * destruct s; reflexivity.
      * log_eq.
  - rewrite astep_complete_noop; [reflexivity|]. intros rs; congruence.
  - rewrite astep_complete_noop; [reflexivity|]. intros rs; congruence.
Qed.

Lemma logFrom_app i os s :
  logFrom i (os ++ [s])
  = logFrom i os ++ [Started (i + List.length os); Finished (i + List.length os) s].
Proof.
  revert i. induction os as [|o os IH]; intros i; simpl.
  - rewrite Nat.add_0_r. reflexivity.
  - rewrite IH. rewrite Nat.add_succ_r. reflexivity.
Qed.

Ltac rt_eq :=
  apply runtime_ext;
  [ heap_cases
  | try reflexivity
  | try reflexivity
  | try reflexivity
  | try (cbn [phaseLog]; log_eq)
  | try fresh_ok ].

Lemma refine_microtask v :
  wf v -> step (concr v) Microtask = concr (astep v Microtask).
Proof.
  intros Hwf. destruct v as [fs k p os].
  unfold wf in Hwf; cbn [vfns front ph outs] in Hwf. destruct Hwf as [Hlen [Hph [Hthrown Hrel]]].
  unfold step, astep, concr;
    cbn [jobs heap fns tail log clash vfns front ph outs].
  destruct p as [| |o| |s|s]; cbn [phaseJobs]; try reflexivity.
  - (* Scheduled *)
    unfold runJob, callHandler, callFn.
    cbn [jobs heap fns tail log clash record].
    destruct (nth_error fs k) as [[r|s|]|] eqn:Ek.
    + assert (Hthr : throwing fs k = true) by (unfold throwing; rewrite Ek; reflexivity).
      cbn [resolveWith]. erewrite settle_pending; [|lookup].
      unfold record; cbn [heap jobs fns tail log clash]. rt_eq.
    + assert (Hthr : throwing fs k = false) by (unfold throwing; rewrite Ek; reflexivity).
      unfold resolveWith, pushJob, record, alloc; cbn [heap jobs fns tail log clash].
      rt_eq.
    + assert (Hthr : throwing fs k = false) by (unfold throwing; rewrite Ek; reflexivity).
      unfold resolveWith, pushJob, record, alloc; cbn [heap jobs fns tail log clash].
      rt_eq.
    + apply nth_error_None in Ek. lia.
  - (* Adopting *)
    destruct Hph as [Hk Hthr].
    unfold runJob. destruct o as [s|].
    + erewrite then_settled; [|lookup|discriminate].
      cbn [heap jobs fns tail log clash]. rt_eq.
      destruct s; reflexivity.
    + erewrite then_pending; [|lookup|discriminate].
      cbn [heap jobs fns tail log clash]. rt_eq.
  - (* Forwarding *)
    destruct Hph as [Hk Hthr].
    destruct s as [x|x]; unfold runJob, callHandler.
    + erewrite settle_pending; [|lookup].
      cbn [heap jobs fns tail log clash map app jobFor relay onFulfilled onRejected derived].
      unfold resolveWith.
      erewrite settle_pending; [|lookup].
      cbn [heap jobs fns tail log clash map app]. rt_eq.
    + erewrite settle_pending; [|lookup].
      cbn [heap jobs fns tail log clash map app jobFor relay onFulfilled onRejected derived].
      unfold resolveWith.
      erewrite settle_pending; [|lookup].
      cbn [heap jobs fns tail log clash map app]. rt_eq.
  - (* Releasing *)
    unfold runJob, callHandler, resolveWith. subst k.
    destruct (Nat.ltb_spec (S (List.length os)) (List.length fs)) as [Hn|Hn].
    + erewrite settle_pending; [|lookup].
      cbn [heap jobs fns tail log clash map app]. rt_eq.
      cbn [vfns front ph outs phaseLog]. rewrite logFrom_app, app_nil_r. reflexivity.
    + erewrite settle_pending; [|lookup].
      cbn [heap jobs fns tail log clash map app]. rt_eq.
      cbn [vfns front ph outs phaseLog]. rewrite logFrom_app, app_nil_r. reflexivity.
Qed.

Lemma refine v a : wf v -> step (concr v) a = concr (astep v a).
Proof.
  destruct a; [apply refine_enqueue | apply refine_complete | apply refine_microtask].
Qed.

Lemma wf_astep v a : wf v -> wf (astep v a).
Proof.
  destruct v as [fs k p os]. unfold wf, astep; cbn [vfns front ph outs].
  intros [Hlen [Hph [Hthrown Hrel]]]. destruct a as [b|i s|].
  - cbn [vfns front ph outs]. rewrite length_app; cbn [List.length].
    split; [assumption|]. split; [|split].
    + destruct p; try lia.
      all: destruct Hph as [Hk Hthr]; split; [lia|].
      all: rewrite throwing_app by lia; assumption.
    + intros j r Hj Hjk. apply Hthrown; [|assumption].
      rewrite nth_error_app1 in Hj; [assumption|]. destruct p; lia.
    + intros s r Hp Hj. destruct p; try discriminate. inversion Hp; subst.
      apply Hrel; [reflexivity|]. rewrite nth_error_app1 in Hj; [assumption|lia].
  - destruct (i =? k); [|cbn [vfns front ph outs]; auto].
    destruct p as [| |[s'|]| | |s']; cbn [vfns front ph outs]; auto.
    all: repeat split; try tauto; try assumption; discriminate.
  - destruct p as [| |[s'|]| | |s']; cbn [vfns front ph outs].
    + repeat split; assumption.
    + destruct (nth_error fs k) as [[r|s|]|] eqn:Ek; cbn [vfns front ph outs].
      * repeat split; try assumption. intros s r' E1 E2. congruence.
      * repeat split; try assumption; try discriminate.
        unfold throwing; rewrite Ek; reflexivity.
      * repeat split; try assumption; try discriminate.
        unfold throwing; rewrite Ek; reflexivity.
      * apply nth_error_None in Ek. lia.
    + repeat split; try tauto; try assumption. discriminate.
    + repeat split; try tauto; try assumption. discriminate.
    + repeat split; try tauto; assumption.
    + repeat split; try tauto; try assumption.
      intros s0 r E1 E2. exfalso. destruct Hph as [_ Hthr].
      unfold throwing in Hthr. rewrite E2 in Hthr. discriminate.
    + rewrite length_app; cbn [List.length]. split; [lia|]. split; [|split].
      * destruct (Nat.ltb_spec (S k) (List.length fs)); lia.
      * intros j r Hj Hjk. destruct (Nat.eq_dec j k) as [->|].
        -- rewrite nth_error_app2 by lia. rewrite Hlen, Nat.sub_diag.
           cbn [nth_error]. f_equal. apply (Hrel s' r); [reflexivity|assumption].
        -- rewrite nth_error_app1 by lia. apply Hthrown; [assumption|lia].
      * intros s r E. destruct (S k <? List.length fs); discriminate.
Qed.


Lemma init_concr : init = concr (mkView [] 0 Idle []).
Proof.
  unfold init, concr; cbn [vfns front ph outs phaseJobs phaseLog logFrom tailBefore List.length app].
  apply runtime_ext; try reflexivity.
  intros q. unfold upd. pid_cases; [reflexivity|].
  destruct q as [|j|j|j|q]; try congruence; try solve [cell].
  destruct q; try solve [cell].
Qed.

Lemma exec_concr acts : forall v,
  wf v ->
  exec acts (concr v) = concr (fold_left astep acts v)
  /\ wf (fold_left astep acts v).
Proof.
  induction acts as [|a acts IH]; intros v Hwf; [split; [reflexivity|assumption]|].
  cbn [exec fold_left]. rewrite refine by assumption.
  apply IH, wf_astep, Hwf.
Qed.

Lemma wf_init : wf (mkView [] 0 Idle []).
Proof.
  unfold wf; cbn [vfns front ph outs]. repeat split.
  - intros j r H. destruct j; discriminate.
  - discriminate.
Qed.

Lemma reachable_view acts :
  exists v, wf v /\ exec acts init = concr v.
Proof.
  exists (fold_left astep acts (mkView [] 0 Idle [])).
  rewrite init_concr. destruct (@exec_concr acts _ wf_init) as [E W]. split; assumption.
Qed.

Lemma serialFrom_logFrom os : forall i tl,
  tl = [] \/ tl = [Started (i + List.length os)]
  \/ (exists s, tl = [Started (i + List.length os); Finished (i + List.length os) s]) ->
  serialFrom i (logFrom i os ++ tl).
Proof.
  induction os as [|o os IH]; intros i tl H.
  - cbn [logFrom app List.length] in *. rewrite Nat.add_0_r in H.
    destruct H as [->|[->|[s ->]]]; simpl; auto.
  - cbn [logFrom app]. cbn [serialFrom]. split; [reflexivity|]. split; [reflexivity|].
    apply IH. cbn [List.length] in H. rewrite Nat.add_succ_r in H. exact H.
Qed.

Lemma in_started_logFrom os : forall i j,
  In (Started j) (logFrom i os) <-> i <= j < i + List.length os.
Proof.
  induction os as [|o os IH]; intros i j; cbn [logFrom List.length In].
  - split; [tauto|lia].
  - rewrite IH. split.
    + intros [E|[E|H]]; [inversion E; lia|discriminate|lia].
    + intros H. destruct (Nat.eq_dec i j) as [->|]; [left; reflexivity|right; right; lia].
Qed.

Lemma in_finished_logFrom os : forall i j s,
  In (Finished j s) (logFrom i os) <-> i <= j /\ nth_error os (j - i) = Some s.
Proof.
  induction os as [|o os IH]; intros i j s; cbn [logFrom In].
  - split; [tauto|]. intros [_ H]. destruct (j - i); discriminate.
  - rewrite IH. split.
    + intros [E|[E|[H1 H2]]]; [discriminate| |].
      * inversion E; subst. rewrite Nat.sub_diag. split; [lia|reflexivity].
      * split; [lia|]. replace (j - i) with (S (j - S i)) by lia. exact H2.
    + intros [H1 H2]. destruct (Nat.eq_dec i j) as [->|].
      * rewrite Nat.sub_diag in H2. inversion H2. right; left; reflexivity.
      * right; right. split; [lia|].
        replace (j - i) with (S (j - S i)) in H2 by lia. exact H2.
Qed.

Lemma drain_view : forall m v,
  measure v <= m -> wf v ->
  exists c, phaseJobs (front (fold_left astep (repeat Microtask c) v))
                      (ph (fold_left astep (repeat Microtask c) v)) = [].
Proof.
  induction m as [|m IH]; intros v Hm Hwf.
  - exists 0. cbn [repeat fold_left]. unfold measure in Hm.
    destruct (ph v); cbn [rank] in Hm; try lia; reflexivity.
  - destruct (ph v) eqn:Ep; try (exists 0; cbn [repeat fold_left]; rewrite Ep; reflexivity).
    all: destruct (IH (astep v Microtask)) as [c Hc];
      [ | apply wf_astep; assumption | exists (S c); exact Hc ].
    all: destruct v as [fs k p os]; cbn [ph] in Ep; subst p.
    all: unfold wf in Hwf; cbn [vfns front ph outs] in Hwf; destruct Hwf as [Hlen [Hph [Hthrown Hrel]]].
    all: unfold measure in *; unfold astep; cbn [vfns front ph outs rank] in *.
    + destruct (nth_error fs k) as [[r|s|]|] eqn:Ek; cbn [vfns front ph outs rank]; try lia.
      apply nth_error_None in Ek. lia.
    + destruct o; cbn [vfns front ph outs rank]; lia.
    + lia.
    + destruct (Nat.ltb_spec (S k) (List.length fs)); cbn [rank]; lia.
Qed.


Lemma expect_run_settled v i s :
  wf v -> expect v (PRun i) = Some (Settled s) ->
  (i < front v /\ nth_error (outs v) i = Some s)
  \/ (i = front v /\ ph v = Releasing s).
Proof.
  destruct v as [fs k p os]. unfold wf, expect; cbn [vfns front ph outs].
  intros [Hlen [Hph [Hthrown Hrel]]].
  nat_cases.
  - unfold settledAt. destruct (nth_error os i) eqn:E; [|intros; discriminate].
    intros Hs. inversion Hs; subst. left; auto.
  - destruct p; try (intros; discriminate).
    intros Hs. inversion Hs; subst. right; auto.
  - destruct p; intros; discriminate.
  - intros; discriminate.
Qed.

Lemma serial_view v : wf v -> serialFrom 0 (log (concr v)).
Proof.
  destruct v as [fs k p os]. unfold wf; cbn [vfns front ph outs concr log].
  intros [Hlen _]. apply serialFrom_logFrom. cbn [Nat.add]. rewrite Hlen.
  destruct p as [| |[s|]| |s|s]; cbn [phaseLog]; eauto.
Qed.

Lemma in_phaseLog_finished k p i s :
  In (Finished i s) (phaseLog k p) ->
  i = k /\ (p = Adopting (Some s) \/ p = Forwarding s \/ p = Releasing s).
Proof.
  destruct p as [| |[s'|]| |s'|s']; cbn [phaseLog In]; intros H;
    repeat (destruct H as [H|H]); try discriminate; try contradiction;
    inversion H; subst; auto.
Qed.

Lemma finished_view v i s :
  wf v -> In (Finished i s) (log (concr v)) ->
  (i < front v /\ nth_error (outs v) i = Some s)
  \/ (i = front v /\ (ph v = Adopting (Some s) \/ ph v = Forwarding s \/ ph v = Releasing s)).
Proof.
  destruct v as [fs k p os]. unfold wf; cbn [vfns front ph outs concr log].
  intros [Hlen _] H. apply in_app_or in H. destruct H as [H|H].
  - apply in_finished_logFrom in H. destruct H as [_ H]. rewrite Nat.sub_0_r in H.
    left. split; [|assumption]. rewrite <- Hlen. apply nth_error_Some. congruence.
  - right. apply in_phaseLog_finished in H. exact H.
Qed.

Lemma finished_unique_view v i s s' :
  wf v -> In (Finished i s) (log (concr v)) -> In (Finished i s') (log (concr v)) -> s = s'.
Proof.
  intros W H1 H2. apply (@finished_view _ _ _ W) in H1. apply (@finished_view _ _ _ W) in H2.
  destruct H1 as [[L1 E1]|[L1 E1]], H2 as [[L2 E2]|[L2 E2]]; try lia.
  - congruence.
  - destruct E1 as [E1|[E1|E1]], E2 as [E2|[E2|E2]]; congruence.
Qed.

Lemma handle_view v i s :
  wf v -> expect v (PRun i) = Some (Settled s) ->
  In (Finished i s) (log (concr v))
  /\ (expect v (PTask i) = Some (Settled s)
      \/ exists r, nth_error (vfns v) i = Some (Throws r) /\ s = Rejected r).
Proof.
  intros W H. destruct (@expect_run_settled _ _ _ W H) as [[L E]|[L E]];
  destruct v as [fs k p os]; unfold wf in W; cbn [vfns front ph outs concr log] in *;
  destruct W as [Hlen [Hph [Hthrown Hrel]]].
  - split.
    + apply in_or_app; left. apply in_finished_logFrom. rewrite Nat.sub_0_r. split; [lia|assumption].
    + unfold expect; cbn [vfns front ph outs]. destruct (Nat.ltb_spec i k); [|lia].
      unfold throwing. destruct (nth_error fs i) as [[r| |]|] eqn:Ei.
      * right. exists r. split; [reflexivity|].
        pose proof (Hthrown i r Ei L). congruence.
      * left. unfold settledAt. rewrite E. reflexivity.
      * left. unfold settledAt. rewrite E. reflexivity.
      * left. unfold settledAt. rewrite E. reflexivity.
  - subst i p. split.
    + apply in_or_app; right. cbn [phaseLog In]. auto.
    + unfold expect; cbn [vfns front ph outs]. rewrite Nat.ltb_irrefl, Nat.eqb_refl.
      unfold throwing. destruct (nth_error fs k) as [[r| |]|] eqn:Ei; auto.
      right. exists r. split; [reflexivity|]. apply (Hrel s r); reflexivity.
Qed.

Lemma microtasks_fns c : forall v, vfns (fold_left astep (repeat Microtask c) v) = vfns v.
Proof.
  induction c as [|c IH]; intros v; [reflexivity|].
  cbn [repeat fold_left]. rewrite IH. unfold astep.
  destruct (ph v) as [| |[s|]| |s|s]; try reflexivity.
  destruct (nth_error (vfns v) (front v)) as [[r|s|]|]; reflexivity.
Qed.

Lemma rest_view v :
  wf v -> phaseJobs (front v) (ph v) = [] ->
  (forall i, i < List.length (vfns v) ->
     In (Started i) (log (concr v)) \/ exists j, j < i /\ executing (log (concr v)) j)
  /\ (forall i s, In (Finished i s) (log (concr v)) ->
        expect v (PRun i) = Some (Settled s)).
Proof.
  intros W HJ. split.
  - intros i Hi. destruct v as [fs k p os]. unfold wf in W.
    cbn [vfns front ph outs concr log] in *. destruct W as [Hlen [Hph _]].
    destruct (Nat.lt_ge_cases i k) as [L|L].
    { left. apply in_or_app; left. apply in_started_logFrom. lia. }
    destruct p as [| |[s|]| |[x|x]|s]; try discriminate; try lia.
    destruct (Nat.eq_dec i k) as [->|N].
    { left. apply in_or_app; right. cbn [phaseLog In]. auto. }
    right. exists k. split; [lia|]. split.
    + apply in_or_app; right. cbn [phaseLog In]. auto.
    + intros s H. apply in_app_or in H. destruct H as [H|H].
      * apply in_finished_logFrom in H. destruct H as [_ H].
        assert (k - 0 < List.length os) by (apply nth_error_Some; congruence). lia.
      * cbn [phaseLog In] in H. destruct H as [H|H]; [discriminate|contradiction].
  - intros i s H. destruct (@finished_view _ _ _ W H) as [[L E]|[L E]].
    + destruct v as [fs k p os]. cbn [vfns front ph outs] in *.
      unfold expect; cbn [vfns front ph outs]. destruct (Nat.ltb_spec i k); [|lia].
      unfold settledAt. rewrite E. reflexivity.
    + exfalso. destruct E as [E|[E|E]]; rewrite E in HJ;
        try discriminate. destruct s; discriminate.
Qed.

Lemma in_phaseLog_started k p i :
  In (Started i) (phaseLog k p) -> i = k.
Proof.
  destruct p as [| |[s'|]| |s'|s']; cbn [phaseLog In]; intros H;
    repeat (destruct H as [H|H]); try discriminate; try contradiction;
    inversion H; reflexivity.
Qed.

Lemma started_view v i :
  wf v -> In (Started i) (log (concr v)) ->
  i < front v \/ (i = front v /\ In (Started i) (phaseLog (front v) (ph v))).
Proof.
  destruct v as [fs k p os]. unfold wf; cbn [vfns front ph outs concr log].
  intros [Hlen _] H. apply in_app_or in H. destruct H as [H|H].
  - apply in_started_logFrom in H. left. lia.
  - right. pose proof (@in_phaseLog_started k p i H) as ->. split; [reflexivity|exact H].
Qed.

Lemma finished_before_view v i :
  wf v -> i < front v -> exists s, In (Finished i s) (log (concr v)).
Proof.
  destruct v as [fs k p os]. unfold wf; cbn [vfns front ph outs concr log].
  intros [Hlen _] Hi.
  destruct (nth_error os i) as [s|] eqn:E.
  - exists s. apply in_or_app; left. apply in_finished_logFrom.
    rewrite Nat.sub_0_r. split; [lia|assumption].
  - apply nth_error_None in E. lia.
Qed.

Lemma order_view v i j :
  wf v -> i < j -> In (Started j) (log (concr v)) ->
  exists s, In (Finished i s) (log (concr v)).
Proof.
  intros W Hij H. apply finished_before_view; [assumption|].
  destruct (@started_view v j W H) as [L|[L _]]; lia.
Qed.

Lemma executing_view v i :
  wf v -> executing (log (concr v)) i -> i = front v.
Proof.
  intros W [Hs Hn]. destruct (@started_view v i W Hs) as [L|[L _]]; [|assumption].
  destruct (@finished_before_view v i W L) as [s Hf]. exfalso. exact (Hn s Hf).
Qed.

Lemma finished_view_iff v i s :
  wf v ->
  (In (Finished i s) (log (concr v))
   <-> (i < front v /\ nth_error (outs v) i = Some s)
       \/ (i = front v
           /\ (ph v = Adopting (Some s) \/ ph v = Forwarding s
               \/ ph v = Releasing s))).
Proof.
  intros W. split; [apply finished_view; assumption|].
  destruct v as [fs k p os]. cbn [vfns front ph outs concr log].
  intros [[L E]|[-> E]]; apply in_or_app.
  - left. apply in_finished_logFrom. rewrite Nat.sub_0_r. split; [lia|assumption].
  - right. destruct E as [->|[->| ->]]; cbn [phaseLog In]; auto.
Qed.

Lemma astep_fns v a i b :
  nth_error (vfns v) i = Some b -> nth_error (vfns (astep v a)) i = Some b.
Proof.
  intros H. destruct a as [b'|j s|]; unfold astep.
  - cbn [vfns]. rewrite nth_error_app1; [assumption|].
    apply nth_error_Some. congruence.
  - destruct (j =? front v); [|assumption].
    destruct (ph v) as [| |[s'|]| |s'|s']; assumption.
  - destruct (ph v) as [| |[s'|]| |s'|s']; try assumption.
    destruct (nth_error (vfns v) (front v)) as [[r|s'|]|]; assumption.
Qed.

(** *** The tasks of a schedule and their outcomes *)

Lemma submitted_app a b : submitted (a ++ b) = submitted a ++ submitted b.
Proof.
  induction a as [|[x|i s|] a IH]; cbn [app submitted];
    [reflexivity|rewrite IH; reflexivity|exact IH|exact IH].
Qed.

Lemma submitted_microtasks m : submitted (repeat Microtask m) = [].
Proof. induction m as [|m IH]; [reflexivity|exact IH]. Qed.

Lemma astep_vfns v a : vfns (astep v a) = vfns v ++ submitted [a].
Proof.
  destruct a as [b|j s|]; unfold astep; cbn [submitted].
  - reflexivity.
  - rewrite app_nil_r. destruct (j =? front v); [|reflexivity].
    destruct (ph v) as [| |[s'|]| |s'|s']; reflexivity.
  - rewrite app_nil_r. destruct (ph v) as [| |[s'|]| |s'|s']; try reflexivity.
    destruct (nth_error (vfns v) (front v)) as [[r|s'|]|]; reflexivity.
Qed.

Lemma fold_vfns acts : forall v,
  vfns (fold_left astep acts v) = vfns v ++ submitted acts.
Proof.
  induction acts as [|a acts IH]; intros v; cbn [fold_left].
  - cbn [submitted]. rewrite app_nil_r. reflexivity.
  - rewrite IH, astep_vfns, <- app_assoc.
    change (a :: acts) with ([a] ++ acts). rewrite submitted_app. reflexivity.
Qed.

Lemma awaited_astep v a : awaited v -> awaited (astep v a).
Proof.
  unfold awaited. destruct v as [fs k p os].
  destruct a as [b|j s|]; unfold astep; cbn [vfns front ph outs].
  - destruct p as [| |[s'|]| |s'|s']; cbn [ph vfns front]; auto;
      intros H; rewrite nth_error_app1; auto; apply nth_error_Some; congruence.
  - destruct (j =? k); [|auto].
    destruct p as [| |[s'|]| |s'|s']; cbn [ph vfns front]; auto.
  - destruct p as [| |[s'|]| |s'|s']; cbn [ph vfns front]; auto.
    + destruct (nth_error fs k) as [[r|s'|]|] eqn:E; cbn [ph vfns front]; auto.
    + intros _. destruct (S k <? List.length fs); exact I.
Qed.

Lemma awaited_fold acts : forall v, awaited v -> awaited (fold_left astep acts v).
Proof.
  induction acts as [|a acts IH]; intros v H; [exact H|].
  cbn [fold_left]. apply IH, awaited_astep, H.
Qed.

Lemma executing_awaited v j :
  wf v -> awaited v -> executing (log (concr v)) j ->
  nth_error (vfns v) j = Some ReturnsPending.
Proof.
  intros W A X. pose proof (@executing_view v j W X) as ->.
  destruct X as [Hs Hn].
  destruct (@started_view v (front v) W Hs) as [L|[_ Hp]]; [lia|].
  unfold awaited in A. destruct v as [fs k p os].
  cbn [vfns front ph outs concr log] in *.
  destruct p as [| |[s|]| |s|s]; cbn [phaseLog In] in Hp; try tauto;
    try exact A;
    exfalso; apply (Hn s); apply in_or_app; right; cbn [phaseLog In]; auto.
Qed.

Lemma astep_outcome v a i s :
  wf v -> awaited v -> In (Finished i s) (log (concr (astep v a))) ->
  In (Finished i s) (log (concr v)) \/ outcomeOf [a] (vfns v) i s.
Proof.
  intros W A H.
  apply (finished_view_iff _ _ (wf_astep a W)) in H.
  rewrite (finished_view_iff _ _ W).
  destruct v as [fs k p os]. unfold wf in W. cbn [vfns front ph outs] in W.
  destruct W as [Hlen _]. unfold awaited in A. unfold outcomeOf.
  destruct a as [b|j s'|]; unfold astep in H; cbn [vfns front ph outs] in *.
  - destruct H as [H|[-> H]]; [left; left; exact H|].
    left; right. split; [reflexivity|].
    destruct p; destruct H as [H|[H|H]]; try discriminate H; auto.
  - destruct (Nat.eqb_spec j k) as [->|N]; [|left; exact H].
    destruct p as [| |[s0|]| |s0|s0]; cbn [vfns front ph outs] in H;
      try (left; exact H).
    + destruct H as [H|[-> H]]; [left; left; exact H|].
      destruct H as [H|[H|H]]; try discriminate H.
      injection H as <-. right. rewrite A. left. reflexivity.
    + destruct H as [H|[-> H]]; [left; left; exact H|].
      destruct H as [H|[H|H]]; try discriminate H.
      injection H as <-. right. rewrite A. left. reflexivity.
  - destruct p as [| |[s0|]| |s0|s0]; cbn [vfns front ph outs] in H;
      try (left; exact H).
    + destruct (nth_error fs k) as [[r|s0|]|] eqn:Ek; cbn [vfns front ph outs] in H.
      * destruct H as [H|[-> H]]; [left; left; exact H|].
        destruct H as [H|[H|H]]; try discriminate H.
        injection H as <-. right. rewrite Ek. reflexivity.
      * destruct H as [H|[-> H]]; [left; left; exact H|].
        destruct H as [H|[H|H]]; try discriminate H.
        injection H as <-. right. rewrite Ek. reflexivity.
      * destruct H as [H|[-> H]]; [left; left; exact H|].
        destruct H as [H|[H|H]]; discriminate H.
      * left. exact H.
    + destruct H as [H|[-> H]]; [left; left; exact H|].
      destruct H as [H|[H|H]]; try discriminate H.
      injection H as <-. left. right. auto.
    + destruct H as [H|[-> H]]; [left; left; exact H|].
      destruct H as [H|[H|H]]; discriminate H.
    + destruct H as [H|[-> H]]; [left; left; exact H|].
      destruct H as [H|[H|H]]; try discriminate H.
      injection H as <-. left. right. auto.
    + destruct H as [[L E]|[-> H]].
      * destruct (Nat.eq_dec i k) as [->|N].
        -- rewrite nth_error_app2 in E by lia.
           rewrite Hlen, Nat.sub_diag in E. injection E as <-.
           left. right. auto.
        -- rewrite nth_error_app1 in E by lia. left. left. split; [lia|exact E].
      * exfalso. destruct (S k <? List.length fs);
          destruct H as [H|[H|H]]; discriminate H.
Qed.

Lemma outcomeOf_mono acts a fs fs' i s :
  (forall b, nth_error fs i = Some b -> nth_error fs' i = Some b) ->
  outcomeOf acts fs i s -> outcomeOf (acts ++ [a]) fs' i s.
Proof.
  unfold outcomeOf. intros Hm H.
  destruct (nth_error fs i) as [b|] eqn:E; [|contradiction].
  rewrite (Hm b eq_refl). destruct b; try exact H.
  apply in_or_app. left. exact H.
Qed.

Lemma outcome_view acts :
  forall i s,
    In (Finished i s) (log (concr (fold_left astep acts (mkView [] 0 Idle [])))) ->
    outcomeOf acts (vfns (fold_left astep acts (mkView [] 0 Idle []))) i s.
Proof.
  induction acts as [|a acts IH] using rev_ind; intros i s H.
  - cbn in H. contradiction.
  - rewrite fold_left_app in *. cbn [fold_left] in *.
    set (v := fold_left astep acts (mkView [] 0 Idle [])) in *.
    assert (W : wf v).
    { destruct (@exec_concr acts _ wf_init) as [_ W]. exact W. }
    assert (A : awaited v) by (apply awaited_fold; exact I).
    destruct (@astep_outcome v a i s W A H) as [H'|H'].
    + eapply outcomeOf_mono; [|apply IH; exact H'].
      intros b. apply astep_fns.
    + unfold outcomeOf in *.
      destruct (nth_error (vfns v) i) as [b|] eqn:E; [|contradiction].
      rewrite (@astep_fns v a i b E). destruct b; try exact H'.
      apply in_or_app. right. exact H'.
Qed.

Example rejecting_task_does_not_block :
  log (exec [Enqueue (ReturnsSettled (Rejected (Val 1)));
             Enqueue (Throws (Val 2));
             Enqueue (ReturnsSettled (Fulfilled (Val 3)));
             Microtask; Microtask; Microtask; Microtask; Microtask;
             Microtask; Microtask; Microtask; Microtask; Microtask] init)
  = [Started 0; Finished 0 (Rejected (Val 1));
     Started 1; Finished 1 (Rejected (Val 2));
     Started 2; Finished 2 (Fulfilled (Val 3))].
Proof. vm_compute. reflexivity. Qed.

(** C1. Whatever callers, task bodies and the engine do, in whatever
    order ([acts]): the queue holds the functions of the enqueue calls
    made, in the order of the calls, and the enqueue call number [i]
    returns the promise [handle i].  The tasks are called in that order,
    only those enqueued are called, and a task is only called once the one
    before it has settled ([serialFrom]); so when a task has been called
    every task enqueued before it has settled, and at most one task
    executes at a time.  No promise identity is ever reused.  A task has
    one outcome, which is its own: what its function threw, the state of
    the settled promise it returned, or what its body settled the returned
    promise with; and a handle that is settled is settled with the outcome
    of its own task.  A task that is executing is one whose function
    returned a pending promise, so a task that throws or is rejected
    holds up nothing: once the pending microtasks have run (and they do
    run out), every enqueued task has been called unless an earlier task
    still waits for its pending promise, in particular every task before
    which no function returned a pending promise; and the handle of every
    task that has settled, fulfilled or rejected, is settled with that
    outcome. *)
Theorem C1_serial_queue (acts : list action) :
  let rt := exec acts init in
  fns rt = submitted acts
  /\ serialFrom 0 (log rt)
  /\ (forall i, In (Started i) (log rt) -> i < List.length (submitted acts))
  /\ (forall i j, i < j -> In (Started j) (log rt) ->
        exists s, In (Finished i s) (log rt))
  /\ (forall i j, executing (log rt) i -> executing (log rt) j -> i = j)
  /\ (forall j, executing (log rt) j ->
        nth_error (submitted acts) j = Some ReturnsPending)
  /\ clash rt = false
  /\ (forall b, fst (enqueue b rt) = handle (List.length (submitted acts)))
  /\ (forall i s, heap rt (handle i) = Some (Settled s) ->
        In (Finished i s) (log rt)
        /\ (heap rt (PTask i) = Some (Settled s)
            \/ exists r, nth_error (fns rt) i = Some (Throws r) /\ s = Rejected r))
  /\ (forall i s, In (Finished i s) (log rt) ->
        outcomeOf acts (submitted acts) i s)
  /\ (forall i s s',
        In (Finished i s) (log rt) -> In (Finished i s') (log rt) -> s = s')
  /\ exists m,
       let rt' := exec (repeat Microtask m) rt in
       jobs rt' = []
       /\ fns rt' = submitted acts
       /\ (forall i, i < List.length (submitted acts) ->
             In (Started i) (log rt')
             \/ exists j, j < i /\ executing (log rt') j
                          /\ nth_error (submitted acts) j = Some ReturnsPending)
       /\ (forall i, i < List.length (submitted acts) ->
             (forall j, j < i ->
                nth_error (submitted acts) j <> Some ReturnsPending) ->
             In (Started i) (log rt'))
       /\ (forall i s, In (Finished i s) (log rt') ->
             heap rt' (handle i) = Some (Settled s)).
Proof.
  intros rt. subst rt.
  assert (E : exec acts init = concr (fold_left astep acts (mkView [] 0 Idle []))).
  { rewrite init_concr. destruct (@exec_concr acts _ wf_init) as [E _]. exact E. }
  assert (W : wf (fold_left astep acts (mkView [] 0 Idle []))).
  { destruct (@exec_concr acts _ wf_init) as [_ W]. exact W. }
  assert (A : awaited (fold_left astep acts (mkView [] 0 Idle [])))
    by (apply awaited_fold; exact I).
  pose proof (outcome_view acts) as O.
  pose proof (fold_vfns acts (mkView [] 0 Idle [])) as F. cbn [vfns app] in F.
  rewrite E. set (v := fold_left astep acts (mkView [] 0 Idle [])) in *.
  split; [exact F|].
  split; [apply serial_view; assumption|].
  split.
  { intros i H. rewrite <- F. pose proof (wf_front_le W) as Hle.
    destruct (@started_view v i W H) as [L|[-> Hp]]; [lia|].
    destruct v as [fs k p os]. unfold wf in W. cbn [vfns front ph outs] in *.
    destruct W as [_ [Hph _]].
    destruct p as [| |[s|]| |s|s]; cbn [phaseLog In] in Hp; try tauto; lia. }
  split; [intros i j; apply order_view; assumption|].
  split.
  { intros i j Hi Hj. rewrite (@executing_view v i W Hi).
    symmetry. exact (@executing_view v j W Hj). }
  split.
  { intros j Hj. rewrite <- F. apply executing_awaited; assumption. }
  split; [reflexivity|].
  split; [intros b; cbn [concr fns enqueue fst]; rewrite F; reflexivity|].
  split; [intros i s; apply handle_view; assumption|].
  split; [intros i s H; rewrite <- F; apply O; exact H|].
  split; [intros i s s'; apply finished_unique_view; assumption|].
  destruct (@drain_view (measure v) v (le_n _) W) as [c Hc].
  exists c. cbn zeta. destruct (@exec_concr (repeat Microtask c) _ W) as [E' W'].
  rewrite E'. set (v' := fold_left astep (repeat Microtask c) v) in *.
  assert (A' : awaited v') by (apply awaited_fold; exact A).
  assert (F' : vfns v' = submitted acts)
    by (unfold v'; rewrite microtasks_fns; exact F).
  destruct (@rest_view v' W' Hc) as [Hlive Hsettled].
  split; [exact Hc|]. split; [exact F'|].
  split.
  { intros i Hi. rewrite <- F' in Hi. destruct (Hlive i Hi) as [H|[j [Hj X]]].
    - left. exact H.
    - right. exists j. split; [exact Hj|]. split; [exact X|].
      rewrite <- F'. apply executing_awaited; assumption. }
  split; [|exact Hsettled].
  intros i Hi Hnone. rewrite <- F' in Hi. destruct (Hlive i Hi) as [H|[j [Hj X]]].
  - exact H.
  - exfalso. apply (Hnone j Hj). rewrite <- F'.
    apply executing_awaited; assumption.
Qed.

(** The statement at a schedule in which a rejected task and a throwing
    task are followed by a third, with the microtasks that run them. *)
Lemma C1_serial_queue_witness :
  let rt := exec [Enqueue (ReturnsSettled (Rejected (Val 1)));
                  Enqueue (Throws (Val 2));
                  Enqueue (ReturnsSettled (Fulfilled (Val 3)));
                  Microtask; Microtask; Microtask; Microtask; Microtask;
                  Microtask; Microtask; Microtask; Microtask; Microtask] init in
  fns rt = [ReturnsSettled (Rejected (Val 1)); Throws (Val 2);
            ReturnsSettled (Fulfilled (Val 3))]
  /\ serialFrom 0 (log rt)
  /\ In (Finished 2 (Fulfilled (Val 3))) (log rt).
Proof.
  intros rt.
  pose proof (C1_serial_queue
                [Enqueue (ReturnsSettled (Rejected (Val 1)));
                 Enqueue (Throws (Val 2));
                 Enqueue (ReturnsSettled (Fulfilled (Val 3)));
                 Microtask; Microtask; Microtask; Microtask; Microtask;
                 Microtask; Microtask; Microtask; Microtask; Microtask]) as H.
  cbv zeta in H. fold rt in H.
  destruct H as [H1 [H2 [_ [_ [_ [_ [_ [_ [H3 _]]]]]]]]].
  split; [exact H1|]. split; [exact H2|].
  apply (H3 2 (Fulfilled (Val 3))). vm_compute. reflexivity.
Defined.

(** *** The tail, a task that never settles, and the first microtask *)

Lemma tail_view v :
  wf v ->
  (exists c, expect v (tailBefore (List.length (vfns v))) = Some c)
  /\ (forall i s, expect v (PTail i) = Some (Settled s) -> s = Fulfilled Undefined).
Proof.
  intros W. pose proof (wf_front_le W) as Hle.
  destruct v as [fs k p os]. cbn [vfns front ph outs] in *. split.
  - unfold expect; cbn [vfns front ph outs].
    destruct (List.length fs) as [|n] eqn:En; cbn [tailBefore]; [eauto|].
    destruct (Nat.ltb_spec n k); [eauto|].
    destruct (Nat.ltb_spec n (S n)); [eauto|lia].
  - intros i s. unfold expect; cbn [vfns front ph outs].
    destruct (Nat.ltb_spec i k); [intros Hx; inversion Hx; reflexivity|].
    destruct (Nat.ltb_spec i (List.length fs)); intros Hx; discriminate Hx.
Qed.

(** X1. The queue's [#tail] never rejects: whatever callers, task
    bodies and the engine do, [#tail] is a promise that exists and is
    pending or fulfilled with [undefined], and so is every promise that
    was the tail before; a task that throws or rejects therefore never
    makes the tail a rejected promise. *)
Theorem tail_never_rejects (acts : list action) :
  let rt := exec acts init in
  (exists c, heap rt (tail rt) = Some c)
  /\ (forall s, heap rt (tail rt) = Some (Settled s) -> s = Fulfilled Undefined)
  /\ (forall i s, heap rt (PTail i) = Some (Settled s) -> s = Fulfilled Undefined).
Proof.
  intros rt. destruct (reachable_view acts) as [v [W E]]. subst rt. rewrite E.
  destruct (tail_view W) as [Ht Hs]. cbn [concr heap tail].
  split; [exact Ht|]. split; [|exact Hs].
  intros s. destruct (List.length (vfns v)) as [|n]; cbn [tailBefore].
  - unfold expect. intros H. inversion H. reflexivity.
  - apply Hs.
Qed.

Lemma astep_finished v a i s :
  wf v -> In (Finished i s) (log (concr (astep v a))) ->
  In (Finished i s) (log (concr v)) \/ sourced [a] (vfns v) i s.
Proof.
  intros W H.
  apply (finished_view_iff _ _ (wf_astep a W)) in H.
  rewrite (finished_view_iff _ _ W).
  destruct v as [fs k p os]. unfold wf in W. cbn [vfns front ph outs] in W.
  destruct W as [Hlen _].
  destruct a as [b|j s'|]; unfold astep in H; cbn [vfns front ph outs] in *.
  - destruct H as [H|[-> H]]; [left; left; exact H|].
    left; right. split; [reflexivity|].
    destruct p; destruct H as [H|[H|H]]; try discriminate H; auto.
  - destruct (Nat.eqb_spec j k) as [->|N]; [|left; exact H].
    destruct p as [| |[s0|]| |s0|s0]; cbn [vfns front ph outs] in H;
      try (left; exact H).
    + destruct H as [H|[-> H]]; [left; left; exact H|].
      destruct H as [H|[H|H]]; try discriminate H.
      injection H as <-. right. left. left. reflexivity.
    + destruct H as [H|[-> H]]; [left; left; exact H|].
      destruct H as [H|[H|H]]; try discriminate H.
      injection H as <-. right. left. left. reflexivity.
  - destruct p as [| |[s0|]| |s0|s0]; cbn [vfns front ph outs] in H;
      try (left; exact H).
    + destruct (nth_error fs k) as [[r|s0|]|] eqn:Ek; cbn [vfns front ph outs] in H.
      * destruct H as [H|[-> H]]; [left; left; exact H|].
        destruct H as [H|[H|H]]; try discriminate H.
        injection H as <-. right. right. left. exists r. auto.
      * destruct H as [H|[-> H]]; [left; left; exact H|].
        destruct H as [H|[H|H]]; try discriminate H.
        injection H as <-. right. right. right. exact Ek.
      * destruct H as [H|[-> H]]; [left; left; exact H|].
        destruct H as [H|[H|H]]; discriminate H.
      * left. exact H.
    + destruct H as [H|[-> H]]; [left; left; exact H|].
      destruct H as [H|[H|H]]; try discriminate H.
      injection H as <-. left. right. auto.
    + destruct H as [H|[-> H]]; [left; left; exact H|].
      destruct H as [H|[H|H]]; discriminate H.
    + destruct H as [H|[-> H]]; [left; left; exact H|].
      destruct H as [H|[H|H]]; try discriminate H.
      injection H as <-. left. right. auto.
    + destruct H as [[L E]|[-> H]].
      * destruct (Nat.eq_dec i k) as [->|N].
        -- rewrite nth_error_app2 in E by lia.
           rewrite Hlen, Nat.sub_diag in E. injection E as <-.
           left. right. auto.
        -- rewrite nth_error_app1 in E by lia. left. left. split; [lia|exact E].
      * exfalso. destruct (S k <? List.length fs);
          destruct H as [H|[H|H]]; discriminate H.
Qed.

Lemma sourced_mono acts a fs fs' i s :
  (forall b, nth_error fs i = Some b -> nth_error fs' i = Some b) ->
  sourced acts fs i s -> sourced (acts ++ [a]) fs' i s.
Proof.
  intros Hm [H|[[r [H E]]|H]].
  - left. apply in_or_app. left. exact H.
  - right. left. exists r. split; [apply Hm; exact H|exact E].
  - right. right. apply Hm. exact H.
Qed.

Lemma provenance_view acts :
  forall i s,
    In (Finished i s) (log (concr (fold_left astep acts (mkView [] 0 Idle [])))) ->
    sourced acts (vfns (fold_left astep acts (mkView [] 0 Idle []))) i s.
Proof.
  induction acts as [|a acts IH] using rev_ind; intros i s H.
  - cbn in H. contradiction.
  - rewrite fold_left_app in *. cbn [fold_left] in *.
    set (v := fold_left astep acts (mkView [] 0 Idle [])) in *.
    assert (W : wf v).
    { destruct (@exec_concr acts _ wf_init) as [_ W]. exact W. }
    destruct (@astep_finished v a i s W H) as [H'|H'].
    + eapply sourced_mono; [|apply IH; exact H'].
      intros b. apply astep_fns.
    + destruct H' as [H'|[[r [H' E]]|H']].
      * left. apply in_or_app. right. exact H'.
      * right. left. exists r. split; [apply astep_fns; exact H'|exact E].
      * right. right. apply astep_fns. exact H'.
Qed.

(** X2. The queue has no timeout: a task whose promise never settles
    stalls it.  When the function of task [i] returned a pending promise
    and its body has not settled that promise, task [i] has no outcome,
    no task enqueued after it has been called, whatever microtasks ran,
    and the handle of every later task is still pending. *)
Theorem stuck_task_stalls (acts : list action) (i : nat) :
  let rt := exec acts init in
  nth_error (fns rt) i = Some ReturnsPending ->
  (forall s, ~ In (Complete i s) acts) ->
  (forall s, ~ In (Finished i s) (log rt))
  /\ (forall j, i < j -> ~ In (Started j) (log rt))
  /\ (forall j, i < j -> j < List.length (fns rt) ->
        exists rs, heap rt (handle j) = Some (Pending rs)).
Proof.
  intros rt Hb Hc. subst rt.
  assert (E : exec acts init = concr (fold_left astep acts (mkView [] 0 Idle []))).
  { rewrite init_concr. destruct (@exec_concr acts _ wf_init) as [E _]. exact E. }
  assert (W : wf (fold_left astep acts (mkView [] 0 Idle []))).
  { destruct (@exec_concr acts _ wf_init) as [_ W]. exact W. }
  rewrite E in *. set (v := fold_left astep acts (mkView [] 0 Idle [])) in *.
  assert (Hn : forall s, ~ In (Finished i s) (log (concr v))).
  { intros s H. destruct (provenance_view acts _ _ H) as [H'|[[r [H' _]]|H']].
    - exact (Hc s H').
    - cbn [concr fns] in Hb. fold v in H'. congruence.
    - cbn [concr fns] in Hb. fold v in H'. congruence. }
  split; [exact Hn|]. split.
  - intros j Hij Hs. destruct (@order_view v i j W Hij Hs) as [s Hf].
    exact (Hn s Hf).
  - intros j Hij Hj.
    assert (Hk : front v <= i).
    { destruct (Nat.le_gt_cases (front v) i) as [L|L]; [exact L|].
      destruct (@finished_before_view v i W L) as [s Hf]. exfalso. exact (Hn s Hf). }
    cbn [concr heap fns] in *. unfold handle, expect.
    destruct (Nat.ltb_spec j (front v)); [lia|].
    destruct (Nat.ltb_spec j (List.length (vfns v))); [|lia].
    destruct (ph v); try (eexists; reflexivity).
    destruct (Nat.eqb_spec j (front v)); [lia|]. eexists; reflexivity.
Qed.

(** X3. [enqueue] never calls the task itself: the calls and
    outcomes recorded so far are the same after it as before.  On a queue
    at rest (no microtask pending, no task executing) the task is called
    by the first microtask after the enqueue call, before any other
    task. *)
Theorem enqueue_is_asynchronous (acts : list action) (b : behaviour) :
  let rt := exec acts init in
  log (snd (enqueue b rt)) = log rt
  /\ (jobs rt = [] -> (forall j, ~ executing (log rt) j) ->
      log (exec [Enqueue b; Microtask] rt)
      = log rt
        ++ Started (List.length (fns rt))
           :: match b with
              | Throws r => [Finished (List.length (fns rt)) (Rejected r)]
              | ReturnsSettled s => [Finished (List.length (fns rt)) s]
              | ReturnsPending => []
              end).
Proof.
  intros rt. destruct (reachable_view acts) as [v [W E]]. subst rt. rewrite E.
  split.
  - change (snd (enqueue b (concr v))) with (step (concr v) (Enqueue b)).
    rewrite refine by assumption.
    destruct v as [fs k p os]. unfold astep. cbn [concr log vfns front ph outs].
    destruct p; reflexivity.
  - intros Hj Hx.
    destruct (@exec_concr [Enqueue b; Microtask] v W) as [E2 _]. rewrite E2.
    destruct v as [fs k p os]. unfold wf in W. cbn [vfns front ph outs] in W.
    destruct W as [Hlen [Hph _]].
    cbn [concr jobs log fns vfns front ph outs] in *.
    assert (p = Idle) as ->.
    { destruct p as [| |[s|]| |[x|x]|s]; try discriminate Hj; [reflexivity|].
      exfalso. apply (Hx k). split.
      - apply in_or_app. right. cbn [phaseLog In]. auto.
      - intros s H. apply in_app_or in H. destruct H as [H|H].
        + apply in_finished_logFrom in H. destruct H as [_ H].
          assert (k - 0 < List.length os) by (apply nth_error_Some; congruence). lia.
        + cbn [phaseLog In] in H. destruct H as [H|[]]. discriminate H. }
    subst k. cbn [fold_left]. unfold astep at 2. cbn [vfns front ph outs].
    unfold astep. cbn [vfns front ph outs].
    rewrite Hph. rewrite nth_error_app2 by lia. rewrite Nat.sub_diag. cbn [nth_error].
    destruct b as [r|s|]; cbn [concr log vfns front ph outs phaseLog];
      rewrite app_nil_r; reflexivity.
Qed.

(** The statement at a schedule in which the first task never settles. *)
Lemma stuck_task_stalls_witness :
  let rt := exec [Enqueue ReturnsPending;
                  Enqueue (ReturnsSettled (Fulfilled (Val 1)));
                  Microtask; Microtask; Microtask; Microtask; Microtask] init in
  (forall s, ~ In (Finished 0 s) (log rt))
  /\ (forall j, 0 < j -> ~ In (Started j) (log rt)).
Proof.
  intros rt.
  assert (H1 : nth_error (fns rt) 0 = Some ReturnsPending)
    by (vm_compute; reflexivity).
  assert (H2 : forall s,
             ~ In (Complete 0 s)
                 [Enqueue ReturnsPending;
                  Enqueue (ReturnsSettled (Fulfilled (Val 1)));
                  Microtask; Microtask; Microtask; Microtask; Microtask]).
  { intros s H. cbn [In] in H.
    repeat (destruct H as [H|H]; [discriminate H|]). exact H. }
  destruct (@stuck_task_stalls _ 0 H1 H2) as [Ha [Hb _]].
  split; assumption.
Defined.

End SerialQueueFacts.

(* ----------------------------------------------------------------- *)
(** ** The client *)

Module ClientFacts.
Import Client.

Section ClientFacts.

Variable Env : Type.
Variable pf : Platform Env.
Variable options : Options.

#[local] Abbreviation emits P m := (@Client.emits Env P _ m) (only parsing).
#[local] Abbreviation bounded f c m := (@Client.bounded Env f c _ m) (only parsing).


(** *** The monad *)

Lemma bind_ok A B (m : M Env A) (k : A -> M Env B) w b w'' :
  bind m k w = (Ok b, w'') ->
  exists a w', m w = (Ok a, w') /\ k a w' = (Ok b, w'').
Proof.
  unfold bind. destruct (m w) as [[a|e] w'] eqn:E; cbn; intros H.
  - exists a, w'. split; [reflexivity|assumption].
  - discriminate.
Qed.

Lemma bind_throw A B (m : M Env A) (k : A -> M Env B) w e w'' :
  bind m k w = (Throw e, w'') ->
  m w = (Throw e, w'')
  \/ exists a w', m w = (Ok a, w') /\ k a w' = (Throw e, w'').
Proof.
  unfold bind. destruct (m w) as [[a|e'] w'] eqn:E; cbn; intros H.
  - right. exists a, w'. split; [reflexivity|assumption].
  - left. inversion H; reflexivity.
Qed.

Lemma bind_step A B (m : M Env A) (k : A -> M Env B) w a w' :
  m w = (Ok a, w') -> bind m k w = k a w'.
Proof. intros H. unfold bind. rewrite H. reflexivity. Qed.

Lemma bind_fail A B (m : M Env A) (k : A -> M Env B) w e w' :
  m w = (Throw e, w') -> bind m k w = (Throw e, w').
Proof. intros H. unfold bind. rewrite H. reflexivity. Qed.

Lemma orDefault_returns A (m : M Env A) d w :
  exists a w', orDefault m d w = (Ok a, w').
Proof.
  unfold orDefault. destruct (m w) as [[a|e] w']; eauto.
Qed.

Lemma call_spec A (o : op A) w :
  call pf o w
  = (fst (perform pf o (env w)),
     mkWorld (snd (perform pf o (env w))) (trace w ++ [Call o])
             (context w) (pageHandle w)).
Proof. unfold call. destruct (perform pf o (env w)); reflexivity. Qed.

Lemma query_spec A (o : op A) d w :
  orDefault (call pf o) d w
  = (Ok (orElse (fst (perform pf o (env w))) d),
     mkWorld (snd (perform pf o (env w))) (trace w ++ [Call o])
             (context w) (pageHandle w)).
Proof.
  unfold orDefault. rewrite call_spec.
  destruct (fst (perform pf o (env w))); reflexivity.
Qed.

(** *** Captcha classification *)

Lemma skipn_nth A (d : A) (l : list A) idx :
  idx < List.length l -> skipn idx l = nth idx l d :: skipn (S idx) l.
Proof.
  revert idx. induction l as [|a l IH]; intros [|idx] H; simpl in *; try lia.
  - reflexivity.
  - apply IH. lia.
Qed.

Lemma captchaLoop_frames I boxes :
  showsFrames pf I boxes ->
  forall remaining idx w,
    I (env w) -> idx + remaining = List.length boxes ->
    exists w',
      captchaLoop pf (Css captchaSelectors) remaining idx w
      = (Ok (existsb (@largeFrame) (skipn idx boxes)), w')
      /\ I (env w').
Proof.
  intros HF. induction remaining as [|r IH]; intros idx w HI Hlen.
  - exists w. cbn [captchaLoop]. rewrite skipn_all2 by lia. split; [reflexivity|assumption].
  - cbn [captchaLoop].
    destruct (HF _ HI) as [_ Hbox]. destruct (Hbox idx ltac:(lia)) as [Hr HI'].
    rewrite (@skipn_nth _ (Ok None) boxes idx) by lia. cbn [existsb].
    erewrite bind_step; [|apply query_spec].
    rewrite Hr. 
    set (w1 := mkWorld _ _ _ _).
    destruct (IH (S idx) w1 HI' ltac:(lia)) as [w' [E HI'']].
    destruct (nth idx boxes (Ok None)) as [[b|]|x]; cbn [orElse largeFrame].
    + destruct (large b); cbn [orb].
      * exists w1. split; [reflexivity|exact HI'].
      * exists w'. split; assumption.
    + exists w'. split; assumption.
    + exists w'. split; assumption.
Qed.

Lemma large_spec b :
  large b = true <-> (100 # 1 <= width b)%Q /\ (100 # 1 <= height b)%Q.
Proof.
  unfold large. rewrite andb_true_iff. rewrite !Qle_bool_iff. tauto.
Qed.

(** C3. On a page that shows the captcha frames [boxes] (what the
    bounding-box query answers for each frame the count query found), the
    detector classifies the page as having an active challenge exactly
    when one of the frames has a bounding box at least 100 wide and at
    least 100 high; a box of 80 by 80 is not large, one of 150 by 150
    is. *)
Theorem C3_captcha_threshold (I : Env -> Prop) (boxes : list (Res (option Box))) (w : World Env) :
  showsFrames pf I boxes -> I (env w) ->
  (exists w', captchaChallengeVisible pf w = (Ok (existsb (@largeFrame) boxes), w'))
  /\ (existsb (@largeFrame) boxes = true <->
      exists box, In (Ok (Some box)) boxes
                  /\ (100 # 1 <= width box)%Q /\ (100 # 1 <= height box)%Q)
  /\ (forall x y, large (mkBox x y (80 # 1) (80 # 1)) = false)
  /\ (forall x y, large (mkBox x y (150 # 1) (150 # 1)) = true).
Proof.
  intros HF HI. split; [|split; [|split]].
  - unfold captchaChallengeVisible.
    destruct (HF _ HI) as [[Hc HI'] _].
    erewrite bind_step; [|apply query_spec]. rewrite Hc. cbn [orElse].
    set (w1 := mkWorld _ _ _ _).
    destruct (@captchaLoop_frames I boxes HF (List.length boxes) 0 w1 HI' eq_refl) as [w' [E _]].
    exists w'. exact E.
  - rewrite existsb_exists. split.
    + intros [r [Hin Hl]]. destruct r as [[b|]|x]; try discriminate.
      exists b. split; [assumption|]. apply large_spec. exact Hl.
    + intros [b [Hin Hl]]. exists (Ok (Some b)). split; [assumption|].
      apply large_spec. exact Hl.
  - intros x y. reflexivity.
  - intros x y. reflexivity.
Qed.


(** *** The calls a piece of code makes *)

Lemma made_refl (w : World Env) : made w w [].
Proof. unfold made. rewrite app_nil_r. auto. Qed.

Lemma made_trans (w w1 w2 : World Env) e1 e2 :
  made w w1 e1 -> made w1 w2 e2 -> made w w2 (e1 ++ e2).
Proof.
  unfold made. intros [T1 [C1 P1]] [T2 [C2 P2]].
  rewrite T2, T1, app_assoc. repeat split; congruence.
Qed.

Lemma emits_ret P A (a : A) : emits P (ret a).
Proof.
  intros w r w' H. inversion H; subst. exists []. split; [apply made_refl|reflexivity].
Qed.

Lemma emits_throw P A (e : exn) : emits P (@throw Env A e).
Proof.
  intros w r w' H. inversion H; subst. exists []. split; [apply made_refl|reflexivity].
Qed.

Lemma emits_lift P A (x : Res A) : emits P (@lift Env A x).
Proof.
  intros w r w' H. inversion H; subst. exists []. split; [apply made_refl|reflexivity].
Qed.

Lemma emits_url P : emits P (url_ pf).
Proof.
  intros w r w' H. inversion H; subst. exists []. split; [apply made_refl|reflexivity].
Qed.

Lemma emits_now P : emits P (now_ pf).
Proof.
  intros w r w' H. inversion H; subst. exists []. split; [apply made_refl|reflexivity].
Qed.

Lemma emits_getPage P : emits P (@getPage Env).
Proof.
  intros w r w' H. inversion H; subst. exists []. split; [apply made_refl|reflexivity].
Qed.

Lemma emits_call P A (o : op A) : P (Call o) = true -> emits P (call pf o).
Proof.
  intros HP w r w' H. rewrite call_spec in H. inversion H; subst.
  exists [Call o]. split; [unfold made; cbn; auto|]. cbn. rewrite HP. reflexivity.
Qed.

Lemma emits_bind P A B (m : M Env A) (k : A -> M Env B) :
  emits P m -> (forall a, emits P (k a)) -> emits P (bind m k).
Proof.
  intros Hm Hk w r w' H. unfold bind in H.
  destruct (m w) as [[a|e] w1] eqn:E.
  - destruct (Hm _ _ _ E) as [e1 [M1 F1]].
    destruct (Hk a _ _ _ H) as [e2 [M2 F2]].
    exists (e1 ++ e2). split; [eapply made_trans; eassumption|].
    rewrite forallb_app, F1, F2. reflexivity.
  - inversion H; subst. destruct (Hm _ _ _ E) as [e1 [M1 F1]]. eauto.
Qed.

Lemma emits_orDefault P A (m : M Env A) d : emits P m -> emits P (orDefault m d).
Proof.
  intros Hm w r w' H. unfold orDefault in H.
  destruct (m w) as [[a|e] w1] eqn:E; inversion H; subst; eapply Hm; eassumption.
Qed.

Lemma emits_tryCatch P A (m : M Env A) h :
  emits P m -> (forall e, emits P (h e)) -> emits P (tryCatch m h).
Proof.
  intros Hm Hh w r w' H. unfold tryCatch in H.
  destruct (m w) as [[a|e] w1] eqn:E.
  - inversion H; subst. eapply Hm; eassumption.
  - destruct (Hm _ _ _ E) as [e1 [M1 F1]].
    destruct (Hh e _ _ _ H) as [e2 [M2 F2]].
    exists (e1 ++ e2). split; [eapply made_trans; eassumption|].
    rewrite forallb_app, F1, F2. reflexivity.
Qed.

Lemma emits_both P A B (m1 : M Env A) (m2 : M Env B) :
  emits P m1 -> emits P m2 -> emits P (both pf m1 m2).
Proof.
  intros H1 H2 w r w' H. unfold both in H.
  destruct (m1 w) as [r1 w1] eqn:E1. destruct (m2 w1) as [r2 w2] eqn:E2.
  inversion H; subst.
  destruct (H1 _ _ _ E1) as [e1 [M1 F1]]. destruct (H2 _ _ _ E2) as [e2 [M2 F2]].
  exists (e1 ++ e2). split; [eapply made_trans; eassumption|].
  rewrite forallb_app, F1, F2. reflexivity.
Qed.

Lemma emits_if P A (b : bool) (m1 m2 : M Env A) :
  emits P m1 -> emits P m2 -> emits P (if b then m1 else m2).
Proof. destruct b; auto. Qed.

Lemma emits_weaken (P Q : event -> bool) A (m : M Env A) :
  (forall e, P e = true -> Q e = true) -> emits P m -> emits Q m.
Proof.
  intros HPQ Hm w r w' H. destruct (Hm _ _ _ H) as [evs [M1 F1]].
  exists evs. split; [assumption|]. rewrite forallb_forall in *. auto.
Qed.

Ltac emits_step :=
  first
    [ apply emits_ret | apply emits_throw | apply emits_lift | apply emits_url
    | apply emits_now | apply emits_getPage
    | apply emits_call; reflexivity
    | apply emits_orDefault | apply emits_tryCatch | apply emits_both
    | apply emits_bind | apply emits_if
    | progress intros ].

Ltac emits_auto := repeat emits_step.

Lemma captchaLoop_queries l remaining :
  forall idx, emits isQuery (captchaLoop pf l remaining idx).
Proof.
  induction remaining as [|r IH]; intros idx; cbn [captchaLoop]; [apply emits_ret|].
  apply emits_bind; [emits_auto|]. intros [b|]; [|apply IH].
  apply emits_if; [apply emits_ret|apply IH].
Qed.

Lemma captcha_queries : emits isQuery (captchaChallengeVisible pf).
Proof.
  unfold captchaChallengeVisible. apply emits_bind; [emits_auto|].
  intros n. apply captchaLoop_queries.
Qed.

Lemma hasOtp_queries : emits isQuery (hasOtp pf).
Proof. unfold hasOtp. emits_auto. Qed.

Lemma blockSignals_queries : emits isQuery (blockSignals pf).
Proof. unfold blockSignals. emits_auto. Qed.

Lemma query_passive e : isQuery e = true -> passive e = true.
Proof. destruct e as [A o]. destruct o; cbn; congruence. Qed.

Lemma capture_passive label : emits passive (capture pf options label).
Proof.
  unfold capture, captureDebugArtifacts.
  apply emits_bind; [emits_auto|intros now].
  apply emits_bind; [emits_auto|intros _].
  apply emits_bind; [emits_auto|intros url].
  apply emits_bind; [emits_auto|intros [title html]].
  emits_auto.
Qed.

Lemma maybeHandleCaptcha_passive label : emits passive (maybeHandleCaptcha pf options label).
Proof.
  unfold maybeHandleCaptcha. apply emits_bind.
  - eapply emits_weaken; [apply query_passive|apply captcha_queries].
  - intros v. apply emits_if; [apply emits_ret|].
    apply emits_bind; [apply capture_passive|]. emits_auto.
Qed.

Lemma maybeHandleTwoFactor_passive label :
  emits passive (maybeHandleTwoFactor pf options label).
Proof.
  unfold maybeHandleTwoFactor. apply emits_bind.
  - eapply emits_weaken; [apply query_passive|apply hasOtp_queries].
  - intros v. apply emits_if; [apply emits_ret|].
    apply emits_bind; [apply capture_passive|]. emits_auto.
Qed.

Lemma maybeThrowIfBlocked_passive label :
  emits passive (maybeThrowIfBlocked pf options label).
Proof.
  unfold maybeThrowIfBlocked. apply emits_bind.
  - eapply emits_weaken; [apply query_passive|apply blockSignals_queries].
  - intros v. apply emits_if; [apply emits_ret|].
    apply emits_bind; [apply capture_passive|]. emits_auto.
Qed.

Lemma handleChallengesOrBlocks_passive label :
  emits passive (handleChallengesOrBlocks pf options label).
Proof.
  unfold handleChallengesOrBlocks.
  apply emits_bind; [apply maybeHandleCaptcha_passive|intros _].
  apply emits_bind; [apply maybeHandleTwoFactor_passive|intros _].
  apply maybeThrowIfBlocked_passive.
Qed.


(** *** Detection never throws *)

Lemma captchaLoop_returns l remaining :
  forall idx w, exists b w', captchaLoop pf l remaining idx w = (Ok b, w').
Proof.
  induction remaining as [|r IH]; intros idx w; cbn [captchaLoop].
  - exists false, w. reflexivity.
  - erewrite bind_step; [|apply query_spec].
    destruct (orElse _ _) as [b|]; [|apply IH].
    destruct (large b); [|apply IH]. eexists _, _. reflexivity.
Qed.

Lemma captcha_returns w :
  exists b w', captchaChallengeVisible pf w = (Ok b, w').
Proof.
  unfold captchaChallengeVisible. erewrite bind_step; [|apply query_spec].
  apply captchaLoop_returns.
Qed.

Lemma hasOtp_returns w : exists b w', hasOtp pf w = (Ok b, w').
Proof.
  unfold hasOtp. erewrite bind_step; [|apply query_spec].
  destruct (orElse _ _).
  - eexists _, _. reflexivity.
  - rewrite query_spec. eexists _, _. reflexivity.
Qed.

Lemma blockSignals_returns w : exists s w', blockSignals pf w = (Ok s, w').
Proof.
  unfold blockSignals. erewrite bind_step; [|reflexivity].
  erewrite bind_step; [|apply query_spec].
  erewrite bind_step; [|apply query_spec].
  eexists _, _. reflexivity.
Qed.

Lemma failing_query A (o : op A) (d : A) e :
  queriesFail pf -> isQuery (Call o) = true ->
  orElse (fst (perform pf o e)) d = d.
Proof.
  intros HQ Ho. destruct (HQ A o e Ho) as [x Hx]. rewrite Hx. reflexivity.
Qed.

Lemma detection_when_queries_fail w :
  queriesFail pf ->
  fst (captchaChallengeVisible pf w) = Ok false
  /\ fst (hasOtp pf w) = Ok false
  /\ exists s, fst (blockSignals pf w) = Ok s
               /\ blockTitle s = "" /\ cloudfrontBlockText s = false.
Proof.
  intros HQ. split; [|split].
  - unfold captchaChallengeVisible. erewrite bind_step; [|apply query_spec].
    rewrite failing_query by (assumption || reflexivity). reflexivity.
  - unfold hasOtp. erewrite bind_step; [|apply query_spec].
    rewrite failing_query by (assumption || reflexivity).
    rewrite query_spec. cbn [fst env].
    rewrite failing_query by (assumption || reflexivity). reflexivity.
  - unfold blockSignals. erewrite bind_step; [|reflexivity].
    erewrite bind_step; [|apply query_spec].
    erewrite bind_step; [|apply query_spec].
    eexists. split; [reflexivity|]. cbn [blockTitle cloudfrontBlockText env].
    rewrite !failing_query by (assumption || reflexivity). split; reflexivity.
Qed.

Lemma maybeHandleCaptcha_throws label w e w' :
  maybeHandleCaptcha pf options label w = (Throw e, w') ->
  (exists dir, e = captchaStillPresent dir) \/ sinkThrew pf options e.
Proof.
  intros H. unfold maybeHandleCaptcha in H.
  destruct (captcha_returns w) as [b [w1 E]].
  rewrite (@bind_step _ _ _ _ _ _ _ E) in H.
  destruct b; cbn [negb] in H; [|discriminate].
  apply bind_throw in H. destruct H as [H|[dir [w2 [_ H]]]].
  - right. eexists _, _, _. exact H.
  - left. unfold tryCatch in H.
    destruct (call pf _ w2) as [[u|x] w3]; [discriminate|].
    inversion H; subst. exists dir. reflexivity.
Qed.

Lemma maybeHandleTwoFactor_throws label w e w' :
  maybeHandleTwoFactor pf options label w = (Throw e, w') ->
  (exists dir, e = twoFactorStillPresent dir) \/ sinkThrew pf options e.
Proof.
  intros H. unfold maybeHandleTwoFactor in H.
  destruct (hasOtp_returns w) as [b [w1 E]].
  rewrite (@bind_step _ _ _ _ _ _ _ E) in H.
  destruct b; cbn [negb] in H; [|discriminate].
  apply bind_throw in H. destruct H as [H|[dir [w2 [_ H]]]].
  - right. eexists _, _, _. exact H.
  - left. unfold tryCatch in H.
    destruct (call pf _ w2) as [[u|x] w3]; [discriminate|].
    inversion H; subst. exists dir. reflexivity.
Qed.

Lemma maybeThrowIfBlocked_throws label w e w' :
  maybeThrowIfBlocked pf options label w = (Throw e, w') ->
  (exists url title dir, e = blockedError pf url title dir)
  \/ sinkThrew pf options e.
Proof.
  intros H. unfold maybeThrowIfBlocked in H.
  destruct (blockSignals_returns w) as [s [w1 E]].
  rewrite (@bind_step _ _ _ _ _ _ _ E) in H.
  destruct (blocked s); cbn [negb] in H; [|discriminate].
  apply bind_throw in H. destruct H as [H|[dir [w2 [_ H]]]].
  - right. eexists _, _, _. exact H.
  - left. inversion H; subst. eexists _, _, _. reflexivity.
Qed.

Lemma pass_throws label w e w' :
  handleChallengesOrBlocks pf options label w = (Throw e, w') ->
  (exists dir, e = captchaStillPresent dir)
  \/ (exists dir, e = twoFactorStillPresent dir)
  \/ (exists url title dir, e = blockedError pf url title dir)
  \/ sinkThrew pf options e.
Proof.
  intros H. unfold handleChallengesOrBlocks in H.
  apply bind_throw in H. destruct H as [H|[[] [w1 [_ H]]]].
  { destruct (maybeHandleCaptcha_throws _ _ H); auto. }
  apply bind_throw in H. destruct H as [H|[[] [w2 [_ H]]]].
  { destruct (maybeHandleTwoFactor_throws _ _ H); auto. }
  destruct (maybeThrowIfBlocked_throws _ _ H); auto.
Qed.

(** *** A failing query counts as "not present" *)

Lemma forgiving_query A (o : op A) (d : A) w :
  absent o = Some d ->
  orDefault (call (forgiving pf) o) d w = orDefault (call pf o) d w.
Proof.
  intros H. unfold orDefault, call. cbn [perform forgiving]. rewrite H.
  destruct (perform pf o (env w)) as [[a|x] e']; reflexivity.
Qed.

Lemma forgiving_answers A (o : op A) (d : A) e :
  absent o = Some d ->
  perform (forgiving pf) o e
  = (Ok (orElse (fst (perform pf o e)) d), snd (perform pf o e)).
Proof.
  intros H. cbn [perform forgiving]. rewrite H.
  destruct (perform pf o e) as [[a|x] e']; reflexivity.
Qed.

Lemma query_absent A (o : op A) :
  isQuery (Call o) = true -> exists d, absent o = Some d.
Proof. destruct o; cbn; intros H; try discriminate H; eexists; reflexivity. Qed.

Lemma captchaLoop_forgiving l remaining :
  forall idx w,
    captchaLoop (forgiving pf) l remaining idx w = captchaLoop pf l remaining idx w.
Proof.
  induction remaining as [|r IH]; intros idx w; cbn [captchaLoop]; [reflexivity|].
  unfold bind. rewrite forgiving_query by reflexivity.
  destruct (orDefault (call pf (NthBoundingBox l idx)) None w) as [[[b|]|x] w1];
    auto.
  destruct (large b); auto.
Qed.

Lemma detection_forgiving w :
  captchaChallengeVisible pf w = captchaChallengeVisible (forgiving pf) w
  /\ hasOtp pf w = hasOtp (forgiving pf) w
  /\ blockSignals pf w = blockSignals (forgiving pf) w.
Proof.
  split; [|split].
  - unfold captchaChallengeVisible, bind. rewrite forgiving_query by reflexivity.
    destruct (orDefault (call pf (Count (Css captchaSelectors))) 0 w) as [[n|x] w1];
      [|reflexivity].
    symmetry. apply captchaLoop_forgiving.
  - unfold hasOtp, bind. rewrite forgiving_query by reflexivity.
    destruct (orDefault (call pf (FirstIsVisible (Css otpSelector))) false w)
      as [[[|]|x] w1]; try reflexivity.
    symmetry. apply forgiving_query. reflexivity.
  - unfold blockSignals, bind, url_. cbn [page_url forgiving].
    rewrite forgiving_query by reflexivity.
    destruct (orDefault (call pf PageTitle) "" w) as [[t|x] w1]; [|reflexivity].
    rewrite forgiving_query by reflexivity. reflexivity.
Qed.

(** *** How a challenge pass fails *)

Lemma maybeHandleCaptcha_fails label w e w' :
  maybeHandleCaptcha pf options label w = (Throw e, w') ->
  exists w1,
    captchaChallengeVisible pf w = (Ok true, w1)
    /\ snapshotThen pf options ("captcha-" ++ label) (Some NoLargeCaptchaFrame)
         captchaStillPresent w1 e.
Proof.
  intros H. unfold maybeHandleCaptcha in H.
  destruct (captcha_returns w) as [b [w1 E]].
  rewrite (@bind_step _ _ _ _ _ _ _ E) in H.
  destruct b; cbn [negb] in H; [|discriminate].
  exists w1. split; [exact E|].
  apply bind_throw in H. destruct H as [H|[dir [w2 [Hc H]]]].
  - left. exists w'. exact H.
  - right. exists dir, w2. split; [exact Hc|].
    unfold tryCatch in H. rewrite call_spec in H.
    destruct (fst (perform pf _ (env w2))) as [u|x] eqn:Ew; [discriminate|].
    inversion H; subst. split; [reflexivity|]. exists x. reflexivity.
Qed.

Lemma maybeHandleTwoFactor_fails label w e w' :
  maybeHandleTwoFactor pf options label w = (Throw e, w') ->
  exists w1,
    hasOtp pf w = (Ok true, w1)
    /\ snapshotThen pf options ("twofactor-" ++ label) (Some NoTwoFactorPrompt)
         twoFactorStillPresent w1 e.
Proof.
  intros H. unfold maybeHandleTwoFactor in H.
  destruct (hasOtp_returns w) as [b [w1 E]].
  rewrite (@bind_step _ _ _ _ _ _ _ E) in H.
  destruct b; cbn [negb] in H; [|discriminate].
  exists w1. split; [exact E|].
  apply bind_throw in H. destruct H as [H|[dir [w2 [Hc H]]]].
  - left. exists w'. exact H.
  - right. exists dir, w2. split; [exact Hc|].
    unfold tryCatch in H. rewrite call_spec in H.
    destruct (fst (perform pf _ (env w2))) as [u|x] eqn:Ew; [discriminate|].
    inversion H; subst. split; [reflexivity|]. exists x. reflexivity.
Qed.

Lemma maybeThrowIfBlocked_fails label w e w' :
  maybeThrowIfBlocked pf options label w = (Throw e, w') ->
  exists s w1,
    blockSignals pf w = (Ok s, w1) /\ blocked s = true
    /\ snapshotThen pf options ("blocked-" ++ label) None
         (blockedError pf (blockUrl s) (blockTitle s)) w1 e.
Proof.
  intros H. unfold maybeThrowIfBlocked in H.
  destruct (blockSignals_returns w) as [s [w1 E]].
  rewrite (@bind_step _ _ _ _ _ _ _ E) in H.
  destruct (blocked s) eqn:Hb; cbn [negb] in H; [|discriminate].
  exists s, w1. split; [exact E|]. split; [exact Hb|].
  apply bind_throw in H. destruct H as [H|[dir [w2 [Hc H]]]].
  - left. exists w'. exact H.
  - right. exists dir, w2. split; [exact Hc|].
    inversion H; subst. split; [reflexivity|exact I].
Qed.

Lemma pass_fails label w e w' :
  handleChallengesOrBlocks pf options label w = (Throw e, w') ->
  (exists w1,
     captchaChallengeVisible pf w = (Ok true, w1)
     /\ snapshotThen pf options ("captcha-" ++ label) (Some NoLargeCaptchaFrame)
          captchaStillPresent w1 e)
  \/ (exists w0 w1,
        maybeHandleCaptcha pf options label w = (Ok tt, w0)
        /\ hasOtp pf w0 = (Ok true, w1)
        /\ snapshotThen pf options ("twofactor-" ++ label) (Some NoTwoFactorPrompt)
             twoFactorStillPresent w1 e)
  \/ (exists w0 w0' s w1,
        maybeHandleCaptcha pf options label w = (Ok tt, w0)
        /\ maybeHandleTwoFactor pf options label w0 = (Ok tt, w0')
        /\ blockSignals pf w0' = (Ok s, w1) /\ blocked s = true
        /\ snapshotThen pf options ("blocked-" ++ label) None
             (blockedError pf (blockUrl s) (blockTitle s)) w1 e).
Proof.
  intros H. unfold handleChallengesOrBlocks in H.
  apply bind_throw in H. destruct H as [H|[[] [w0 [H0 H]]]].
  { left. exact (maybeHandleCaptcha_fails _ _ H). }
  apply bind_throw in H. destruct H as [H|[[] [w0' [H0' H]]]].
  { right. left. destruct (maybeHandleTwoFactor_fails _ _ H) as [w1 [E S]].
    exists w0, w1. auto. }
  right. right. destruct (maybeThrowIfBlocked_fails _ _ H) as [s [w1 [E [Hb S]]]].
  exists w0, w0', s, w1. auto.
Qed.

(** C7, as amended.  The three detections always return a value,
    whatever their queries do, and the value is the one they return on the
    platform on which each failing query answers "not present" (no frame,
    no box, not visible, an empty title) instead; in particular, when
    every query fails, the captcha and two-factor detections say absent,
    the title counts as empty and the block text as not visible.  A
    challenge pass throws only after one of its detections was positive:
    what it throws is then what the snapshot taken before the wait or the
    block error threw, or, the snapshot having returned its location, the
    captcha or two-factor error after a failed wait, or the block
    error. *)
Theorem C7_queries_never_propagate :
  (forall w, exists b w', captchaChallengeVisible pf w = (Ok b, w'))
  /\ (forall w, exists b w', hasOtp pf w = (Ok b, w'))
  /\ (forall w, exists s w', blockSignals pf w = (Ok s, w'))
  /\ (forall (A : Type) (o : op A) (e : Env),
        isQuery (Call o) = true ->
        exists d, absent o = Some d
                  /\ perform (forgiving pf) o e
                     = (Ok (orElse (fst (perform pf o e)) d),
                        snd (perform pf o e)))
  /\ (forall w,
        captchaChallengeVisible pf w = captchaChallengeVisible (forgiving pf) w
        /\ hasOtp pf w = hasOtp (forgiving pf) w
        /\ blockSignals pf w = blockSignals (forgiving pf) w)
  /\ (queriesFail pf -> forall w,
        fst (captchaChallengeVisible pf w) = Ok false
        /\ fst (hasOtp pf w) = Ok false
        /\ exists s, fst (blockSignals pf w) = Ok s
                     /\ blockTitle s = "" /\ cloudfrontBlockText s = false)
  /\ (forall label w e w',
        handleChallengesOrBlocks pf options label w = (Throw e, w') ->
        (exists w1,
           captchaChallengeVisible pf w = (Ok true, w1)
           /\ snapshotThen pf options ("captcha-" ++ label)
                (Some NoLargeCaptchaFrame)
                (fun dir =>
                   Error ("CAPTCHA still present after waiting. Debug artifacts written to: "
                          ++ dir)) w1 e)
        \/ (exists w0 w1,
              maybeHandleCaptcha pf options label w = (Ok tt, w0)
              /\ hasOtp pf w0 = (Ok true, w1)
              /\ snapshotThen pf options ("twofactor-" ++ label)
                   (Some NoTwoFactorPrompt)
                   (fun dir =>
                      Error ("Two-factor / verification step still present after waiting. Debug artifacts written to: "
                             ++ dir)) w1 e)
        \/ (exists w0 w0' s w1,
              maybeHandleCaptcha pf options label w = (Ok tt, w0)
              /\ maybeHandleTwoFactor pf options label w0 = (Ok tt, w0')
              /\ blockSignals pf w0' = (Ok s, w1) /\ blocked s = true
              /\ snapshotThen pf options ("blocked-" ++ label) None
                   (fun dir =>
                      Error ("Yelp Biz appears blocked/unavailable (url="
                             ++ blockUrl s ++ ", title="
                             ++ JSON_stringify pf (blockTitle s)
                             ++ "). Debug artifacts written to: " ++ dir)) w1 e)).
Proof.
  split; [exact captcha_returns|].
  split; [exact hasOtp_returns|].
  split; [exact blockSignals_returns|].
  split.
  { intros A o e Hq. destruct (query_absent o Hq) as [d Hd].
    exists d. split; [exact Hd|]. apply forgiving_answers. exact Hd. }
  split; [exact detection_forgiving|].
  split; [intros HQ w; apply detection_when_queries_fail; assumption|].
  intros label w e w' H. exact (pass_fails _ _ H).
Qed.

(** *** Absent challenges *)

Lemma looks_of_queries evs : forallb isQuery evs = true -> onlyLooks evs.
Proof.
  intros H. apply Forall_forall. intros e He.
  rewrite forallb_forall in H. specialize (H e He).
  destruct e as [A o]. destruct o; cbn in *; try discriminate; repeat split.
Qed.

(** C8. For each kind of challenge, when the detection reports it as
    absent the handler returns at once in the world the detection left:
    the calls made are the detection's queries only, so no snapshot, no
    wait and no error. *)
Theorem C8_absent_is_noop (label : string) (w w' : World Env) :
  (captchaChallengeVisible pf w = (Ok false, w') ->
     maybeHandleCaptcha pf options label w = (Ok tt, w')
     /\ exists evs, made w w' evs /\ onlyLooks evs)
  /\ (hasOtp pf w = (Ok false, w') ->
     maybeHandleTwoFactor pf options label w = (Ok tt, w')
     /\ exists evs, made w w' evs /\ onlyLooks evs)
  /\ (forall s, blockSignals pf w = (Ok s, w') -> blocked s = false ->
     maybeThrowIfBlocked pf options label w = (Ok tt, w')
     /\ exists evs, made w w' evs /\ onlyLooks evs).
Proof.
  split; [|split].
  - intros E. split.
    + unfold maybeHandleCaptcha. rewrite (@bind_step _ _ _ _ _ _ _ E). reflexivity.
    + destruct (captcha_queries w E) as [evs [Hm Hq]].
      exists evs. split; [assumption|apply looks_of_queries; assumption].
  - intros E. split.
    + unfold maybeHandleTwoFactor. rewrite (@bind_step _ _ _ _ _ _ _ E). reflexivity.
    + destruct (hasOtp_queries w E) as [evs [Hm Hq]].
      exists evs. split; [assumption|apply looks_of_queries; assumption].
  - intros s E Hb. split.
    + unfold maybeThrowIfBlocked. rewrite (@bind_step _ _ _ _ _ _ _ E). rewrite Hb. reflexivity.
    + destruct (blockSignals_queries w E) as [evs [Hm Hq]].
      exists evs. split; [assumption|apply looks_of_queries; assumption].
Qed.


(** *** The login form predicate *)

Lemma loginVerify_passive : emits passive (loginVerify pf options).
Proof.
  unfold loginVerify, isEmailPasswordLoginVisible.
  apply emits_bind; [emits_auto|]. intros v. apply emits_if; [|apply emits_ret].
  apply emits_bind; [apply capture_passive|]. emits_auto.
Qed.

(** C9. The login-form predicate makes one call, the visibility query
    of the first email input, and is true exactly when that query answers
    true (a failed query counts as false); the password field is not
    looked at.  When it is false the re-check after the submit passes and
    [ensureAuthenticated] skips the login, whatever else the page shows. *)
Theorem C9_login_form_is_email_only (w : World Env) :
  let q := FirstIsVisible (Css emailSelector) in
  let answer := fst (perform pf q (env w)) in
  (exists w', isEmailPasswordLoginVisible pf w = (Ok (orElse answer false), w')
              /\ made w w' [Call q])
  /\ (orElse answer false = true <-> answer = Ok true)
  /\ (orElse answer false = false ->
      exists w', loginVerify pf options w = (Ok tt, w') /\ made w w' [Call q])
  /\ (forall credentials w0 w1 w2,
        start pf options w0 = (Ok tt, w1) ->
        page w1 = (Ok tt, w2) ->
        goto pf options "https://biz.yelp.com/login" w2 = (Ok tt, w) ->
        orElse answer false = false ->
        exists w', authenticate pf options credentials w0 = (Ok tt, w')
                   /\ made w w' [Call q]).
Proof.
  intros q answer.
  assert (E : isEmailPasswordLoginVisible pf w
              = (Ok (orElse answer false),
                 mkWorld (snd (perform pf q (env w))) (trace w ++ [Call q])
                         (context w) (pageHandle w)))
    by (unfold isEmailPasswordLoginVisible; apply query_spec).
  assert (Hm : made w (mkWorld (snd (perform pf q (env w))) (trace w ++ [Call q])
                               (context w) (pageHandle w)) [Call q])
    by (unfold made; cbn; auto).
  split; [eexists; split; [exact E|exact Hm]|].
  split.
  { destruct answer as [[|]|x]; cbn; split; intros H; congruence. }
  split.
  { intros Hf. eexists. split; [|exact Hm].
    unfold loginVerify. rewrite (@bind_step _ _ _ _ _ _ _ E). rewrite Hf. reflexivity. }
  intros credentials w0 w1 w2 Hs Hp Hg Hf. eexists. split; [|exact Hm].
  unfold authenticate.
  rewrite (@bind_step _ _ _ _ _ _ _ Hs), (@bind_step _ _ _ _ _ _ _ Hp),
          (@bind_step _ _ _ _ _ _ _ Hg), (@bind_step _ _ _ _ _ _ _ E).
  rewrite Hf. reflexivity.
Qed.

(** *** The login attempt acts once *)

Lemma passive_counts evs :
  forallb passive evs = true ->
  filter isFill evs = [] /\ filter isClick evs = [].
Proof.
  induction evs as [|e evs IH]; cbn [forallb filter]; [auto|].
  rewrite andb_true_iff. intros [He Hr]. destruct (IH Hr) as [I1 I2].
  unfold passive in He. rewrite !andb_true_iff, !negb_true_iff in He.
  destruct He as [[Hf Hc] _]. rewrite Hf, Hc. auto.
Qed.

Lemma bounded_of_passive A (m : M Env A) : emits passive m -> bounded 0 0 m.
Proof.
  intros Hm w r w' H. destruct (Hm _ _ _ H) as [evs [M1 F1]].
  destruct (passive_counts _ F1) as [E1 E2].
  exists evs. rewrite E1, E2. cbn. auto.
Qed.

Lemma bounded_bind f1 c1 f2 c2 f c A B (m : M Env A) (k : A -> M Env B) :
  bounded f1 c1 m -> (forall a, bounded f2 c2 (k a)) ->
  f1 + f2 <= f -> c1 + c2 <= c -> bounded f c (bind m k).
Proof.
  intros Hm Hk Hf Hc w r w' H. unfold bind in H.
  destruct (m w) as [[a|e] w1] eqn:E.
  - destruct (Hm _ _ _ E) as [e1 [M1 [F1 C1]]].
    destruct (Hk a _ _ _ H) as [e2 [M2 [F2 C2]]].
    exists (e1 ++ e2). split; [eapply made_trans; eassumption|].
    rewrite !filter_app, !length_app. lia.
  - inversion H; subst. destruct (Hm _ _ _ E) as [e1 [M1 [F1 C1]]].
    exists e1. split; [assumption|lia].
Qed.

Lemma bounded_tryCatch f1 c1 f2 c2 f c A (m : M Env A) h :
  bounded f1 c1 m -> (forall e, bounded f2 c2 (h e)) ->
  f1 + f2 <= f -> c1 + c2 <= c -> bounded f c (tryCatch m h).
Proof.
  intros Hm Hh Hf Hc w r w' H. unfold tryCatch in H.
  destruct (m w) as [[a|e] w1] eqn:E.
  - inversion H; subst. destruct (Hm _ _ _ E) as [e1 [M1 [F1 C1]]].
    exists e1. split; [assumption|lia].
  - destruct (Hm _ _ _ E) as [e1 [M1 [F1 C1]]].
    destruct (Hh e _ _ _ H) as [e2 [M2 [F2 C2]]].
    exists (e1 ++ e2). split; [eapply made_trans; eassumption|].
    rewrite !filter_app, !length_app. lia.
Qed.

Lemma bounded_weaken f c f' c' A (m : M Env A) :
  bounded f c m -> f <= f' -> c <= c' -> bounded f' c' m.
Proof.
  intros Hm Hf Hc w r w' H. destruct (Hm _ _ _ H) as [evs [M1 [F1 C1]]].
  exists evs. split; [assumption|lia].
Qed.

Lemma bounded_fill l t : bounded 1 0 (call pf (FirstFill l t)).
Proof.
  intros w r w' H. rewrite call_spec in H. inversion H; subst.
  exists [Call (FirstFill l t)]. split; [unfold made; cbn; auto|cbn; lia].
Qed.

Lemma bounded_click l : bounded 0 1 (call pf (FirstClick l)).
Proof.
  intros w r w' H. rewrite call_spec in H. inversion H; subst.
  exists [Call (FirstClick l)]. split; [unfold made; cbn; auto|cbn; lia].
Qed.

Lemma loginSubmit_bounded credentials :
  bounded 2 1 (loginSubmit pf options credentials).
Proof.
  unfold loginSubmit.
  apply (@bounded_bind 0 0 2 1);
    [apply bounded_of_passive, handleChallengesOrBlocks_passive|intros _|lia|lia].
  apply (@bounded_bind 0 0 2 1);
    [apply bounded_of_passive; emits_auto|intros hasEmail|lia|lia].
  apply (@bounded_bind 0 0 2 1);
    [apply bounded_of_passive; emits_auto|intros hasPassword|lia|lia].
  destruct (negb hasEmail || negb hasPassword).
  { apply (@bounded_weaken 0 0); [|lia|lia]. apply bounded_of_passive.
    apply emits_bind; [apply capture_passive|]. emits_auto. }
  apply (@bounded_bind 1 0 1 1); [apply bounded_fill|intros _|lia|lia].
  apply (@bounded_bind 1 0 0 1); [apply bounded_fill|intros _|lia|lia].
  apply (@bounded_bind 0 1 0 0); [|intros _|lia|lia].
  - apply (@bounded_tryCatch 0 1 0 0); [| |lia|lia].
    + apply (@bounded_bind 0 0 0 1);
        [apply bounded_of_passive; emits_auto|intros byRole|lia|lia].
      destruct byRole; apply bounded_click.
    + intros e. apply bounded_of_passive.
      apply emits_bind; [apply capture_passive|]. emits_auto.
  - apply (@bounded_bind 0 0 0 0);
      [apply bounded_of_passive; emits_auto|intros _|lia|lia].
    apply bounded_of_passive, handleChallengesOrBlocks_passive.
Qed.

Lemma login_bounded credentials : bounded 2 1 (login pf options credentials).
Proof.
  unfold login.
  apply (@bounded_bind 2 1 0 0); [apply loginSubmit_bounded|intros _|lia|lia].
  apply bounded_of_passive, loginVerify_passive.
Qed.

(** C6, as amended.  When the submit and the challenge pass after it
    went through and the login form is still visible, the login takes a
    snapshot and fails: with the error "Login did not succeed (login form
    still visible)" whose message ends with the location the snapshot
    returned, or, when the snapshot fails, with what the snapshot threw.
    From the submit on it neither fills nor clicks again; and in a login
    attempt, however it ends, each field is filled at most once (two
    fills) and the submit is clicked at most once. *)
Theorem C6_login_still_visible (credentials : Credentials) (w w1 w2 : World Env) :
  loginSubmit pf options credentials w = (Ok tt, w1) ->
  isEmailPasswordLoginVisible pf w1 = (Ok true, w2) ->
  (exists e w3,
     login pf options credentials w = (Throw e, w3)
     /\ ((exists dir,
            capture pf options "biz-login-still-visible" w2 = (Ok dir, w3)
            /\ e = Error ("Login did not succeed (login form still visible). Debug artifacts written to: "
                          ++ dir))
         \/ capture pf options "biz-login-still-visible" w2 = (Throw e, w3))
     /\ exists evs, made w1 w3 evs /\ forallb passive evs = true)
  /\ (forall r w3,
        login pf options credentials w = (r, w3) ->
        exists evs, made w w3 evs
                    /\ List.length (filter isFill evs) <= 2
                    /\ List.length (filter isClick evs) <= 1).
Proof.
  intros Hs Hv.
  assert (Hl : login pf options credentials w
               = bind (capture pf options "biz-login-still-visible")
                      (fun dir => throw (loginDidNotSucceed dir)) w2).
  { unfold login. rewrite (@bind_step _ _ _ _ _ _ _ Hs).
    unfold loginVerify. rewrite (@bind_step _ _ _ _ _ _ _ Hv). reflexivity. }
  split.
  - assert (Hq : made w1 w2 [Call (FirstIsVisible (Css emailSelector))]).
    { unfold isEmailPasswordLoginVisible in Hv. rewrite query_spec in Hv.
      injection Hv as _ <-. unfold made. cbn [trace context pageHandle]. auto. }
    destruct (capture pf options "biz-login-still-visible" w2) as [[dir|e] w3] eqn:Ec.
    + exists (loginDidNotSucceed dir), w3. rewrite Hl.
      split; [erewrite bind_step; [reflexivity|exact Ec]|].
      split; [left; exists dir; split; reflexivity|].
      destruct (@capture_passive "biz-login-still-visible" w2 _ _ Ec) as [e2 [M2 P2]].
      eexists. split; [eapply made_trans; eassumption|].
      rewrite forallb_app, P2. reflexivity.
    + exists e, w3. rewrite Hl.
      split; [erewrite bind_fail; [reflexivity|exact Ec]|].
      split; [right; reflexivity|].
      destruct (@capture_passive "biz-login-still-visible" w2 _ _ Ec) as [e2 [M2 P2]].
      eexists. split; [eapply made_trans; eassumption|].
      rewrite forallb_app, P2. reflexivity.
  - intros r w3 H. exact (@login_bounded credentials w r w3 H).
Qed.

(** *** The landing check *)

(** X29. The landing check of [ensureAuthenticated] refuses the
    marketing host.  When [ensureAuthenticated] returns, the URL of the
    page parses and its host is not business.yelp.com.  When, after the
    login step and the navigation to the home surface, the host is
    business.yelp.com, it takes a snapshot and throws the "Expected to
    land on biz.yelp.com" error whose message ends with the snapshot's
    location, or what the snapshot threw; and when the URL of the page
    does not parse it throws what [new URL] threw. *)
Theorem marketing_host_is_refused (credentials : option Credentials) (w : World Env) :
  (forall w',
     ensureAuthenticated pf options credentials w = (Ok tt, w') ->
     exists h, URL_host pf (page_url pf (env w')) = Ok h
               /\ h <> "business.yelp.com")
  /\ (forall w1 w2,
        authenticate pf options credentials w = (Ok tt, w1) ->
        goto pf options "https://biz.yelp.com/" w1 = (Ok tt, w2) ->
        (URL_host pf (page_url pf (env w2)) = Ok "business.yelp.com" ->
         exists e w3,
           ensureAuthenticated pf options credentials w = (Throw e, w3)
           /\ ((exists dir,
                  capture pf options "biz-auth-redirected-to-marketing" w2 = (Ok dir, w3)
                  /\ e = Error ("Expected to land on biz.yelp.com after auth, but got redirected to business.yelp.com. This usually means you are not authenticated or the account cannot access the biz portal. Debug artifacts written to: "
                                ++ dir))
               \/ capture pf options "biz-auth-redirected-to-marketing" w2 = (Throw e, w3)))
        /\ (forall x,
              URL_host pf (page_url pf (env w2)) = Throw x ->
              ensureAuthenticated pf options credentials w = (Throw x, w2))).
Proof.
  split.
  - intros w' H. unfold ensureAuthenticated in H.
    apply bind_ok in H. destruct H as [[] [w1 [_ H]]].
    unfold verifyLanding in H.
    apply bind_ok in H. destruct H as [[] [w2 [_ H]]].
    apply bind_ok in H. destruct H as [u [w3 [Hu H]]].
    unfold url_ in Hu. injection Hu as Hu1 Hu2. subst u w3.
    apply bind_ok in H. destruct H as [h [w3 [Hh H]]].
    unfold lift in Hh. injection Hh as Hh1 Hh2. subst w3.
    destruct (String.eqb_spec h "business.yelp.com") as [->|Hne].
    + apply bind_ok in H. destruct H as [dir [w3 [_ H]]]. discriminate.
    + unfold ret in H. injection H as H. subst w'.
      exists h. split; assumption.
  - intros w1 w2 Ha Hg.
    assert (Hl : ensureAuthenticated pf options credentials w
                 = bind (lift (URL_host pf (page_url pf (env w2))))
                        (fun host =>
                           if String.eqb host "business.yelp.com" then
                             bind (capture pf options "biz-auth-redirected-to-marketing")
                                  (fun dir => throw (redirectedToMarketing dir))
                           else ret tt) w2).
    { unfold ensureAuthenticated. rewrite (@bind_step _ _ _ _ _ _ _ Ha).
      unfold verifyLanding. rewrite (@bind_step _ _ _ _ _ _ _ Hg).
      erewrite bind_step; [|reflexivity]. reflexivity. }
    split.
    + intros Hh. rewrite Hl.
      erewrite bind_step; [|unfold lift; rewrite Hh; reflexivity].
      cbn [String.eqb Ascii.eqb Bool.eqb].
      destruct (capture pf options "biz-auth-redirected-to-marketing" w2)
        as [[dir|e] w3] eqn:Ec.
      * exists (redirectedToMarketing dir), w3.
        split; [erewrite bind_step; [reflexivity|exact Ec]|].
        left. exists dir. split; reflexivity.
      * exists e, w3. split; [erewrite bind_fail; [reflexivity|exact Ec]|].
        right. reflexivity.
    + intros x Hh. rewrite Hl.
      erewrite bind_fail; [reflexivity|unfold lift; rewrite Hh; reflexivity].
Qed.

(** *** Navigation keeps the page handle *)

Lemma maybeDismissOverlays_calls :
  emits (fun _ => true) (maybeDismissOverlays pf).
Proof.
  unfold maybeDismissOverlays. cbn [fold_right]. emits_auto.
Qed.

Lemma goto_keeps_page u (w w' : World Env) :
  goto pf options u w = (Ok tt, w') -> pageHandle w' = true.
Proof.
  unfold goto. intros H.
  apply bind_ok in H. destruct H as [[] [w1 [Hp H]]].
  unfold page, bind, getPage in Hp. destruct (pageHandle w) eqn:E; [|discriminate].
  injection Hp as <-.
  assert (Hm : emits (fun _ => true)
                 (bind (call pf (PageGoto u))
                    (fun _ => bind (maybeDismissOverlays pf)
                       (fun _ => handleChallengesOrBlocks pf options "navigation")))).
  { apply emits_bind; [emits_auto|intros _].
    apply emits_bind; [apply maybeDismissOverlays_calls|intros _].
    eapply emits_weaken; [|apply handleChallengesOrBlocks_passive]. reflexivity. }
  destruct (Hm _ _ _ H) as [evs [[_ [_ Hpg]] _]]. congruence.
Qed.

(** *** The session fields *)

Lemma call_bind A B (o : op A) (k : A -> M Env B) w :
  bind (call pf o) k w
  = match fst (perform pf o (env w)) with
    | Ok a =>
        k a (mkWorld (snd (perform pf o (env w))) (trace w ++ [Call o])
                     (context w) (pageHandle w))
    | Throw e =>
        (Throw e,
         mkWorld (snd (perform pf o (env w))) (trace w ++ [Call o])
                 (context w) (pageHandle w))
    end.
Proof.
  unfold bind. rewrite call_spec.
  destruct (fst (perform pf o (env w))); reflexivity.
Qed.

Lemma start_started (w : World Env) :
  context w = true -> start pf options w = (Ok tt, w).
Proof. intros H. unfold start, bind, getContext. rewrite H. reflexivity. Qed.

Lemma page_ok (w : World Env) : pageHandle w = true -> page w = (Ok tt, w).
Proof. intros H. unfold page, bind, getPage. rewrite H. reflexivity. Qed.

Lemma page_throws (w : World Env) :
  pageHandle w = false -> page w = (Throw notStarted, w).
Proof. intros H. unfold page, bind, getPage. rewrite H. reflexivity. Qed.

Lemma goto_not_started u (w : World Env) :
  pageHandle w = false -> goto pf options u w = (Throw notStarted, w).
Proof.
  intros H. unfold goto. erewrite bind_fail; [reflexivity|].
  apply page_throws. exact H.
Qed.

(** What [start] does on a client without a context: the launch calls
    one after the other, as far as they succeed. *)
Lemma start_fresh (w : World Env) r w' :
  context w = false -> start pf options w = (r, w') ->
  exists evs,
    trace w' = trace w ++ evs
    /\ beginning evs (launchCalls options)
    /\ forallb passive evs = true
    /\ match r with
       | Ok _ => evs = launchCalls options
                 /\ context w' = true /\ pageHandle w' = true
       | Throw _ =>
           pageHandle w' = pageHandle w
           /\ (context w' = false \/ context w' = true /\ 3 <= List.length evs)
       end.
Proof.
  intros Hc H. unfold start in H. unfold bind at 1 in H. unfold getContext in H.
  rewrite Hc in H. unfold launchCalls.
  rewrite call_bind in H.
  destruct (fst (perform pf (FsMkdir (userDataDir options)) (env w))).
  2:{ injection H as <- <-. cbn [trace context pageHandle].
      eexists [_]. split; [reflexivity|]. split; [eexists; reflexivity|].
      split; [reflexivity|]. auto. }
  rewrite call_bind in H. cbn [env trace context pageHandle] in H.
  match type of H with context [perform pf ?o ?e] =>
    destruct (fst (perform pf o e)) end.
  2:{ injection H as <- <-. cbn [trace context pageHandle].
      eexists [_; _]. split; [rewrite <- app_assoc; reflexivity|].
      split; [eexists; reflexivity|]. split; [reflexivity|]. auto. }
  unfold bind at 1 in H. unfold setContext in H. cbn [env trace context pageHandle] in H.
  rewrite call_bind in H. cbn [env trace context pageHandle] in H.
  match type of H with context [perform pf (SetDefaultTimeout ?t) ?e] =>
    destruct (fst (perform pf (SetDefaultTimeout t) e)) end.
  2:{ injection H as <- <-. cbn [trace context pageHandle].
      eexists [_; _; _]. split; [repeat rewrite <- app_assoc; reflexivity|].
      split; [eexists; reflexivity|]. split; [reflexivity|].
      split; [reflexivity|]. right. split; [reflexivity|]. cbn. lia. }
  rewrite call_bind in H. cbn [env trace context pageHandle] in H.
  match type of H with context [perform pf (SetDefaultNavigationTimeout ?t) ?e] =>
    destruct (fst (perform pf (SetDefaultNavigationTimeout t) e)) end.
  2:{ injection H as <- <-. cbn [trace context pageHandle].
      eexists [_; _; _; _]. split; [repeat rewrite <- app_assoc; reflexivity|].
      split; [eexists; reflexivity|]. split; [reflexivity|].
      split; [reflexivity|]. right. split; [reflexivity|]. cbn. lia. }
  rewrite call_bind in H. cbn [env trace context pageHandle] in H.
  match type of H with context [perform pf FirstPageOrNewPage ?e] =>
    destruct (fst (perform pf FirstPageOrNewPage e)) end.
  2:{ injection H as <- <-. cbn [trace context pageHandle].
      eexists [_; _; _; _; _]. split; [repeat rewrite <- app_assoc; reflexivity|].
      split; [exists []; reflexivity|]. split; [reflexivity|].
      split; [reflexivity|]. right. split; [reflexivity|]. cbn. lia. }
  unfold setPage in H. injection H as <- <-. cbn [trace context pageHandle].
  eexists. split; [repeat rewrite <- app_assoc; reflexivity|].
  split; [exists []; reflexivity|]. split; [reflexivity|]. auto.
Qed.

(** X4. [start] launches the browser at most once: on a client that
    has a context it returns at once without a call; after a start that
    returned, a second start does nothing; and a start that returned on a
    client without a context made the five launch calls, in their order,
    and left a page that [page()] hands out. *)
Theorem start_launches_once (w : World Env) :
  (context w = true -> start pf options w = (Ok tt, w))
  /\ (forall w1, start pf options w = (Ok tt, w1) ->
        context w1 = true /\ start pf options w1 = (Ok tt, w1))
  /\ (forall w1, context w = false -> start pf options w = (Ok tt, w1) ->
        page w1 = (Ok tt, w1)
        /\ trace w1 = trace w ++ launchCalls options).
Proof.
  split; [apply start_started|]. split.
  - intros w1 H. destruct (context w) eqn:Hc.
    + rewrite (start_started w Hc) in H. injection H as <-.
      split; [assumption|apply start_started; assumption].
    + destruct (start_fresh w Hc H) as [evs [_ [_ [_ [_ [Hc1 _]]]]]].
      split; [assumption|apply start_started; assumption].
  - intros w1 Hc H.
    destruct (start_fresh w Hc H) as [evs [Ht [_ [_ [-> [_ Hp]]]]]].
    split; [apply page_ok; assumption|assumption].
Qed.

Lemma stop_spec (w : World Env) :
  stop pf w
  = if context w then
      match fst (perform pf ContextClose (env w)) with
      | Ok _ =>
          (Ok tt,
           mkWorld (snd (perform pf ContextClose (env w)))
                   (trace w ++ [Call ContextClose]) false false)
      | Throw e =>
          (Throw e,
           mkWorld (snd (perform pf ContextClose (env w)))
                   (trace w ++ [Call ContextClose]) true (pageHandle w))
      end
    else (Ok tt, mkWorld (env w) (trace w) false false).
Proof.
  unfold stop. unfold bind at 1. unfold getContext.
  destruct (context w) eqn:Hc.
  - unfold bind at 1. rewrite call_spec. rewrite Hc.
    destruct (fst (perform pf ContextClose (env w))); reflexivity.
  - reflexivity.
Qed.

(** X5. A [stop] that returns clears the session: [page()] and [goto]
    then throw the not-started error without a call to the browser.  A
    [stop] that throws is one whose [close()] threw, and it clears
    nothing: the context and the page stay set.  On a client without a
    context, [stop] returns without a call. *)
Theorem stop_clears_or_keeps (w : World Env) :
  (forall w', stop pf w = (Ok tt, w') ->
     context w' = false /\ pageHandle w' = false
     /\ page w' = (Throw notStarted, w')
     /\ forall u, goto pf options u w' = (Throw notStarted, w'))
  /\ (forall e w', stop pf w = (Throw e, w') ->
        context w = true
        /\ fst (perform pf ContextClose (env w)) = Throw e
        /\ context w' = true /\ pageHandle w' = pageHandle w)
  /\ (context w = false ->
      stop pf w = (Ok tt, mkWorld (env w) (trace w) false false)).
Proof.
  rewrite stop_spec. split; [|split].
  - intros w' H.
    assert (Hf : context w' = false /\ pageHandle w' = false).
    { destruct (context w); [|injection H as <-; auto].
      destruct (fst (perform pf ContextClose (env w)));
        [injection H as <-; auto|discriminate]. }
    destruct Hf as [Hc Hp]. split; [assumption|]. split; [assumption|].
    split; [apply page_throws; assumption|].
    intros u. apply goto_not_started. assumption.
  - intros e w' H. destruct (context w) eqn:Hc; [|discriminate].
    destruct (fst (perform pf ContextClose (env w))) eqn:E; [discriminate|].
    injection H as <- <-. auto.
  - intros ->. reflexivity.
Qed.

Lemma goto_calls u : emits (fun _ => true) (goto pf options u).
Proof.
  unfold goto, page.
  apply emits_bind; [emits_auto|intros _].
  apply emits_bind; [emits_auto|intros _].
  apply emits_bind; [apply maybeDismissOverlays_calls|intros _].
  eapply emits_weaken; [|apply handleChallengesOrBlocks_passive]. reflexivity.
Qed.

Lemma login_calls c : emits (fun _ => true) (login pf options c).
Proof.
  intros w r w' H. destruct (@login_bounded c w r w' H) as [evs [Hm _]].
  exists evs. split; [assumption|]. apply forallb_forall. reflexivity.
Qed.

Lemma capture_calls label : emits (fun _ => true) (capture pf options label).
Proof. eapply emits_weaken; [|apply capture_passive]. reflexivity. Qed.

Lemma verifyLanding_calls : emits (fun _ => true) (verifyLanding pf options).
Proof.
  unfold verifyLanding.
  apply emits_bind; [apply goto_calls|intros _].
  apply emits_bind; [emits_auto|intros url].
  apply emits_bind; [emits_auto|intros host].
  apply emits_if; [|emits_auto].
  apply emits_bind; [apply capture_calls|]. emits_auto.
Qed.

(** What [ensureAuthenticated] does after its [start]. *)
Lemma afterStart_calls c :
  emits (fun _ => true)
    (bind (bind page
             (fun _ => bind (goto pf options "https://biz.yelp.com/login")
                (fun _ => bind (isEmailPasswordLoginVisible pf)
                   (fun isLoginFormVisible =>
                      if isLoginFormVisible then
                        match c with
                        | None =>
                            bind (capture pf options
                                    "biz-login-visible-but-missing-credentials")
                                 (fun dir => throw (missingCredentials dir))
                        | Some c => login pf options c
                        end
                      else ret tt))))
          (fun _ => verifyLanding pf options)).
Proof.
  apply emits_bind; [|intros _; apply verifyLanding_calls].
  unfold page.
  apply emits_bind; [emits_auto|intros _].
  apply emits_bind; [apply goto_calls|intros _].
  apply emits_bind; [unfold isEmailPasswordLoginVisible; emits_auto|intros v].
  apply emits_if; [|emits_auto].
  destruct c as [c|]; [apply login_calls|].
  apply emits_bind; [apply capture_calls|]. emits_auto.
Qed.

Lemma ensureAuthenticated_split c (w : World Env) :
  ensureAuthenticated pf options c w
  = match start pf options w with
    | (Ok _, w1) =>
        bind (bind page
                (fun _ => bind (goto pf options "https://biz.yelp.com/login")
                   (fun _ => bind (isEmailPasswordLoginVisible pf)
                      (fun isLoginFormVisible =>
                         if isLoginFormVisible then
                           match c with
                           | None =>
                               bind (capture pf options
                                       "biz-login-visible-but-missing-credentials")
                                    (fun dir => throw (missingCredentials dir))
                           | Some c => login pf options c
                           end
                         else ret tt))))
             (fun _ => verifyLanding pf options) w1
    | (Throw e, w1) => (Throw e, w1)
    end.
Proof.
  unfold ensureAuthenticated, authenticate. unfold bind at 1 2.
  destruct (start pf options w) as [[[]|e] w1]; reflexivity.
Qed.

Lemma start_paged (w : World Env) r w' :
  start pf options w = (r, w') -> paged w -> paged w'.
Proof.
  intros H Hi. destruct (context w) eqn:Hc.
  - rewrite (start_started w Hc) in H. injection H as <- <-. exact Hi.
  - destruct (start_fresh w Hc H) as [evs [_ [_ [_ Hr]]]].
    destruct r as [[]|e].
    + destruct Hr as [_ [Hc1 _]]. intros _. exact Hc1.
    + destruct Hr as [Hp _]. intros Hp'. rewrite Hp in Hp'.
      specialize (Hi Hp'). congruence.
Qed.

Lemma invoke_paged (m : method) (w : World Env) :
  paged w -> paged (snd (invoke pf options m w)).
Proof.
  intros Hi. destruct m as [| |u|c]; cbn [invoke].
  - destruct (start pf options w) as [r w'] eqn:E. exact (@start_paged w _ _ E Hi).
  - rewrite stop_spec. destruct (context w) eqn:Hc.
    + destruct (fst (perform pf ContextClose (env w))); cbn [snd].
      * intros H. discriminate H.
      * intros H. reflexivity.
    + intros H. discriminate H.
  - destruct (goto pf options u w) as [r w'] eqn:E.
    destruct (@goto_calls u w r w' E) as [evs [[_ [Hc Hp]] _]].
    cbn [snd]. unfold paged. rewrite Hc, Hp. exact Hi.
  - rewrite ensureAuthenticated_split.
    destruct (start pf options w) as [[[]|e] w1] eqn:E.
    + pose proof (@start_paged w _ _ E Hi) as Hi1.
      match goal with |- paged (snd (?m w1)) =>
        destruct (m w1) as [r w'] eqn:E2 end.
      destruct (@afterStart_calls c w1 r w' E2) as [evs [[_ [Hc Hp]] _]].
      cbn [snd]. unfold paged. rewrite Hc, Hp. exact Hi1.
    + exact (@start_paged w _ _ E Hi).
Qed.

(** X6. Whatever methods a caller invokes on a new client, in
    whatever order and whether or not they fail, the client only has a
    page while it has a context: [page()] never hands out the page of a
    session that [stop] cleared. *)
Theorem page_implies_context (ms : list method) (e : Env) :
  pageHandle (session pf options ms (mkWorld e [] false false)) = true ->
  context (session pf options ms (mkWorld e [] false false)) = true.
Proof.
  assert (H : forall w, paged w -> paged (session pf options ms w)).
  { induction ms as [|m ms IH]; intros w Hi; [exact Hi|].
    cbn [session fold_left]. apply IH. apply invoke_paged. exact Hi. }
  apply H. intros Hp. discriminate Hp.
Qed.

(** X7. When [start] fails after the browser was launched (setting a
    timeout or opening the page threw), the client keeps the context
    without a page.  From then on [start] returns at once without a
    call, while [page()], [goto] and [ensureAuthenticated] throw the
    not-started error without a call: the client stays unusable until
    [stop] is called. *)
Theorem half_started_client (w w' : World Env) (e : exn) :
  context w = false -> pageHandle w = false ->
  start pf options w = (Throw e, w') -> context w' = true ->
  pageHandle w' = false
  /\ start pf options w' = (Ok tt, w')
  /\ page w' = (Throw notStarted, w')
  /\ (forall u, goto pf options u w' = (Throw notStarted, w'))
  /\ (forall c, ensureAuthenticated pf options c w' = (Throw notStarted, w')).
Proof.
  intros Hc Hp H Hc'.
  destruct (start_fresh w Hc H) as [evs [_ [_ [_ [Hp' _]]]]].
  rewrite Hp in Hp'.
  split; [assumption|]. split; [apply start_started; assumption|].
  split; [apply page_throws; assumption|].
  split; [intros u; apply goto_not_started; assumption|].
  intros c. rewrite ensureAuthenticated_split.
  rewrite (start_started w' Hc').
  erewrite bind_fail; [reflexivity|].
  erewrite bind_fail; [reflexivity|]. apply page_throws. assumption.
Qed.

(** *** What the client does to the page *)

#[local] Abbreviation follows Ls m := (@Client.follows Env Ls _ m) (only parsing).

Lemma filter_active_passive evs :
  forallb passive evs = true -> filter active evs = [].
Proof.
  induction evs as [|e evs IH]; cbn [forallb filter]; [reflexivity|].
  rewrite andb_true_iff. intros [He Hr]. unfold active at 1. rewrite He.
  cbn [negb]. apply IH. exact Hr.
Qed.

Lemma beginning_refl l : beginning l l.
Proof. exists []. rewrite app_nil_r. reflexivity. Qed.

Lemma beginning_nil l : beginning [] l.
Proof. exists l. reflexivity. Qed.

Lemma beginning_app l1 l2 l : beginning l2 l -> beginning (l1 ++ l2) (l1 ++ l).
Proof. intros [rest ->]. exists rest. rewrite app_assoc. reflexivity. Qed.

Lemma beginning_app_r l1 l l2 : beginning l1 l -> beginning l1 (l ++ l2).
Proof. intros [rest ->]. exists (rest ++ l2). rewrite app_assoc. reflexivity. Qed.

Lemma in_seqs l1 l2 Ls1 Ls2 :
  In l1 Ls1 -> In l2 Ls2 -> In (l1 ++ l2) (seqs Ls1 Ls2).
Proof.
  intros H1 H2. unfold seqs. apply in_flat_map. exists l1. split; [assumption|].
  apply in_map. assumption.
Qed.

Lemma follows_passive A (m : M Env A) : emits passive m -> follows [[]] m.
Proof.
  intros Hm w r w' H. destruct (Hm _ _ _ H) as [evs [[Ht _] Hp]].
  exists evs, []. split; [assumption|]. split; [left; reflexivity|].
  rewrite (filter_active_passive _ Hp). destruct r; [reflexivity|apply beginning_nil].
Qed.

Lemma follows_bind Ls1 Ls2 A B (m : M Env A) (k : A -> M Env B) :
  follows Ls1 m -> (forall a, follows Ls2 (k a)) -> Ls2 <> [] ->
  follows (seqs Ls1 Ls2) (bind m k).
Proof.
  intros Hm Hk Hne w r w' H. unfold bind in H.
  destruct (m w) as [[a|e] w1] eqn:E.
  - destruct (Hm _ _ _ E) as [e1 [L1 [T1 [I1 F1]]]].
    destruct (Hk a _ _ _ H) as [e2 [L2 [T2 [I2 F2]]]].
    exists (e1 ++ e2), (L1 ++ L2).
    split; [rewrite T2, T1, app_assoc; reflexivity|].
    split; [apply in_seqs; assumption|].
    rewrite filter_app, F1. destruct r; [rewrite F2; reflexivity|].
    apply beginning_app. exact F2.
  - injection H as <- <-. destruct (Hm _ _ _ E) as [e1 [L1 [T1 [I1 F1]]]].
    destruct Ls2 as [|L2 Ls2]; [congruence|].
    exists e1, (L1 ++ L2). split; [assumption|].
    split; [apply in_seqs; [assumption|left; reflexivity]|].
    apply beginning_app_r. exact F1.
Qed.

Lemma follows_weaken Ls Ls' A (m : M Env A) :
  incl Ls Ls' -> follows Ls m -> follows Ls' m.
Proof.
  intros Hi Hm w r w' H. destruct (Hm _ _ _ H) as [evs [L [T [I F]]]].
  exists evs, L. split; [assumption|]. split; [apply Hi; assumption|assumption].
Qed.

Lemma follows_call A (o : op A) :
  active (Call o) = true -> follows [[Call o]] (call pf o).
Proof.
  intros Ha w r w' H. rewrite call_spec in H. injection H as <- <-.
  exists [Call o], [Call o]. split; [reflexivity|]. split; [left; reflexivity|].
  cbn [filter]. rewrite Ha.
  destruct (fst (perform pf o (env w))); [reflexivity|apply beginning_refl].
Qed.

Lemma follows_orDefault_call A (o : op A) d :
  active (Call o) = true -> follows [[Call o]] (orDefault (call pf o) d).
Proof.
  intros Ha w r w' H. rewrite query_spec in H. injection H as <- <-.
  exists [Call o], [Call o]. split; [reflexivity|]. split; [left; reflexivity|].
  cbn [filter]. rewrite Ha. reflexivity.
Qed.

Lemma follows_if Ls A (b : bool) (m1 m2 : M Env A) :
  follows Ls m1 -> follows Ls m2 -> follows Ls (if b then m1 else m2).
Proof. destruct b; auto. Qed.

Lemma aborts_bind_throw A B (m : M Env A) (f : A -> exn) :
  aborts (bind m (fun a => @throw Env B (f a))).
Proof.
  intros w. unfold bind, throw. destruct (m w) as [[a|e] w1]; eauto.
Qed.

Lemma follows_abort Ls A (m : M Env A) :
  emits passive m -> aborts m -> Ls <> [] -> follows Ls m.
Proof.
  intros Hm Ha Hne w r w' H. destruct (Ha w) as [e [w1 E]].
  rewrite E in H. injection H as <- <-.
  destruct (Hm _ _ _ E) as [evs [[Ht _] Hp]].
  destruct Ls as [|L Ls]; [congruence|].
  exists evs, L. split; [assumption|]. split; [left; reflexivity|].
  rewrite (filter_active_passive _ Hp). apply beginning_nil.
Qed.

Lemma follows_tryCatch_abort Ls A (m : M Env A) h :
  follows Ls m -> (forall e, emits passive (h e)) -> (forall e, aborts (h e)) ->
  follows Ls (tryCatch m h).
Proof.
  intros Hm Hp Ha w r w' H. unfold tryCatch in H.
  destruct (m w) as [[a|e] w1] eqn:E.
  - injection H as <- <-. exact (Hm _ _ _ E).
  - destruct (Ha e w1) as [e' [w2 E2]]. rewrite E2 in H. injection H as <- <-.
    destruct (Hm _ _ _ E) as [e1 [L [T1 [I1 F1]]]].
    destruct (Hp e _ _ _ E2) as [e2 [[T2 _] P2]].
    exists (e1 ++ e2), L. split; [rewrite T2, T1, app_assoc; reflexivity|].
    split; [assumption|].
    rewrite filter_app, (filter_active_passive _ P2), app_nil_r. exact F1.
Qed.

Lemma seqs_nil_l Ls : seqs [[]] Ls = Ls.
Proof.
  unfold seqs. cbn [flat_map]. rewrite app_nil_r.
  rewrite (map_ext (app []) (fun L => L)) by reflexivity. apply map_id.
Qed.

Lemma seqs_nil_r Ls : seqs Ls [[]] = Ls.
Proof.
  unfold seqs. induction Ls as [|L Ls IH]; [reflexivity|].
  cbn [flat_map]. rewrite IH. cbn [map app]. rewrite app_nil_r. reflexivity.
Qed.

Lemma follows_passive_bind Ls A B (m : M Env A) (k : A -> M Env B) :
  emits passive m -> (forall a, follows Ls (k a)) -> Ls <> [] ->
  follows Ls (bind m k).
Proof.
  intros Hm Hk Hne. rewrite <- (seqs_nil_l Ls).
  apply follows_bind; [apply follows_passive; assumption|assumption|assumption].
Qed.

Lemma follows_bind_passive Ls A B (m : M Env A) (k : A -> M Env B) :
  follows Ls m -> (forall a, emits passive (k a)) -> follows Ls (bind m k).
Proof.
  intros Hm Hk. rewrite <- (seqs_nil_r Ls).
  apply follows_bind; [assumption| |discriminate].
  intros a. apply follows_passive, Hk.
Qed.

Lemma follows_one L Ls A (m : M Env A) : In L Ls -> follows [L] m -> follows Ls m.
Proof.
  intros HL. apply follows_weaken. intros L' [<-|[]]. exact HL.
Qed.

Lemma page_passive : emits passive (@page Env).
Proof. unfold page. emits_auto. Qed.

Lemma overlay_script (l : locator) :
  follows [[]; [Call (FirstClick l)]]
    (bind (orDefault (call pf (FirstIsVisible l)) false)
       (fun visible =>
          if visible then orDefault (call pf (FirstClick l)) tt else ret tt)).
Proof.
  apply follows_passive_bind; [emits_auto| |discriminate].
  intros [|].
  - eapply follows_one; [|apply follows_orDefault_call; reflexivity].
    right; left; reflexivity.
  - eapply follows_one; [|apply follows_passive; emits_auto]. left; reflexivity.
Qed.

Lemma bind_assoc A B C (m : M Env A) (k : A -> M Env B) (h : B -> M Env C) :
  bind (bind m k) h = bind m (fun a => bind (k a) h).
Proof.
  apply functional_extensionality. intros w. unfold bind.
  destruct (m w) as [[a|e] w1]; reflexivity.
Qed.

Lemma overlays_script : follows overlayScripts (maybeDismissOverlays pf).
Proof.
  unfold maybeDismissOverlays. cbn [fold_right].
  rewrite <- !bind_assoc.
  apply follows_bind_passive; [|intros; emits_auto].
  rewrite bind_assoc.
  eapply follows_weaken;
    [|apply follows_bind;
        [apply overlay_script|intros _; apply overlay_script|discriminate]].
  intros L HL. cbn in HL. unfold overlayScripts. cbn. tauto.
Qed.

Lemma goto_script u : follows (gotoScripts u) (goto pf options u).
Proof.
  unfold goto.
  apply follows_passive_bind; [apply page_passive|intros _|discriminate].
  eapply follows_weaken;
    [|apply (@follows_bind [[Call (PageGoto u)]] overlayScripts)].
  - intros L HL. cbn in HL. unfold gotoScripts, overlayScripts. cbn. tauto.
  - apply follows_call. reflexivity.
  - intros _. apply follows_bind_passive; [apply overlays_script|].
    intros _. apply handleChallengesOrBlocks_passive.
  - discriminate.
Qed.

Lemma submit_script :
  follows [[Call (FirstClick submitByRole)]; [Call (FirstClick submitBySelector)]]
    (tryCatch
       (bind (orDefault (call pf (FirstIsVisible submitByRole)) false)
          (fun byRole =>
             if byRole then call pf (FirstClick submitByRole)
             else call pf (FirstClick submitBySelector)))
       (fun error =>
          bind (capture pf options "biz-login-submit-click-failed")
               (fun dir => throw (loginSubmitFailed dir error)))).
Proof.
  apply follows_tryCatch_abort.
  - apply follows_passive_bind; [emits_auto| |discriminate].
    intros [|].
    + eapply follows_one; [|apply follows_call; reflexivity]. left; reflexivity.
    + eapply follows_one; [|apply follows_call; reflexivity].
      right; left; reflexivity.
  - intros e. apply emits_bind; [apply capture_passive|]. emits_auto.
  - intros e. apply aborts_bind_throw.
Qed.

Lemma login_script c : follows (loginScripts c) (login pf options c).
Proof.
  unfold login. apply follows_bind_passive; [|intros _; apply loginVerify_passive].
  unfold loginSubmit.
  apply follows_passive_bind;
    [apply handleChallengesOrBlocks_passive|intros _|discriminate].
  apply follows_passive_bind; [emits_auto|intros hasEmail|discriminate].
  apply follows_passive_bind; [emits_auto|intros hasPassword|discriminate].
  destruct (negb hasEmail || negb hasPassword).
  { apply follows_abort; [|apply aborts_bind_throw|discriminate].
    apply emits_bind; [apply capture_passive|]. emits_auto. }
  eapply follows_weaken;
    [|apply (@follows_bind
               [[Call (FirstFill (Css emailSelector) (username c))]]
               (seqs [[Call (FirstFill (Css passwordSelector) (password c))]]
                     [[Call (FirstClick submitByRole)];
                      [Call (FirstClick submitBySelector)]]))].
  - intros L HL. cbn in HL. unfold loginScripts. cbn. tauto.
  - apply follows_call. reflexivity.
  - intros _. apply follows_bind; [apply follows_call; reflexivity| |discriminate].
    intros _. apply follows_bind_passive; [apply submit_script|].
    intros _. apply emits_bind; [emits_auto|].
    intros _. apply handleChallengesOrBlocks_passive.
  - discriminate.
Qed.

Lemma overlays_returns (w : World Env) :
  exists w', maybeDismissOverlays pf w = (Ok tt, w').
Proof.
  unfold maybeDismissOverlays. cbn [fold_right]. unfold bind, orDefault, ret.
  repeat match goal with
         | |- context [match call pf ?o ?w0 with _ => _ end] =>
             destruct (call pf o w0) as [[?a|?x] ?w]
         | |- context [if ?b then _ else _] => is_var b; destruct b
         | a : unit |- _ => destruct a
         end; eexists; reflexivity.
Qed.

Lemma overlays_buttons : emits overlayCall (maybeDismissOverlays pf).
Proof. unfold maybeDismissOverlays. cbn [fold_right]. emits_auto. Qed.

(** X8. Dismissing the cookie overlay is best effort: it always
    returns, whatever the page answers and even when every call fails;
    the only calls it makes are visibility queries and clicks on the two
    OneTrust accept buttons; and each button is clicked at most once, the
    first before the second. *)
Theorem overlays_are_best_effort (w : World Env) :
  (exists w', maybeDismissOverlays pf w = (Ok tt, w'))
  /\ forall r w', maybeDismissOverlays pf w = (r, w') ->
       exists evs, made w w' evs
                   /\ forallb overlayCall evs = true
                   /\ In (filter active evs) overlayScripts.
Proof.
  split; [apply overlays_returns|].
  intros r w' H. destruct (@overlays_buttons w r w' H) as [evs [Hm Hb]].
  exists evs. split; [assumption|]. split; [assumption|].
  destruct (@overlays_script w r w' H) as [evs' [L [Ht [HL HF]]]].
  destruct (overlays_returns w) as [w2 E]. rewrite E in H. injection H as <- <-.
  destruct Hm as [Ht' _]. rewrite Ht' in Ht. apply app_inv_head in Ht. subst evs'.
  rewrite HF. exact HL.
Qed.

Ltac no_throw H := exfalso; rewrite query_spec in H; discriminate H.

(** X9. A [goto] navigates once, to the URL it is given, and
    otherwise only clicks the overlay buttons: the fills, clicks and
    navigations of a [goto] that returns are the navigation followed by at
    most one click on each overlay button, and those of a [goto] that
    throws are the beginning of that.  What it throws is the not-started
    error (and then nothing was called), what [page.goto] threw, one of
    the three challenge errors, or what the snapshot sink threw. *)
Theorem goto_navigates_once (u : string) :
  follows (gotoScripts u) (goto pf options u)
  /\ forall w e w', goto pf options u w = (Throw e, w') ->
       (e = notStarted /\ w' = w)
       \/ fst (perform pf (PageGoto u) (env w)) = Throw e
       \/ (exists dir, e = captchaStillPresent dir)
       \/ (exists dir, e = twoFactorStillPresent dir)
       \/ (exists url title dir, e = blockedError pf url title dir)
       \/ sinkThrew pf options e.
Proof.
  split; [apply goto_script|].
  intros w e w' H. unfold goto in H.
  apply bind_throw in H. destruct H as [H|[[] [w1 [Hp H]]]].
  { left. unfold page, bind, getPage in H.
    destruct (pageHandle w); [discriminate|]. injection H as <- <-. auto. }
  assert (w1 = w) as ->.
  { unfold page, bind, getPage in Hp.
    destruct (pageHandle w); [injection Hp; auto|discriminate]. }
  apply bind_throw in H. destruct H as [H|[[] [w2 [_ H]]]].
  { right; left. rewrite call_spec in H. injection H as H _. exact H. }
  apply bind_throw in H. destruct H as [H|[[] [w3 [_ H]]]].
  { exfalso. destruct (overlays_returns w2) as [w3 E]. congruence. }
  right; right. apply pass_throws in H. tauto.
Qed.

Lemma loginVerify_throws w e w' :
  loginVerify pf options w = (Throw e, w') ->
  (exists dir, e = loginDidNotSucceed dir) \/ sinkThrew pf options e.
Proof.
  intros H. unfold loginVerify in H.
  apply bind_throw in H. destruct H as [H|[v [w1 [_ H]]]].
  { unfold isEmailPasswordLoginVisible in H. no_throw H. }
  destruct v; [|discriminate].
  apply bind_throw in H. destruct H as [H|[dir [w2 [_ H]]]].
  - right. eexists _, _, _. exact H.
  - left. injection H as <- _. eexists. reflexivity.
Qed.

Lemma loginSubmit_throws c w e w' :
  loginSubmit pf options c w = (Throw e, w') ->
  (exists dir, e = captchaStillPresent dir)
  \/ (exists dir, e = twoFactorStillPresent dir)
  \/ (exists url title dir, e = blockedError pf url title dir)
  \/ sinkThrew pf options e
  \/ (exists dir, e = loginFieldsMissing dir)
  \/ (exists l t e0, fst (perform pf (FirstFill l t) e0) = Throw e)
  \/ (exists dir x, e = loginSubmitFailed dir x).
Proof.
  intros H. unfold loginSubmit in H.
  apply bind_throw in H. destruct H as [H|[[] [w1 [_ H]]]].
  { apply pass_throws in H. tauto. }
  apply bind_throw in H. destruct H as [H|[hasEmail [w2 [_ H]]]]; [no_throw H|].
  apply bind_throw in H. destruct H as [H|[hasPassword [w3 [_ H]]]]; [no_throw H|].
  destruct (negb hasEmail || negb hasPassword).
  { apply bind_throw in H. destruct H as [H|[dir [w4 [_ H]]]].
    - do 3 right. left. eexists _, _, _. exact H.
    - do 4 right. left. injection H as <- _. eexists. reflexivity. }
  apply bind_throw in H. destruct H as [H|[[] [w4 [_ H]]]].
  { do 5 right. left. rewrite call_spec in H. injection H as H _.
    eexists _, _, _. exact H. }
  apply bind_throw in H. destruct H as [H|[[] [w5 [_ H]]]].
  { do 5 right. left. rewrite call_spec in H. injection H as H _.
    eexists _, _, _. exact H. }
  apply bind_throw in H. destruct H as [H|[[] [w6 [_ H]]]].
  { unfold tryCatch in H.
    match type of H with context [match ?m w5 with _ => _ end] =>
      destruct (m w5) as [[[]|x] w6] end; [discriminate|].
    apply bind_throw in H. destruct H as [H|[dir [w7 [_ H]]]].
    - do 3 right. left. eexists _, _, _. exact H.
    - do 6 right. injection H as <- _. eexists _, _. reflexivity. }
  apply bind_throw in H. destruct H as [H|[[] [w7 [_ H]]]]; [no_throw H|].
  apply pass_throws in H. tauto.
Qed.

(** X10. The login types the user name into the email field, then
    the password into the password field, then clicks one of the two
    submit buttons, and does nothing else to the page: these three calls,
    in this order, are the fills, clicks and navigations of a login that
    returns, and those of a login that throws are the beginning of them.
    What it throws is one of the three challenge errors, what the
    snapshot sink threw, the missing-fields error, what a fill threw, the
    submit-click error or the login-did-not-succeed error. *)
Theorem login_types_credentials_once (c : Credentials) :
  follows (loginScripts c) (login pf options c)
  /\ forall w e w', login pf options c w = (Throw e, w') ->
       (exists dir, e = captchaStillPresent dir)
       \/ (exists dir, e = twoFactorStillPresent dir)
       \/ (exists url title dir, e = blockedError pf url title dir)
       \/ sinkThrew pf options e
       \/ (exists dir, e = loginFieldsMissing dir)
       \/ (exists l t e0, fst (perform pf (FirstFill l t) e0) = Throw e)
       \/ (exists dir x, e = loginSubmitFailed dir x)
       \/ (exists dir, e = loginDidNotSucceed dir).
Proof.
  split; [apply login_script|].
  intros w e w' H. unfold login in H.
  apply bind_throw in H. destruct H as [H|[[] [w1 [_ H]]]].
  - apply loginSubmit_throws in H. tauto.
  - apply loginVerify_throws in H. tauto.
Qed.

Lemma start_script : follows [[]] (start pf options).
Proof.
  intros w r w' H. destruct (context w) eqn:Hc.
  - rewrite (start_started w Hc) in H. injection H as <- <-.
    exists [], []. split; [rewrite app_nil_r; reflexivity|].
    split; [left; reflexivity|reflexivity].
  - destruct (start_fresh w Hc H) as [evs [Ht [_ [Hp _]]]].
    exists evs, []. split; [assumption|]. split; [left; reflexivity|].
    rewrite (filter_active_passive _ Hp).
    destruct r; [reflexivity|apply beginning_nil].
Qed.

Lemma follows_quiet_bind Ls A B (m : M Env A) (k : A -> M Env B) :
  follows [[]] m -> (forall a, follows Ls (k a)) -> Ls <> [] ->
  follows Ls (bind m k).
Proof.
  intros Hm Hk Hne. rewrite <- (seqs_nil_l Ls).
  apply follows_bind; assumption.
Qed.

Lemma verifyLanding_script :
  follows (gotoScripts "https://biz.yelp.com/") (verifyLanding pf options).
Proof.
  unfold verifyLanding. apply follows_bind_passive; [apply goto_script|].
  intros _. apply emits_bind; [emits_auto|intros url].
  apply emits_bind; [emits_auto|intros host].
  apply emits_if; [|emits_auto].
  apply emits_bind; [apply capture_passive|]. emits_auto.
Qed.

Lemma ensureAuthenticated_script c :
  follows (authScripts c) (ensureAuthenticated pf options c).
Proof.
  unfold ensureAuthenticated.
  eapply follows_weaken;
    [|apply (@follows_bind
               (seqs (gotoScripts "https://biz.yelp.com/login")
                     ([] :: match c with
                            | Some c => loginScripts c
                            | None => []
                            end))
               (gotoScripts "https://biz.yelp.com/"))].
  - intros L HL. unfold authScripts.
    destruct c as [c|]; cbn in HL; cbn; exact HL.
  - unfold authenticate.
    apply follows_quiet_bind; [apply start_script|intros _|destruct c; discriminate].
    apply follows_passive_bind; [apply page_passive|intros _|destruct c; discriminate].
    apply follows_bind; [apply goto_script| |discriminate].
    intros _.
    apply follows_passive_bind;
      [unfold isEmailPasswordLoginVisible; emits_auto|intros v|discriminate].
    destruct v.
    + destruct c as [c|].
      * eapply follows_weaken; [|apply login_script].
        intros L HL. right. exact HL.
      * apply follows_abort; [|apply aborts_bind_throw|discriminate].
        apply emits_bind; [apply capture_passive|]. emits_auto.
    + eapply follows_one; [|apply follows_passive; emits_auto]. left; reflexivity.
  - intros _. apply verifyLanding_script.
  - discriminate.
Qed.

Lemma filter_isFill_active evs : filter isFill (filter active evs) = filter isFill evs.
Proof.
  induction evs as [|e evs IH]; [reflexivity|]. cbn [filter].
  destruct (active e) eqn:Ea; cbn [filter]; [rewrite IH; reflexivity|].
  destruct (isFill e) eqn:Ef; [|exact IH].
  unfold active, passive in Ea. rewrite Ef in Ea. discriminate Ea.
Qed.

(** X11. What [ensureAuthenticated] does to the page: it navigates
    to the login page, logs in at most once (typing each credential once,
    into its own field, and clicking one submit button), navigates to the
    home page, and clicks nothing else but the overlay buttons after each
    navigation; a run that throws did the beginning of that.  Without
    credentials it never fills a field. *)
Theorem ensureAuthenticated_follows_script (c : option Credentials) :
  follows (authScripts c) (ensureAuthenticated pf options c)
  /\ (c = None ->
      forall w r w', ensureAuthenticated pf options c w = (r, w') ->
        exists evs, trace w' = trace w ++ evs /\ filter isFill evs = []).
Proof.
  split; [apply ensureAuthenticated_script|].
  intros -> w r w' H.
  destruct (@ensureAuthenticated_script None w r w' H) as [evs [L [Ht [HL HF]]]].
  exists evs. split; [assumption|].
  rewrite <- filter_isFill_active.
  assert (HLf : filter isFill L = []).
  { unfold authScripts in HL. cbn in HL.
    repeat (destruct HL as [<-|HL]; [reflexivity|]). contradiction. }
  destruct r.
  - rewrite HF. exact HLf.
  - destruct HF as [rest ->]. rewrite filter_app in HLf.
    apply app_eq_nil in HLf. tauto.
Qed.

(** X12. The login needs both fields, although the login-form
    predicate only looks at the email field: when, after the first
    challenge pass, the email field or the password field is not visible
    (a failed query counting as not visible), the login throws the
    missing-fields error naming the snapshot, or what the snapshot sink
    threw, and it has filled and clicked nothing. *)
Theorem login_needs_both_fields (c : Credentials) (w w1 w2 w3 : World Env)
    (hasEmail hasPassword : bool) :
  handleChallengesOrBlocks pf options "login-start" w = (Ok tt, w1) ->
  orDefault (call pf (FirstIsVisible (Css emailSelector))) false w1
  = (Ok hasEmail, w2) ->
  orDefault (call pf (FirstIsVisible (Css passwordSelector))) false w2
  = (Ok hasPassword, w3) ->
  hasEmail && hasPassword = false ->
  exists e w',
    login pf options c w = (Throw e, w')
    /\ ((exists dir, e = loginFieldsMissing dir
                     /\ capture pf options "biz-login-missing-fields" w3 = (Ok dir, w'))
        \/ capture pf options "biz-login-missing-fields" w3 = (Throw e, w'))
    /\ exists evs, made w w' evs /\ forallb passive evs = true.
Proof.
  intros H1 H2 H3 Hb.
  assert (Hl : login pf options c w
               = bind (capture pf options "biz-login-missing-fields")
                      (fun dir => throw (loginFieldsMissing dir)) w3).
  { unfold login, loginSubmit. rewrite bind_assoc.
    erewrite bind_step; [|exact H1]. rewrite bind_assoc.
    erewrite bind_step; [|exact H2]. rewrite bind_assoc.
    erewrite bind_step; [|exact H3].
    replace (negb hasEmail || negb hasPassword) with true
      by (destruct hasEmail, hasPassword; cbn in *; congruence).
    rewrite bind_assoc. unfold bind.
    destruct (capture pf options "biz-login-missing-fields" w3) as [[dir|x] w4];
      reflexivity. }
  assert (Hm : exists evs, made w w3 evs /\ forallb passive evs = true).
  { destruct (@handleChallengesOrBlocks_passive "login-start" w _ _ H1)
      as [e1 [M1 P1]].
    rewrite query_spec in H2. injection H2 as _ <-.
    rewrite query_spec in H3. injection H3 as _ <-.
    exists (e1 ++ [Call (FirstIsVisible (Css emailSelector));
                   Call (FirstIsVisible (Css passwordSelector))]).
    split.
    - destruct M1 as [T1 [C1 P1']]. unfold made. cbn [trace context pageHandle].
      rewrite T1. repeat rewrite <- app_assoc. cbn [app]. auto.
    - rewrite forallb_app, P1. reflexivity. }
  destruct Hm as [e1 [M1 P1]].
  destruct (capture pf options "biz-login-missing-fields" w3) as [[dir|x] w4] eqn:Ec.
  - exists (loginFieldsMissing dir), w4. rewrite Hl.
    split; [erewrite bind_step; [reflexivity|exact Ec]|].
    split; [left; exists dir; auto|].
    destruct (@capture_passive "biz-login-missing-fields" w3 _ _ Ec) as [e2 [M2 P2]].
    exists (e1 ++ e2). split; [eapply made_trans; eassumption|].
    rewrite forallb_app, P1, P2. reflexivity.
  - exists x, w4. rewrite Hl.
    split; [erewrite bind_fail; [reflexivity|exact Ec]|].
    split; [right; reflexivity|].
    destruct (@capture_passive "biz-login-missing-fields" w3 _ _ Ec) as [e2 [M2 P2]].
    exists (e1 ++ e2). split; [eapply made_trans; eassumption|].
    rewrite forallb_app, P1, P2. reflexivity.
Qed.

Lemma wait_or_fail (f : pageFunction) (timeout : N) (x : exn) (w : World Env) :
  tryCatch (call pf (WaitForFunction f timeout)) (fun _ => throw x) w
  = (match fst (perform pf (WaitForFunction f timeout) (env w)) with
     | Ok _ => Ok tt
     | Throw _ => Throw x
     end,
     mkWorld (snd (perform pf (WaitForFunction f timeout) (env w)))
             (trace w ++ [Call (WaitForFunction f timeout)])
             (context w) (pageHandle w)).
Proof.
  unfold tryCatch. rewrite call_spec.
  destruct (fst (perform pf (WaitForFunction f timeout) (env w))) as [[]|e];
    reflexivity.
Qed.

(** X13. What a handler does once its challenge is detected.  It
    takes a snapshot, and when the snapshot fails it throws what the
    snapshot threw, without waiting.  Otherwise a detected captcha or
    two-factor prompt is waited for, once, for the configured time: the
    handler returns when the wait succeeds and throws the timeout error
    naming the snapshot when the wait fails, whatever the wait itself
    threw; and a detected block makes the handler throw the block error,
    with the URL, the title and the snapshot.  Without a timeout in the
    options the wait is ten minutes. *)
Theorem detected_challenge_waits_or_fails (label : string) (w w1 : World Env) :
  (captchaChallengeVisible pf w = (Ok true, w1) ->
   maybeHandleCaptcha pf options label w
   = match capture pf options ("captcha-" ++ label) w1 with
     | (Throw e, w2) => (Throw e, w2)
     | (Ok dir, w2) =>
         (match fst (perform pf (WaitForFunction NoLargeCaptchaFrame
                                   (challengeTimeoutMs options)) (env w2)) with
          | Ok _ => Ok tt
          | Throw _ =>
              Throw (Error ("CAPTCHA still present after waiting. Debug artifacts written to: "
                            ++ dir))
          end,
          mkWorld (snd (perform pf (WaitForFunction NoLargeCaptchaFrame
                                      (challengeTimeoutMs options)) (env w2)))
                  (trace w2 ++ [Call (WaitForFunction NoLargeCaptchaFrame
                                        (challengeTimeoutMs options))])
                  (context w2) (pageHandle w2))
     end)
  /\ (hasOtp pf w = (Ok true, w1) ->
      maybeHandleTwoFactor pf options label w
      = match capture pf options ("twofactor-" ++ label) w1 with
        | (Throw e, w2) => (Throw e, w2)
        | (Ok dir, w2) =>
            (match fst (perform pf (WaitForFunction NoTwoFactorPrompt
                                      (challengeTimeoutMs options)) (env w2)) with
             | Ok _ => Ok tt
             | Throw _ =>
                 Throw (Error ("Two-factor / verification step still present after waiting. Debug artifacts written to: "
                               ++ dir))
             end,
             mkWorld (snd (perform pf (WaitForFunction NoTwoFactorPrompt
                                         (challengeTimeoutMs options)) (env w2)))
                     (trace w2 ++ [Call (WaitForFunction NoTwoFactorPrompt
                                           (challengeTimeoutMs options))])
                     (context w2) (pageHandle w2))
        end)
  /\ (forall s,
        blockSignals pf w = (Ok s, w1) -> blocked s = true ->
        maybeThrowIfBlocked pf options label w
        = match capture pf options ("blocked-" ++ label) w1 with
          | (Throw e, w2) => (Throw e, w2)
          | (Ok dir, w2) =>
              (Throw (Error ("Yelp Biz appears blocked/unavailable (url="
                             ++ blockUrl s ++ ", title="
                             ++ JSON_stringify pf (blockTitle s)
                             ++ "). Debug artifacts written to: " ++ dir)), w2)
          end)
  /\ (forall artifacts slowMo userData,
        challengeTimeoutMs (constructor artifacts None slowMo userData) = 600000%N).
Proof.
  split; [|split; [|split]].
  - intros Hv. unfold maybeHandleCaptcha.
    erewrite bind_step; [|exact Hv]. cbn [negb]. unfold bind at 1.
    destruct (capture pf options ("captcha-" ++ label) w1) as [[dir|e] w2];
      [|reflexivity].
    apply wait_or_fail.
  - intros Hv. unfold maybeHandleTwoFactor.
    erewrite bind_step; [|exact Hv]. cbn [negb]. unfold bind at 1.
    destruct (capture pf options ("twofactor-" ++ label) w1) as [[dir|e] w2];
      [|reflexivity].
    apply wait_or_fail.
  - intros s Hs Hb. unfold maybeThrowIfBlocked.
    erewrite bind_step; [|exact Hs]. rewrite Hb. cbn [negb]. unfold bind at 1.
    destruct (capture pf options ("blocked-" ++ label) w1) as [[dir|e] w2];
      reflexivity.
  - intros artifacts slowMo userData. reflexivity.
Qed.

End ClientFacts.

End ClientFacts.

(* ----------------------------------------------------------------- *)
(** ** The handlers *)

Module ServerFacts.
Import Client Server ClientFacts.

Section ServerFacts.

Variable Env : Type.
Variable pf : Platform Env.
Variable options : Options.
Variable isUrl : string -> bool.

Lemma statusCaptchaLoop_returns l remaining :
  forall idx w, exists b w', statusCaptchaLoop pf l remaining idx w = (Ok b, w').
Proof.
  induction remaining as [|r IH]; intros idx w; cbn [statusCaptchaLoop].
  - exists false, w. reflexivity.
  - unfold bind at 1. unfold orDefault.
    destruct (call pf (NthBoundingBox l idx) w) as [[[b|]|x] w1]; try apply IH.
    destruct (Qle_bool (100 # 1) (width b) && Qle_bool (100 # 1) (height b));
      [|apply IH]. eexists _, _. reflexivity.
Qed.

Lemma titleOrNull_spec w :
  titleOrNull pf w
  = (Ok (match fst (perform pf PageTitle (env w)) with
         | Ok t => Some t
         | Throw _ => None
         end),
     mkWorld (snd (perform pf PageTitle (env w))) (trace w ++ [Call PageTitle])
             (context w) (pageHandle w)).
Proof.
  unfold titleOrNull, orDefault, bind. rewrite call_spec.
  destruct (fst (perform pf PageTitle (env w))); reflexivity.
Qed.

Lemma page_started (w : World Env) :
  pageHandle w = true -> page w = (Ok tt, w).
Proof. intros H. unfold page, bind, getPage. rewrite H. reflexivity. Qed.

Lemma page_not_started (w : World Env) :
  pageHandle w = false -> page w = (Throw notStarted, w).
Proof. intros H. unfold page, bind, getPage. rewrite H. reflexivity. Qed.

Lemma statusCaptchaLoop_same l remaining :
  forall idx w,
    statusCaptchaLoop pf l remaining idx w = captchaLoop pf l remaining idx w.
Proof.
  induction remaining as [|r IH]; intros idx w; [reflexivity|].
  cbn -[large]. unfold bind.
  destruct (orDefault (call pf (NthBoundingBox l idx)) None w) as [[[b|]|x] w1];
    [|apply IH|reflexivity].
  unfold large. destruct (Qle_bool _ _ && Qle_bool _ _); [reflexivity|apply IH].
Qed.

(** C4, as amended.  [status] never throws: it returns
    [{started: false}], without touching the page, when the session is
    not started, and otherwise [{started: true, ...}] with the URL, its
    host (null when the URL does not parse), the title (null when the
    title query fails) and the flags.  The captcha flag is what the loop
    over the captcha frames answers after the title query: false when the
    count query fails, and on a page that shows frames, true exactly when
    one of them has a box of at least 100 by 100, a frame whose
    bounding-box query fails counting as one without a box.  The
    two-factor and the login flag are the answers of their visibility
    queries, false when the query fails; the marketing flag says whether
    the host is business.yelp.com.  When every page query fails the reply
    is still [{started: true, ...}], with a null title and the three page
    flags false. *)
Theorem C4_status_never_throws (w : World Env) :
  let url := page_url pf (env w) in
  let host :=
    match URL_host pf url with
    | Ok h => Some h
    | Throw _ => None
    end in
  let marketing :=
    match host with
    | Some h => String.eqb h "business.yelp.com"
    | None => false
    end in
  let title :=
    match fst (perform pf PageTitle (env w)) with
    | Ok t => Some t
    | Throw _ => None
    end in
  let w1 :=
    mkWorld (snd (perform pf PageTitle (env w))) (trace w ++ [Call PageTitle])
            (context w) (pageHandle w) in
  let detect :=
    bind (orDefault (call pf (Count (Css captchaSelectors))) 0)
         (fun count => statusCaptchaLoop pf (Css captchaSelectors) count 0) in
  (exists r w', status pf w = (Ok r, w'))
  /\ (pageHandle w = false -> status pf w = (Ok NotStarted, w))
  /\ (pageHandle w = true ->
      exists captcha w3,
        detect w1 = (Ok captcha, w3)
        /\ (let twoFactorQuery := FirstIsVisible (Css statusTwoFactorSelector) in
            let loginQuery := FirstIsVisible (Css statusLoginSelector) in
            let twoFactor :=
              orElse (fst (perform pf twoFactorQuery (env w3))) false in
            let login :=
              orElse (fst (perform pf loginQuery
                             (snd (perform pf twoFactorQuery (env w3))))) false in
            exists w',
              status pf w
              = (Ok (Started url host title
                       (mkFlags captcha twoFactor login marketing)), w'))
        /\ ((exists x, fst (perform pf (Count (Css captchaSelectors)) (env w1))
                       = Throw x) ->
            captcha = false)
        /\ (forall I boxes,
              showsFrames pf I boxes -> I (env w1) ->
              captcha = existsb (@largeFrame) boxes))
  /\ (queriesFail pf -> pageHandle w = true ->
      exists w',
        status pf w
        = (Ok (Started url host None
                 (mkFlags false false false marketing)), w')).
Proof.
  intros url host marketing title w1 detect.
  assert (Hd : detect w1 = captchaChallengeVisible pf w1).
  { unfold detect, captchaChallengeVisible, bind.
    destruct (orDefault (call pf (Count (Css captchaSelectors))) 0 w1)
      as [[n|x] w2]; [|reflexivity].
    apply statusCaptchaLoop_same. }
  assert (Hstarted : pageHandle w = true ->
      forall captcha w3, detect w1 = (Ok captcha, w3) ->
      exists w',
        status pf w
        = (Ok (Started url host title
                 (mkFlags captcha
                    (orElse (fst (perform pf (FirstIsVisible (Css statusTwoFactorSelector))
                                    (env w3))) false)
                    (orElse (fst (perform pf (FirstIsVisible (Css statusLoginSelector))
                                    (snd (perform pf
                                            (FirstIsVisible (Css statusTwoFactorSelector))
                                            (env w3))))) false)
                    marketing)), w')).
  { intros Hp captcha w3 E. unfold status, enqueue, tryCatch, statusBody.
    rewrite (@bind_step _ _ _ _ _ _ _ _ (page_started w Hp)).
    erewrite bind_step; [|reflexivity].
    rewrite (@bind_step _ _ _ _ _ _ _ _ (titleOrNull_spec w)).
    fold w1. fold detect.
    rewrite (@bind_step _ _ _ _ _ _ _ _ E).
    erewrite bind_step; [|apply query_spec].
    erewrite bind_step; [|apply query_spec].
    cbn [ret env]. eexists. reflexivity. }
  split; [|split; [|split]].
  - destruct (pageHandle w) eqn:Hp.
    + destruct (captcha_returns pf w1) as [c [w3 E]]. rewrite <- Hd in E.
      destruct (Hstarted eq_refl c w3 E) as [w' H]. eauto.
    + exists NotStarted, w. unfold status, enqueue, tryCatch, statusBody.
      rewrite (@bind_fail _ _ _ _ _ _ _ _ (page_not_started w Hp)). reflexivity.
  - intros Hp. unfold status, enqueue, tryCatch, statusBody.
    rewrite (@bind_fail _ _ _ _ _ _ _ _ (page_not_started w Hp)). reflexivity.
  - intros Hp. destruct (captcha_returns pf w1) as [c [w3 E]].
    exists c, w3. rewrite Hd.
    split; [exact E|]. split; [apply Hstarted; [exact Hp|rewrite Hd; exact E]|].
    split.
    + intros [x Hx]. unfold captchaChallengeVisible in E.
      erewrite bind_step in E; [|apply query_spec].
      rewrite Hx in E. cbn [orElse captchaLoop] in E. unfold ret in E. congruence.
    + intros I boxes HF HI. unfold captchaChallengeVisible in E.
      destruct (HF _ HI) as [[Hc HI'] _].
      erewrite bind_step in E; [|apply query_spec]. rewrite Hc in E.
      cbn [orElse] in E.
      match type of E with captchaLoop _ _ _ _ ?w2 = _ =>
        destruct (@captchaLoop_frames _ pf I boxes HF (List.length boxes) 0 w2 HI' eq_refl)
          as [w' [E' _]] end.
      cbn [skipn] in E'. congruence.
  - intros HQ Hp. unfold status, enqueue, tryCatch, statusBody.
    rewrite (@bind_step _ _ _ _ _ _ _ _ (page_started w Hp)).
    erewrite bind_step; [|reflexivity].
    rewrite (@bind_step _ _ _ _ _ _ _ _ (titleOrNull_spec w)).
    destruct (HQ _ PageTitle (env w) eq_refl) as [x Hx]. rewrite Hx.
    unfold bind at 1. erewrite bind_step; [|apply query_spec].
    rewrite failing_query by (assumption || reflexivity).
    cbn [statusCaptchaLoop ret].
    erewrite bind_step; [|apply query_spec].
    rewrite failing_query by (assumption || reflexivity).
    erewrite bind_step; [|apply query_spec].
    rewrite failing_query by (assumption || reflexivity).
    eexists. reflexivity.
Qed.

Lemma safeParse_rejects_url u label :
  allowed u = false ->
  exists issues,
    safeParse isUrl (Some (mkBody (Text u) label)) = inl issues
    /\ In (UrlNotAllowed notAllowedMessage) issues.
Proof.
  intros Ha. unfold safeParse. cbn [bodyUrl bodyCaptureLabel checkUrl]. rewrite Ha.
  destruct (isUrl u); cbn [app]; eexists; (split; [reflexivity|]); cbn; auto.
Qed.

Lemma safeParse_accepts u f l :
  allowed u = true -> isUrl u = true -> acceptableLabel f l ->
  safeParse isUrl (Some (mkBody (Text u) f)) = inr (mkParsed u l).
Proof.
  intros Ha Hu Hl. unfold safeParse. cbn [bodyUrl bodyCaptureLabel checkUrl].
  rewrite Ha, Hu. destruct Hl as [[-> ->]|[t [-> [Hne ->]]]]; cbn; [reflexivity|].
  destruct t as [|c t]; [congruence|]. reflexivity.
Qed.

Lemma safeParse_rejects_label u f :
  f = NotText \/ f = Text "" ->
  exists issues, safeParse isUrl (Some (mkBody (Text u) f)) = inl issues.
Proof.
  intros [->| ->]; unfold safeParse; cbn [bodyUrl bodyCaptureLabel checkUrl checkCaptureLabel].
  - destruct (isUrl u), (allowed u); cbn; eexists; reflexivity.
  - destruct (isUrl u), (allowed u); cbn; eexists; reflexivity.
Qed.

(** C5, as amended.  A request whose [url] has none of the allowed
    prefixes is rejected with the world untouched: no session start, no
    navigation, no snapshot; so is one whose [captureLabel] is empty or
    not a string.  For an allowed [url] that passes the URL check, with a
    [captureLabel] that is absent or not empty, the request is never
    rejected, and the handler returns [r] exactly when the session start,
    the guarded navigation, the optional snapshot and the title query
    succeed in this order, [r] holding the URL, the title and the
    snapshot location (none without a label). *)
Theorem C5_navigate_allow_list (w : World Env) :
  (forall u label,
     allowed u = false ->
     exists issues,
       navigate pf options isUrl (Some (mkBody (Text u) label)) w
       = (Ok (BadRequest issues), w)
       /\ In (UrlNotAllowed notAllowedMessage) issues)
  /\ (forall u f,
        f = NotText \/ f = Text "" ->
        exists issues,
          navigate pf options isUrl (Some (mkBody (Text u) f)) w
          = (Ok (BadRequest issues), w))
  /\ (forall u f l,
        allowed u = true -> isUrl u = true -> acceptableLabel f l ->
        (forall issues w',
           navigate pf options isUrl (Some (mkBody (Text u) f)) w
           <> (Ok (BadRequest issues), w'))
        /\ (forall r w',
              navigate pf options isUrl (Some (mkBody (Text u) f)) w
              = (Ok (Returned r), w')
              <-> exists w1 w2 w3 title,
                    start pf options w = (Ok tt, w1)
                    /\ goto pf options u w1 = (Ok tt, w2)
                    /\ optionalCapture pf options l w2 = (Ok (navArtifactsDir r), w3)
                    /\ call pf PageTitle w3 = (Ok title, w')
                    /\ r = mkNavigated (page_url pf (env w3)) title (navArtifactsDir r))
        /\ (l = None -> optionalCapture pf options l = ret None)
        /\ (forall t, l = Some t ->
              optionalCapture pf options l
              = bind (captureDebugArtifacts pf (artifactsDir options) t (Some "yelp-biz"))
                     (fun dir => ret (Some dir)))).
Proof.
  split; [|split].
  - intros u label Ha. destruct (@safeParse_rejects_url u label Ha) as [issues [E Hin]].
    exists issues. split; [|assumption]. unfold navigate. rewrite E. reflexivity.
  - intros u f Hf. destruct (@safeParse_rejects_label u f Hf) as [issues E].
    exists issues. unfold navigate. rewrite E. reflexivity.
  - intros u f l Ha Hu Hl. pose proof (@safeParse_accepts u f l Ha Hu Hl) as E.
    split; [|split; [|split]].
    + intros issues w' H. unfold navigate in H. rewrite E in H.
      unfold bind in H.
      destruct (enqueue (navigateTask pf options (mkParsed u l)) w) as [[r|x] w1];
        discriminate.
    + intros r w'. unfold navigate. rewrite E. unfold enqueue, navigateTask.
      cbn [parsedUrl parsedCaptureLabel]. split.
      * intros H. apply bind_ok in H. destruct H as [r' [w5 [H Hr]]].
        unfold ret in Hr. injection Hr as -> ->.
        apply bind_ok in H. destruct H as [[] [w1 [Hs H]]].
        apply bind_ok in H. destruct H as [[] [w2 [Hg H]]].
        apply bind_ok in H. destruct H as [[] [w2' [Hp H]]].
        assert (w2' = w2) as ->.
        { unfold page, bind, getPage in Hp.
          destruct (pageHandle w2); [injection Hp; auto|discriminate]. }
        apply bind_ok in H. destruct H as [a [w3 [Hc H]]].
        apply bind_ok in H. destruct H as [url [w3' [Hurl H]]].
        unfold url_ in Hurl. injection Hurl as <- <-.
        apply bind_ok in H. destruct H as [title [w4 [Ht H]]].
        unfold ret in H. injection H as <- <-.
        exists w1, w2, w3, title. cbn [navArtifactsDir]. auto.
      * intros [w1 [w2 [w3 [title [Hs [Hg [Hc [Ht Hr]]]]]]]].
        assert (Hp : page w2 = (Ok tt, w2)).
        { unfold page, bind, getPage. rewrite (@goto_keeps_page _ _ _ _ _ _ Hg). reflexivity. }
        erewrite bind_step; [reflexivity|].
        rewrite (@bind_step _ _ _ _ _ _ _ _ Hs), (@bind_step _ _ _ _ _ _ _ _ Hg).
        rewrite (@bind_step _ _ _ _ _ _ _ _ Hp), (@bind_step _ _ _ _ _ _ _ _ Hc).
        unfold url_. erewrite bind_step; [|reflexivity].
        rewrite (@bind_step _ _ _ _ _ _ _ _ Ht). unfold ret. rewrite Hr at 2.
        cbn [navArtifactsDir]. reflexivity.
    + intros ->. reflexivity.
    + intros t ->. destruct Hl as [[_ Hx]|[t' [_ [Hne Hx]]]]; [discriminate|].
      injection Hx as ->. unfold optionalCapture.
      destruct (String.eqb_spec t' ""); [congruence|reflexivity].
Qed.

(** *** The status handler only looks *)

Ltac looks_step :=
  first
    [ apply emits_ret | apply emits_throw | apply emits_url
    | apply emits_getPage
    | apply emits_call; reflexivity
    | apply emits_orDefault | apply emits_tryCatch
    | apply emits_bind | apply emits_if
    | progress intros ].

Lemma statusCaptchaLoop_queries l remaining :
  forall idx, @emits Env isQuery _ (statusCaptchaLoop pf l remaining idx).
Proof.
  induction remaining as [|r IH]; intros idx; cbn [statusCaptchaLoop];
    [apply emits_ret|].
  apply emits_bind; [repeat looks_step|]. intros [b|]; [|apply IH].
  apply emits_if; [apply emits_ret|apply IH].
Qed.

Lemma status_queries : @emits Env isQuery _ (status pf).
Proof.
  unfold status, enqueue. apply emits_tryCatch; [|intros; apply emits_ret].
  unfold statusBody, page, titleOrNull.
  apply emits_bind; [repeat looks_step|intros _].
  apply emits_bind; [repeat looks_step|intros url].
  apply emits_bind; [repeat looks_step|intros title].
  apply emits_bind.
  { apply emits_bind; [repeat looks_step|intros n]. apply statusCaptchaLoop_queries. }
  intros captcha. repeat looks_step.
Qed.

(** X14. The status handler only looks at the page: whatever it
    replies, every call it made is a query (title, count, bounding box,
    visibility), so it takes no snapshot, waits for nothing, fills,
    clicks and navigates nowhere, and it leaves the session fields as
    they were. *)
Theorem status_only_looks (w : World Env) (r : Res Status) (w' : World Env) :
  status pf w = (r, w') ->
  exists evs, made w w' evs /\ onlyLooks evs.
Proof.
  intros H. destruct (@status_queries w r w' H) as [evs [Hm Hq]].
  exists evs. split; [assumption|apply looks_of_queries; assumption].
Qed.

Lemma smokeCaptchaLoop_same l remaining :
  forall idx w,
    Smoke.captchaLoop pf l remaining idx w = captchaLoop pf l remaining idx w.
Proof.
  induction remaining as [|r IH]; intros idx w; [reflexivity|].
  cbn -[large]. unfold bind.
  destruct (orDefault (call pf (NthBoundingBox l idx)) None w) as [[[b|]|x] w1];
    [|apply IH|reflexivity].
  unfold large. destruct (Qle_bool _ _ && Qle_bool _ _); [reflexivity|apply IH].
Qed.

(** On a started session the status task replies with the flags the
    queries gave, the captcha flag being the answer of the client's
    detector on the page as the title query left it. *)
Lemma status_started_flags (w : World Env) :
  pageHandle w = true ->
  exists flags w',
    status pf w
    = (Ok (Started (page_url pf (env w)) (hostOf pf (page_url pf (env w)))
             (match fst (perform pf PageTitle (env w)) with
              | Ok t => Some t
              | Throw _ => None
              end) flags), w')
    /\ fst (captchaChallengeVisible pf (snd (titleOrNull pf w)))
       = Ok (captchaVisible flags).
Proof.
  intros Hp. unfold status, enqueue, tryCatch, statusBody.
  rewrite (@bind_step _ _ _ _ _ _ _ _ (page_started w Hp)).
  erewrite bind_step; [|reflexivity].
  rewrite (@bind_step _ _ _ _ _ _ _ _ (titleOrNull_spec w)).
  rewrite (titleOrNull_spec w). cbn [snd].
  set (w1 := mkWorld _ _ _ _).
  unfold captchaChallengeVisible.
  destruct (orDefault_returns (call pf (Count (Css captchaSelectors))) 0 w1)
    as [n [w2 E2]].
  destruct (captchaLoop_returns pf (Css captchaSelectors) n 0 w2) as [c [w3 E3]].
  assert (Ec : bind (orDefault (call pf (Count (Css captchaSelectors))) 0)
                 (fun iframeCount => captchaLoop pf (Css captchaSelectors) iframeCount 0)
                 w1 = (Ok c, w3))
    by (erewrite bind_step; [exact E3|exact E2]).
  assert (Es : bind (orDefault (call pf (Count (Css captchaSelectors))) 0)
                 (fun count => statusCaptchaLoop pf (Css captchaSelectors) count 0)
                 w1 = (Ok c, w3))
    by (erewrite bind_step; [rewrite statusCaptchaLoop_same; exact E3|exact E2]).
  rewrite Ec. erewrite bind_step; [|exact Es].
  destruct (orDefault_returns (call pf (FirstIsVisible (Css statusTwoFactorSelector))) false w3)
    as [t2 [w4 E4]]. erewrite bind_step; [|exact E4].
  destruct (orDefault_returns (call pf (FirstIsVisible (Css statusLoginSelector))) false w4)
    as [lv [w5 E5]]. erewrite bind_step; [|exact E5].
  cbn [ret]. eexists _, _. split; reflexivity.
Qed.

(** What the page task does on a started session: one call, the title
    query, whose failure it does not catch. *)
Lemma currentPage_started (w : World Env) :
  pageHandle w = true ->
  currentPage pf w
  = (match fst (perform pf PageTitle (env w)) with
     | Ok t => Ok (PageStarted (page_url pf (env w)) t)
     | Throw e => Throw e
     end,
     mkWorld (snd (perform pf PageTitle (env w)))
             (trace w ++ [Call PageTitle]) (context w) (pageHandle w)).
Proof.
  intros Hp. unfold currentPage, enqueue.
  unfold bind at 1. unfold tryCatch.
  rewrite (@bind_step _ _ _ _ _ _ _ _ (page_started w Hp)).
  cbn [ret negb].
  rewrite (@bind_step _ _ _ _ _ _ _ _ (page_started w Hp)).
  erewrite bind_step; [|reflexivity].
  unfold bind. rewrite call_spec.
  destruct (fst (perform pf PageTitle (env w))); reflexivity.
Qed.

(** X15. The three copies of the captcha detector, in the client, in
    the status handler and in the smoke check, compute the same function;
    so the [captchaVisible] flag of a status reply is what the client's
    detector answers on the page as it is after the title query. *)
Theorem captcha_detectors_agree (w : World Env) :
  (forall l remaining idx w0,
     statusCaptchaLoop pf l remaining idx w0 = captchaLoop pf l remaining idx w0)
  /\ (forall l remaining idx w0,
        Smoke.captchaLoop pf l remaining idx w0 = captchaLoop pf l remaining idx w0)
  /\ (pageHandle w = true ->
      exists host title flags w',
        status pf w = (Ok (Started (page_url pf (env w)) host title flags), w')
        /\ fst (captchaChallengeVisible pf (snd (titleOrNull pf w)))
           = Ok (captchaVisible flags)).
Proof.
  split; [intros; apply statusCaptchaLoop_same|].
  split; [intros; apply smokeCaptchaLoop_same|].
  intros Hp. destruct (status_started_flags w Hp) as [flags [w' [E1 E2]]].
  exists (hostOf pf (page_url pf (env w))).
  eexists _, flags, w'. split; [exact E1|exact E2].
Qed.

(** X16. The page handler and the status handler on the same session.
    On a session that is not started the page handler replies
    [{started: false}] without a call; on a started session it makes one
    call, the title query.  When it replies with a URL and a title, the
    status handler replies with the same URL and title; but a failing title
    query, which the status handler turns into a null title, makes the page
    handler throw what the query threw. *)
Theorem currentPage_reads_the_title (w : World Env) :
  (pageHandle w = false -> currentPage pf w = (Ok PageNotStarted, w))
  /\ (forall reply w', currentPage pf w = (Ok reply, w') ->
        exists evs, trace w' = trace w ++ evs
                    /\ (evs = [] \/ evs = [Call PageTitle]))
  /\ (forall url title w',
        currentPage pf w = (Ok (PageStarted url title), w') ->
        exists host flags w'',
          status pf w = (Ok (Started url host (Some title) flags), w''))
  /\ (forall e w',
        currentPage pf w = (Throw e, w') ->
        fst (perform pf PageTitle (env w)) = Throw e
        /\ exists url host flags w'',
             status pf w = (Ok (Started url host None flags), w'')).
Proof.
  assert (H0 : pageHandle w = false -> currentPage pf w = (Ok PageNotStarted, w)).
  { intros Hp. unfold currentPage, enqueue. unfold bind at 1. unfold tryCatch.
    rewrite (@bind_fail _ _ _ _ _ _ _ _ (page_not_started w Hp)). reflexivity. }
  split; [exact H0|].
  destruct (pageHandle w) eqn:Hp.
  - pose proof (currentPage_started w Hp) as E.
    destruct (status_started_flags w Hp) as [flags [w'' [Es _]]].
    destruct (fst (perform pf PageTitle (env w))) as [t|e0] eqn:Et.
    + repeat split.
      * intros reply w' H. rewrite E in H. inversion H; subst.
        exists [Call PageTitle]. split; [reflexivity|now right].
      * intros url title w' H. rewrite E in H. inversion H; subst.
        eexists _, _, _. exact Es.
      * rewrite E in H. inversion H; subst.
      * rewrite E in H. discriminate H.
    + repeat split.
      * intros reply w' H. rewrite E in H. discriminate H.
      * intros url title w' H. rewrite E in H. discriminate H.
      * rewrite E in H. inversion H; subst. reflexivity.
      * eexists _, _, _, _. exact Es.
  - specialize (H0 eq_refl). repeat split.
    + intros reply w' H. rewrite H0 in H. inversion H; subst.
      exists []. split; [now rewrite app_nil_r|now left].
    + intros url title w' H. rewrite H0 in H. discriminate H.
    + rewrite H0 in H. discriminate H.
    + rewrite H0 in H. discriminate H.
Qed.

(** *** The smoke check *)

Lemma follows_finally Ls A (m : M Env A) (cleanup : M Env unit) :
  @follows Env Ls _ m -> @follows Env [[]] _ cleanup ->
  @follows Env Ls _ (Smoke.finally_ m cleanup).
Proof.
  intros Hm Hc w r w' H. unfold Smoke.finally_ in H.
  destruct (m w) as [r1 w1] eqn:E1.
  destruct (cleanup w1) as [r2 w2] eqn:E2.
  destruct (Hm _ _ _ E1) as [e1 [L [T1 [I1 F1]]]].
  destruct (Hc _ _ _ E2) as [e2 [L2 [T2 [I2 F2]]]].
  destruct I2 as [<-|[]].
  assert (F2' : filter active e2 = []).
  { destruct r2; [exact F2|]. destruct F2 as [rest F2].
    symmetry in F2. apply app_eq_nil in F2. tauto. }
  assert (Hw : w' = w2) by (destruct r2; injection H; auto). subst w'.
  exists (e1 ++ e2), L. split; [rewrite T2, T1, app_assoc; reflexivity|].
  split; [assumption|]. rewrite filter_app, F2', app_nil_r.
  destruct r2 as [[]|e]; injection H as <-.
  - exact F1.
  - destruct r1; [rewrite F1; apply beginning_refl|exact F1].
Qed.

Lemma stop_script : @follows Env [[]] _ (stop pf).
Proof.
  intros w r w' H. rewrite stop_spec in H. destruct (context w).
  - exists [Call ContextClose], []. 
    destruct (fst (perform pf ContextClose (env w))); injection H as <- <-;
      (split; [reflexivity|]); (split; [left; reflexivity|]);
      [reflexivity|apply beginning_nil].
  - injection H as <- <-. exists [], []. cbn [trace].
    split; [rewrite app_nil_r; reflexivity|]. split; [left; reflexivity|reflexivity].
Qed.

Lemma smokeCaptchaLoop_queries l remaining :
  forall idx, @emits Env passive _ (Smoke.captchaLoop pf l remaining idx).
Proof.
  induction remaining as [|r IH]; intros idx; cbn [Smoke.captchaLoop];
    [apply emits_ret|].
  apply emits_bind; [repeat looks_step|]. intros [b|]; [|apply IH].
  apply emits_if; [apply emits_ret|apply IH].
Qed.

Lemma check_script :
  @follows Env [[Call (PageGoto "https://biz.yelp.com/login")]] _
    (Smoke.check pf options).
Proof.
  unfold Smoke.check.
  apply follows_quiet_bind; [apply start_script|intros _|discriminate].
  apply follows_passive_bind; [apply page_passive|intros _|discriminate].
  apply follows_bind_passive; [apply follows_call; reflexivity|].
  intros _.
  apply emits_bind; [repeat looks_step|intros e].
  apply emits_bind; [repeat looks_step|intros p].
  apply emits_bind.
  { apply emits_bind; [repeat looks_step|intros n]. apply smokeCaptchaLoop_queries. }
  intros c. repeat looks_step.
Qed.

(** X17. The smoke check is harmless and cleans up: it navigates
    once, to the login page, and never fills or clicks; and whatever
    happens it calls [stop], so that when it is over the client has
    neither context nor page, unless closing the browser itself threw, in
    which case the check fails with that error. *)
Theorem smoke_check_cleans_up (w : World Env) (r : Res Smoke.Report) (w' : World Env) :
  Smoke.main pf options w = (r, w') ->
  (exists evs,
     trace w' = trace w ++ evs
     /\ beginning (filter active evs) [Call (PageGoto "https://biz.yelp.com/login")]
     /\ (forall report, r = Ok report ->
           filter active evs = [Call (PageGoto "https://biz.yelp.com/login")]))
  /\ ((context w' = false /\ pageHandle w' = false)
      \/ exists e e0, r = Throw e
                      /\ fst (perform pf ContextClose e0) = Throw e
                      /\ context w' = true).
Proof.
  intros H. split.
  - destruct (@follows_finally _ _ _ _ check_script stop_script w r w' H)
      as [evs [L [Ht [[<-|[]] HF]]]].
    exists evs. split; [assumption|]. destruct r as [report|e].
    + split; [rewrite HF; apply beginning_refl|]. intros _ _. exact HF.
    + split; [exact HF|]. intros report Hr. discriminate Hr.
  - unfold Smoke.main, Smoke.finally_ in H.
    destruct (Smoke.check pf options w) as [r1 w1].
    rewrite stop_spec in H. destruct (context w1) eqn:Hc.
    + destruct (fst (perform pf ContextClose (env w1))) eqn:Ec;
        injection H as <- <-.
      * left. split; reflexivity.
      * right. exists e, (env w1). auto.
    + injection H as <- <-. left. split; reflexivity.
Qed.

(** *** The navigate handler stays on the allow-list *)

Lemma safeParse_inr body data :
  safeParse isUrl body = inr data ->
  exists b, body = Some b /\ bodyUrl b = Text (parsedUrl data)
            /\ isUrl (parsedUrl data) = true /\ allowed (parsedUrl data) = true.
Proof.
  unfold safeParse. destruct body as [b|]; [|discriminate].
  destruct (bodyUrl b) as [|u|] eqn:Eu; cbn [checkUrl app].
  - discriminate.
  - destruct (isUrl u) eqn:Ei; [|cbn [app]; discriminate].
    destruct (allowed u) eqn:Ea; [|cbn [app]; discriminate].
    cbn [app].
    destruct (checkCaptureLabel (bodyCaptureLabel b)); [|discriminate].
    intros H. injection H as <-. exists b. cbn [parsedUrl]. auto.
  - discriminate.
Qed.

Lemma optionalCapture_passive l :
  @emits Env passive _ (optionalCapture pf options l).
Proof.
  unfold optionalCapture. destruct l as [l|]; [|apply emits_ret].
  destruct (String.eqb l ""); [apply emits_ret|].
  apply emits_bind; [apply capture_passive|]. intros dir. apply emits_ret.
Qed.

Lemma navigateTask_script data :
  @follows Env (gotoScripts (parsedUrl data)) _ (navigateTask pf options data).
Proof.
  unfold navigateTask.
  apply follows_quiet_bind; [apply start_script|intros _|discriminate].
  apply follows_bind_passive; [apply goto_script|intros _].
  apply emits_bind; [apply page_passive|intros _].
  apply emits_bind; [apply optionalCapture_passive|intros a].
  repeat looks_step.
Qed.

Lemma filter_isGoto_active evs :
  filter isGoto (filter active evs) = filter isGoto evs.
Proof.
  induction evs as [|e evs IH]; [reflexivity|]. cbn [filter].
  destruct (active e) eqn:Ea; cbn [filter]; [rewrite IH; reflexivity|].
  destruct (isGoto e) eqn:Eg; [|exact IH].
  unfold active, passive in Ea. rewrite Eg in Ea.
  rewrite !andb_false_r in Ea. discriminate Ea.
Qed.

(** X18. The navigate handler never sends the browser off the
    allow-list: whatever the request body and however the request ends,
    it navigates at most once, and when it does, the URL is the one of
    the body, it passed the URL check and it begins with one of the three
    allowed prefixes. *)
Theorem navigate_stays_on_the_allow_list (body : option Body) (w : World Env)
    (r : Res (Reply Navigated)) (w' : World Env) :
  navigate pf options isUrl body w = (r, w') ->
  exists evs,
    trace w' = trace w ++ evs
    /\ (filter isGoto evs = []
        \/ exists b u,
             body = Some b /\ bodyUrl b = Text u
             /\ isUrl u = true /\ allowed u = true
             /\ filter isGoto evs = [Call (PageGoto u)]).
Proof.
  unfold navigate. destruct (safeParse isUrl body) as [issues|data] eqn:Ep.
  - intros H. injection H as <- <-. exists []. split; [rewrite app_nil_r; reflexivity|].
    left. reflexivity.
  - intros H. destruct (safeParse_inr _ Ep) as [b [Hb [Hu [Hi Ha]]]].
    assert (Hf : @follows Env (gotoScripts (parsedUrl data)) _
                   (bind (enqueue (navigateTask pf options data))
                         (fun result => ret (Returned result)))).
    { apply follows_bind_passive; [apply navigateTask_script|].
      intros a. apply emits_ret. }
    destruct (Hf w r w' H) as [evs [L [Ht [HL HF]]]].
    exists evs. split; [exact Ht|].
    rewrite <- filter_isGoto_active.
    assert (HLg : filter isGoto L = [Call (PageGoto (parsedUrl data))]).
    { unfold gotoScripts, overlayScripts in HL. cbn [map In] in HL.
      repeat (destruct HL as [<-|HL]; [reflexivity|]). contradiction. }
    assert (Hg : filter isGoto (filter active evs) = []
                 \/ filter isGoto (filter active evs)
                    = [Call (PageGoto (parsedUrl data))]).
    { destruct r.
      - right. rewrite HF. exact HLg.
      - destruct HF as [rest ->]. rewrite filter_app in HLg.
        apply app_eq_unit in HLg. destruct HLg as [[H1 _]|[H1 _]]; auto. }
    destruct Hg as [Hg|Hg]; [left; exact Hg|].
    right. exists b, (parsedUrl data). auto.
Qed.

End ServerFacts.

End ServerFacts.

(* ----------------------------------------------------------------- *)
(** ** The snapshot sink *)

Module SnapshotFacts.
Import Client ClientFacts.

Lemma collapse_chars l : forall inRun,
  Forall (fun c => Demo.segmentChar c = true) (Demo.collapse inRun l).
Proof.
  induction l as [|c l IH]; intros inRun; cbn [Demo.collapse]; [constructor|].
  destruct (Demo.isAlnum c) eqn:Ea.
  - constructor; [unfold Demo.segmentChar; rewrite Ea; reflexivity|apply IH].
  - destruct inRun; [apply IH|]. constructor; [reflexivity|apply IH].
Qed.

Lemma dropWhile_Forall (P : ascii -> Prop) f l :
  Forall P l -> Forall P (Demo.dropWhile f l).
Proof.
  induction 1 as [|c l Hc Hl IH]; cbn [Demo.dropWhile]; [constructor|].
  destruct (f c); [exact IH|constructor; assumption].
Qed.

Lemma dropWhile_snoc f l a :
  f a = false -> Demo.dropWhile f (l ++ [a]) = Demo.dropWhile f l ++ [a].
Proof.
  intros Ha. induction l as [|c l IH]; cbn [app Demo.dropWhile].
  - rewrite Ha. reflexivity.
  - destruct (f c); [exact IH|reflexivity].
Qed.

Lemma dropWhile_head f l :
  match Demo.dropWhile f l with
  | [] => True
  | c :: _ => f c = false
  end.
Proof.
  induction l as [|c l IH]; cbn [Demo.dropWhile]; [exact I|].
  destruct (f c) eqn:E; [exact IH|exact E].
Qed.

(** What is left when [f] is stripped from both ends does not begin
    with a character of [f]. *)
Lemma stripped_head f l :
  match rev (Demo.dropWhile f (rev (Demo.dropWhile f l))) with
  | [] => True
  | c :: _ => f c = false
  end.
Proof.
  pose proof (dropWhile_head f l) as H.
  destruct (Demo.dropWhile f l) as [|c r]; [exact I|].
  cbn [rev]. rewrite (@dropWhile_snoc f (rev r) c H), rev_app_distr. exact H.
Qed.

Lemma substring_firstn n : forall s,
  list_ascii_of_string (substring 0 n s) = firstn n (list_ascii_of_string s).
Proof.
  induction n as [|n IH]; intros [|c s]; cbn [substring list_ascii_of_string firstn];
    try reflexivity.
  rewrite IH. reflexivity.
Qed.

Lemma length_chars s : String.length s = List.length (list_ascii_of_string s).
Proof.
  induction s as [|c s IH]; cbn [String.length list_ascii_of_string List.length];
    [reflexivity|]. rewrite IH. reflexivity.
Qed.

Lemma safeSegment_chars (Env : Type) (pf : Platform Env) (label : string) :
  Demo.segmentsAsAscii pf ->
  exists l,
    Forall (fun c => Demo.segmentChar c = true) l
    /\ list_ascii_of_string (safeSegment pf label)
       = firstn 80 (rev (Demo.dropWhile Demo.isDash (rev (Demo.dropWhile Demo.isDash l)))).
Proof.
  intros [H1 [H2 H3]]. unfold safeSegment. rewrite H3, H2, H1.
  exists (Demo.collapse false
            (list_ascii_of_string (String_toLowerCase pf (String_trim pf label)))).
  split; [apply collapse_chars|].
  rewrite substring_firstn. unfold Demo.strip.
  rewrite !list_ascii_of_string_of_list_ascii. reflexivity.
Qed.

(** X19. The path segment made of a label is a safe file name: on a
    platform whose [replaceAll] and [slice] behave on the two patterns as
    the ASCII versions do, whatever the label and whatever [trim] and
    [toLowerCase] make of it, the segment has at most eighty characters,
    each a lower-case letter, a digit or a dash, so that it holds no
    slash, backslash or dot, and it does not begin with a dash. *)
Theorem safeSegment_is_a_safe_name (Env : Type) (pf : Platform Env) (label : string) :
  Demo.segmentsAsAscii pf ->
  let chars := list_ascii_of_string (safeSegment pf label) in
  String.length (safeSegment pf label) <= 80
  /\ Forall (fun c => Demo.segmentChar c = true) chars
  /\ ~ In "/"%char chars /\ ~ In "\"%char chars /\ ~ In "."%char chars
  /\ (forall rest, chars <> "-"%char :: rest).
Proof.
  intros H chars. subst chars.
  destruct (safeSegment_chars label H) as [l [Hl E]].
  assert (Hc : Forall (fun c => Demo.segmentChar c = true)
                 (list_ascii_of_string (safeSegment pf label))).
  { rewrite E. apply Forall_forall. intros c Hin.
    assert (Hin' : In c (rev (Demo.dropWhile Demo.isDash
                                (rev (Demo.dropWhile Demo.isDash l))))).
    { rewrite <- (firstn_skipn 80). apply in_or_app. left. exact Hin. }
    apply in_rev in Hin'.
    assert (Hd : Forall (fun c => Demo.segmentChar c = true)
                   (Demo.dropWhile Demo.isDash (rev (Demo.dropWhile Demo.isDash l)))).
    { apply dropWhile_Forall. apply Forall_forall. intros d Hd. apply in_rev in Hd.
      pose proof (dropWhile_Forall Demo.isDash Hl) as Hl'.
      rewrite Forall_forall in Hl'. apply Hl'. exact Hd. }
    rewrite Forall_forall in Hd. apply Hd. exact Hin'. }
  split; [rewrite length_chars, E; apply firstn_le_length|].
  split; [exact Hc|].
  rewrite Forall_forall in Hc.
  split; [intros Hin; specialize (Hc _ Hin); discriminate Hc|].
  split; [intros Hin; specialize (Hc _ Hin); discriminate Hc|].
  split; [intros Hin; specialize (Hc _ Hin); discriminate Hc|].
  intros rest Hr. rewrite E in Hr.
  pose proof (stripped_head Demo.isDash l) as Hh.
  destruct (rev (Demo.dropWhile Demo.isDash (rev (Demo.dropWhile Demo.isDash l))))
    as [|c r]; [discriminate Hr|].
  cbn [firstn] in Hr. injection Hr as -> _. discriminate Hh.
Qed.


End SnapshotFacts.

(* ----------------------------------------------------------------- *)
(** ** Runs on the scripted platform *)

Module Runs.
Import Client Server ClientFacts ServerFacts.

Lemma framed_shows :
  showsFrames Demo.platform (fun e => e = Demo.framed) Demo.fourFrames.
Proof.
  intros e ->. split; [split; reflexivity|].
  intros idx H. do 4 (destruct idx as [|idx]; [split; reflexivity|]).
  cbn in H. lia.
Qed.

(** C3 on a page with four frames, the last of them 150 by 150. *)
Lemma C3_captcha_threshold_witness :
  exists w',
    captchaChallengeVisible Demo.platform (Demo.running Demo.framed) = (Ok true, w').
Proof.
  exact (proj1 (@C3_captcha_threshold _ Demo.platform (fun e => e = Demo.framed)
                  Demo.fourFrames (Demo.running Demo.framed)
                  framed_shows eq_refl)).
Defined.

(** C6 as stated fails: the form is still visible after the submit and
    the snapshot cannot be written; the login throws the error of the
    file system, which is not the "Login did not succeed" error and names
    no snapshot. *)
Lemma C6_counterexample :
  let w := Demo.running Demo.rejectingDiskFull in
  (exists w1 w2,
     loginSubmit Demo.platform Demo.options Demo.someone w = (Ok tt, w1)
     /\ isEmailPasswordLoginVisible Demo.platform w1 = (Ok true, w2))
  /\ fst (login Demo.platform Demo.options Demo.someone w) = Throw Demo.ioError
  /\ forall dir, Demo.ioError <> loginDidNotSucceed dir.
Proof.
  intros w. split; [|split].
  - eexists _, _. split; vm_compute; reflexivity.
  - vm_compute. reflexivity.
  - intros dir H. apply (f_equal message) in H. cbn in H. discriminate H.
Qed.

(** C6 as amended, on a page that keeps showing the login form. *)
Lemma C6_login_still_visible_witness :
  exists e w3,
    login Demo.platform Demo.options Demo.someone (Demo.running Demo.rejecting)
    = (Throw e, w3).
Proof.
  destruct (proj1 (@C6_login_still_visible _ Demo.platform Demo.options Demo.someone
                   (Demo.running Demo.rejecting)
                   (snd (loginSubmit Demo.platform Demo.options Demo.someone
                           (Demo.running Demo.rejecting)))
                   (snd (isEmailPasswordLoginVisible Demo.platform
                           (snd (loginSubmit Demo.platform Demo.options Demo.someone
                                   (Demo.running Demo.rejecting)))))
                   ltac:(vm_compute; reflexivity) ltac:(vm_compute; reflexivity)))
    as [e [w3 [H _]]].
  exists e, w3. exact H.
Defined.

Example login_error_names_the_snapshot :
  fst (login Demo.platform Demo.options Demo.someone (Demo.running Demo.rejecting))
  = Throw (loginDidNotSucceed
             "artifacts/yelp-biz/2025-01-02T03-04-05-678Z-biz-login-still-visible").
Proof. vm_compute. reflexivity. Qed.

Lemma blind_queries_fail : queriesFail (Demo.fixed true false).
Proof.
  intros A o e H. destruct o; try discriminate H; eexists; reflexivity.
Qed.

(** C7 as stated fails: on a page with a large captcha frame whose
    title query fails, the pass detects the captcha, takes the snapshot,
    and the exception of the snapshot's title query leaves the pass; it
    is none of the challenge errors. *)
Lemma C7_counterexample :
  let w := Demo.running Demo.framedUntitled in
  fst (perform Demo.platform PageTitle (env w)) = Throw Demo.timeoutError
  /\ fst (handleChallengesOrBlocks Demo.platform Demo.options "navigation" w)
     = Throw Demo.timeoutError
  /\ (forall dir, Demo.timeoutError <> captchaStillPresent dir)
  /\ (forall dir, Demo.timeoutError <> twoFactorStillPresent dir)
  /\ (forall url title dir,
        Demo.timeoutError <> blockedError Demo.platform url title dir).
Proof.
  intros w. split; [reflexivity|]. split; [vm_compute; reflexivity|].
  split; [|split]; intros; discriminate.
Qed.

(** C7 as amended, on a page whose queries all fail and on the page with
    four frames, one of whose bounding-box queries fails. *)
Lemma C7_queries_never_propagate_witness :
  fst (captchaChallengeVisible (Demo.fixed true false) (mkWorld tt [] true true))
  = Ok false
  /\ captchaChallengeVisible Demo.platform (Demo.running Demo.framed)
     = captchaChallengeVisible (forgiving Demo.platform) (Demo.running Demo.framed).
Proof.
  split.
  - exact (proj1 (proj1 (proj2 (proj2 (proj2 (proj2 (proj2
             (@C7_queries_never_propagate _ (Demo.fixed true false) Demo.options))))))
             blind_queries_fail (mkWorld tt [] true true))).
  - exact (proj1 (proj1 (proj2 (proj2 (proj2 (proj2
             (@C7_queries_never_propagate _ Demo.platform Demo.options)))))
             (Demo.running Demo.framed))).
Defined.

(** C8 on a quiet page. *)
Lemma C8_absent_is_noop_witness :
  exists w',
    maybeHandleCaptcha Demo.platform Demo.options "navigation" (Demo.running Demo.quiet)
    = (Ok tt, w')
    /\ exists evs, made (Demo.running Demo.quiet) w' evs /\ onlyLooks evs.
Proof.
  eexists.
  refine (proj1 (@C8_absent_is_noop _ Demo.platform Demo.options "navigation"
                   (Demo.running Demo.quiet) _) _).
  vm_compute. reflexivity.
Defined.

(** C9 on a page that shows a password prompt only. *)
Lemma C9_login_form_is_email_only_witness :
  exists w',
    loginVerify Demo.platform Demo.options (Demo.running Demo.passwordOnly) = (Ok tt, w')
    /\ made (Demo.running Demo.passwordOnly) w'
            [Call (FirstIsVisible (Css emailSelector))].
Proof.
  exact (proj1 (proj2 (proj2
           (@C9_login_form_is_email_only _ Demo.platform Demo.options
              (Demo.running Demo.passwordOnly)))) eq_refl).
Defined.

(** C2. The code at an input on which it departs from the claim:
    every navigation ends on the public site www.yelp.com, where no login
    form shows; [ensureAuthenticated] returns, and the host of the page
    it leaves is www.yelp.com, not biz.yelp.com. *)
Lemma C2_public_site_is_accepted :
  fst (ensureAuthenticated Demo.platform Demo.options None
         (Demo.fresh (Demo.redirecting "https://www.yelp.com/")))
  = Ok tt
  /\ URL_host Demo.platform
       (page_url Demo.platform
          (env (snd (ensureAuthenticated Demo.platform Demo.options None
                       (Demo.fresh (Demo.redirecting "https://www.yelp.com/"))))))
     = Ok "www.yelp.com"
  /\ "www.yelp.com" <> "biz.yelp.com".
Proof.
  split; [vm_compute; reflexivity|]. split; [vm_compute; reflexivity|]. discriminate.
Qed.

(** The landing check on a redirect to the marketing site. *)
Lemma marketing_host_is_refused_witness :
  exists e w3,
    ensureAuthenticated Demo.platform Demo.options None
      (Demo.fresh (Demo.redirecting "https://business.yelp.com/"))
    = (Throw e, w3).
Proof.
  destruct (proj1 (proj2 (@marketing_host_is_refused _ Demo.platform Demo.options None
                   (Demo.fresh (Demo.redirecting "https://business.yelp.com/")))
                   (snd (authenticate Demo.platform Demo.options None
                           (Demo.fresh (Demo.redirecting "https://business.yelp.com/"))))
                   (snd (goto Demo.platform Demo.options "https://biz.yelp.com/"
                      (snd (authenticate Demo.platform Demo.options None
                           (Demo.fresh (Demo.redirecting "https://business.yelp.com/"))))))
                   ltac:(vm_compute; reflexivity) ltac:(vm_compute; reflexivity))
             ltac:(vm_compute; reflexivity))
    as [e [w3 [H _]]].
  exists e, w3. exact H.
Defined.

Example marketing_error_names_the_snapshot :
  fst (ensureAuthenticated Demo.platform Demo.options None
         (Demo.fresh (Demo.redirecting "https://business.yelp.com/")))
  = Throw (redirectedToMarketing
             "artifacts/yelp-biz/2025-01-02T03-04-05-678Z-biz-auth-redirected-to-marketing").
Proof. vm_compute. reflexivity. Qed.

(** C4 as stated fails: the title query fails and the reply is still
    [{started: true}], with a null title. *)
Lemma C4_counterexample :
  fst (perform Demo.platform PageTitle (env (Demo.running Demo.untitled)))
  = Throw Demo.timeoutError
  /\ fst (status Demo.platform (Demo.running Demo.untitled))
     = Ok (Started "https://biz.yelp.com/" (Some "biz.yelp.com") None
             (mkFlags false false false false))
  /\ Started "https://biz.yelp.com/" (Some "biz.yelp.com") None
             (mkFlags false false false false) <> NotStarted.
Proof.
  split; [reflexivity|]. split; [vm_compute; reflexivity|]. discriminate.
Qed.

(** C4 as amended, on a started session whose page has four captcha
    frames, one of them large and one without an answer, and whose title
    and visibility queries fail. *)
Lemma C4_status_never_throws_witness :
  exists w',
    status Demo.platform (Demo.running Demo.flaky)
    = (Ok (Started "https://biz.yelp.com/login" (Some "biz.yelp.com") None
             (mkFlags true false false false)), w').
Proof.
  destruct (proj1 (proj2 (proj2 (@C4_status_never_throws _ Demo.platform
                                   (Demo.running Demo.flaky)))) eq_refl)
    as [captcha [w3 [Hd [[w' Hs] _]]]].
  vm_compute in Hd. injection Hd as <- <-.
  exists w'. rewrite Hs. reflexivity.
Defined.

(** C5 as stated fails: an allowed URL with an empty capture label is
    rejected before the session is started. *)
Lemma C5_counterexample :
  allowed "https://biz.yelp.com/" = true
  /\ navigate Demo.platform Demo.options Demo.isUrl
       (Some (mkBody (Text "https://biz.yelp.com/") (Text "")))
       (Demo.fresh Demo.quiet)
     = (Ok (BadRequest [CaptureLabelTooShort]), Demo.fresh Demo.quiet).
Proof. split; reflexivity. Qed.

(** C5 as amended, on a URL outside the allow-list. *)
Lemma C5_navigate_allow_list_witness :
  exists issues,
    navigate Demo.platform Demo.options Demo.isUrl
      (Some (mkBody (Text "https://evil.example/") Absent)) (Demo.fresh Demo.quiet)
    = (Ok (BadRequest issues), Demo.fresh Demo.quiet)
    /\ In (UrlNotAllowed notAllowedMessage) issues.
Proof.
  exact (proj1 (@C5_navigate_allow_list _ Demo.platform Demo.options Demo.isUrl
                  (Demo.fresh Demo.quiet))
           "https://evil.example/" Absent eq_refl).
Defined.

Example navigate_allowed_returns :
  fst (navigate Demo.platform Demo.options Demo.isUrl
         (Some (mkBody (Text "https://biz.yelp.com/inbox") (Text "manual-biz-home")))
         (Demo.fresh Demo.quiet))
  = Ok (Returned
          (mkNavigated "https://biz.yelp.com/inbox" "Yelp for Business"
             (Some "artifacts/yelp-biz/2025-01-02T03-04-05-678Z-manual-biz-home"))).
Proof. vm_compute. reflexivity. Qed.

(** The path segment of a label with capitals, blanks and a slash. *)
Lemma safeSegment_is_a_safe_name_witness :
  String.length (safeSegment Demo.platform "  Manual Biz/Home!! ") <= 80
  /\ ~ In "/"%char (list_ascii_of_string
                      (safeSegment Demo.platform "  Manual Biz/Home!! ")).
Proof.
  pose proof (@SnapshotFacts.safeSegment_is_a_safe_name _ Demo.platform
                "  Manual Biz/Home!! "
                (conj (fun s => eq_refl) (conj (fun s => eq_refl) (fun s => eq_refl))))
    as H.
  cbv zeta in H. destruct H as [H1 [_ [H2 _]]]. split; assumption.
Defined.


(** A launch in which the page cannot be opened. *)
Lemma half_started_client_witness :
  let w' := snd (start (Demo.breaking Demo.opensPage) Demo.options
                   (Demo.fresh Demo.quiet)) in
  start (Demo.breaking Demo.opensPage) Demo.options w' = (Ok tt, w')
  /\ page w' = (Throw notStarted, w').
Proof.
  pose proof (@half_started_client _ (Demo.breaking Demo.opensPage) Demo.options
                (Demo.fresh Demo.quiet)
                (snd (start (Demo.breaking Demo.opensPage) Demo.options
                        (Demo.fresh Demo.quiet)))
                Demo.ioError eq_refl eq_refl eq_refl eq_refl) as H.
  destruct H as [_ [H1 [H2 _]]]. split; assumption.
Defined.

(** A session that starts the client and navigates. *)
Lemma page_implies_context_witness :
  context (session Demo.platform Demo.options
             [Start; Goto "https://biz.yelp.com/"; Stop; Start]
             (mkWorld Demo.quiet [] false false)) = true.
Proof.
  apply (@page_implies_context _ Demo.platform Demo.options
           [Start; Goto "https://biz.yelp.com/"; Stop; Start] Demo.quiet).
  vm_compute. reflexivity.
Defined.

(** A login on a page that shows a password prompt only. *)
Lemma login_needs_both_fields_witness :
  exists e w',
    login Demo.platform Demo.options Demo.someone (Demo.running Demo.passwordOnly)
    = (Throw e, w')
    /\ exists evs, made (Demo.running Demo.passwordOnly) w' evs
                   /\ forallb passive evs = true.
Proof.
  destruct (@login_needs_both_fields _ Demo.platform Demo.options Demo.someone
              (Demo.running Demo.passwordOnly)
              (snd (handleChallengesOrBlocks Demo.platform Demo.options "login-start"
                      (Demo.running Demo.passwordOnly)))
              (snd (orDefault (call Demo.platform (FirstIsVisible (Css emailSelector))) false
                      (snd (handleChallengesOrBlocks Demo.platform Demo.options
                              "login-start" (Demo.running Demo.passwordOnly)))))
              (snd (orDefault (call Demo.platform (FirstIsVisible (Css passwordSelector))) false
                      (snd (orDefault (call Demo.platform (FirstIsVisible (Css emailSelector))) false
                              (snd (handleChallengesOrBlocks Demo.platform Demo.options
                                      "login-start" (Demo.running Demo.passwordOnly)))))))
              false true
              ltac:(vm_compute; reflexivity) ltac:(vm_compute; reflexivity)
              ltac:(vm_compute; reflexivity) eq_refl)
    as [e [w' [H1 [_ H3]]]].
  exists e, w'. split; assumption.
Defined.

(** The status of a started session on a quiet page. *)
Lemma status_only_looks_witness :
  exists evs,
    made (Demo.running Demo.quiet)
         (snd (status Demo.platform (Demo.running Demo.quiet))) evs
    /\ onlyLooks evs.
Proof.
  exact (@status_only_looks _ Demo.platform (Demo.running Demo.quiet)
           (fst (status Demo.platform (Demo.running Demo.quiet)))
           (snd (status Demo.platform (Demo.running Demo.quiet)))
           eq_refl).
Defined.

(** The smoke check on a quiet page, and on a browser that cannot be
    closed. *)
Lemma smoke_check_cleans_up_witness :
  (context (snd (Smoke.main Demo.platform Demo.options (Demo.fresh Demo.quiet))) = false
   /\ pageHandle (snd (Smoke.main Demo.platform Demo.options (Demo.fresh Demo.quiet)))
      = false)
  \/ exists e e0,
       fst (Smoke.main Demo.platform Demo.options (Demo.fresh Demo.quiet)) = Throw e
       /\ fst (perform Demo.platform ContextClose e0) = Throw e
       /\ context (snd (Smoke.main Demo.platform Demo.options (Demo.fresh Demo.quiet)))
          = true.
Proof.
  exact (proj2 (@smoke_check_cleans_up _ Demo.platform Demo.options
                  (Demo.fresh Demo.quiet)
                  (fst (Smoke.main Demo.platform Demo.options (Demo.fresh Demo.quiet)))
                  (snd (Smoke.main Demo.platform Demo.options (Demo.fresh Demo.quiet)))
                  (surjective_pairing _))).
Defined.

(** A request for an allowed page. *)
Lemma navigate_stays_on_the_allow_list_witness :
  exists evs,
    trace (snd (navigate Demo.platform Demo.options Demo.isUrl
                  (Some (mkBody (Text "https://biz.yelp.com/inbox") Absent))
                  (Demo.fresh Demo.quiet)))
    = trace (Demo.fresh Demo.quiet) ++ evs
    /\ (filter isGoto evs = []
        \/ exists b u,
             Some (mkBody (Text "https://biz.yelp.com/inbox") Absent) = Some b
             /\ bodyUrl b = Text u
             /\ Demo.isUrl u = true /\ allowed u = true
             /\ filter isGoto evs = [Call (PageGoto u)]).
Proof.
  exact (@navigate_stays_on_the_allow_list _ Demo.platform Demo.options Demo.isUrl
           (Some (mkBody (Text "https://biz.yelp.com/inbox") Absent))
           (Demo.fresh Demo.quiet)
           (fst (navigate Demo.platform Demo.options Demo.isUrl
                   (Some (mkBody (Text "https://biz.yelp.com/inbox") Absent))
                   (Demo.fresh Demo.quiet)))
           (snd (navigate Demo.platform Demo.options Demo.isUrl
                   (Some (mkBody (Text "https://biz.yelp.com/inbox") Absent))
                   (Demo.fresh Demo.quiet)))
           (surjective_pairing _)).
Defined.

Example smoke_reports_the_login_page :
  fst (Smoke.main Demo.platform Demo.options (Demo.fresh Demo.quiet))
  = Ok (Smoke.mkReport true "https://biz.yelp.com/login" "Yelp for Business"
          false false false).
Proof. vm_compute. reflexivity. Qed.

Example smoke_fails_when_close_fails :
  fst (Smoke.main (Demo.breaking Demo.closes) Demo.options (Demo.fresh Demo.quiet))
  = Throw Demo.ioError.
Proof. vm_compute. reflexivity. Qed.

End Runs.

(* ----------------------------------------------------------------- *)
(** ** Credential resolution *)

Module ConfigFacts.
Import Config.

Example resolve_alias_pair :
  resolveBizCredentials (mkEnvData None None (Some "u") (Some "p"))
  = Ok (Some (mkBizCreds "u" "p" SrcBiz)).
Proof. reflexivity. Qed.

(** C10. Credential resolution throws whenever exactly one member of a
    credential pair is set (for the YELP_BUSINESS_* pair, and for the
    YELP_BIZ_* pair), throws the ambiguity error whenever both pairs are
    fully set, returns null when no member of any pair is set, and
    otherwise returns the single fully-set pair. *)
Theorem C10_resolveBizCredentials (data : EnvData) :
  ((halfSet (YELP_BUSINESS_USERNAME data) (YELP_BUSINESS_PASSWORD data)
    \/ halfSet (YELP_BIZ_USERNAME data) (YELP_BIZ_PASSWORD data)) ->
   resolveBizCredentials data = Throw incompleteBusiness
   \/ resolveBizCredentials data = Throw incompleteBiz)
  /\ (forall bu bp zu zp,
        data = mkEnvData (Some bu) (Some bp) (Some zu) (Some zp) ->
        resolveBizCredentials data
        = Throw (ambiguous [mkBizCreds bu bp SrcBusiness; mkBizCreds zu zp SrcBiz]))
  /\ (data = mkEnvData None None None None ->
      resolveBizCredentials data = Ok None)
  /\ (forall bu bp,
        data = mkEnvData (Some bu) (Some bp) None None ->
        resolveBizCredentials data = Ok (Some (mkBizCreds bu bp SrcBusiness)))
  /\ (forall zu zp,
        data = mkEnvData None None (Some zu) (Some zp) ->
        resolveBizCredentials data = Ok (Some (mkBizCreds zu zp SrcBiz))).
Proof.
  repeat split.
  - destruct data as [[bu|] [bp|] [zu|] [zp|]]; unfold halfSet; cbn;
      intros [H | H]; auto; exfalso; apply H; reflexivity.
  - intros bu bp zu zp ->. reflexivity.
  - intros ->. reflexivity.
  - intros bu bp ->. reflexivity.
  - intros zu zp ->. reflexivity.
Qed.

(** The statement at an environment that sets only a user name. *)
Lemma C10_resolveBizCredentials_witness :
  resolveBizCredentials (mkEnvData (Some "owner@example.com") None None None)
  = Throw incompleteBusiness
  \/ resolveBizCredentials (mkEnvData (Some "owner@example.com") None None None)
     = Throw incompleteBiz.
Proof.
  apply (proj1 (C10_resolveBizCredentials
                  (mkEnvData (Some "owner@example.com") None None None))).
  left. unfold halfSet. cbn. discriminate.
Defined.

End ConfigFacts.

(* ----------------------------------------------------------------- *)
(** ** The exported configuration *)

Module EnvironmentFacts.
Import Environment.

Section EnvironmentFacts.

Variable String_trim : string -> string.
Variable String_toLowerCase : string -> string.
Variable JSON_stringify : string -> string.
Variable Number_parseInt : string -> Number.
Variable path_resolve : string -> string.
Variable tooSmall : string.

#[local] Abbreviation preprocess := (Environment.preprocess String_trim) (only parsing).
#[local] Abbreviation safeParse := (Environment.safeParse String_trim tooSmall) (only parsing).
#[local] Abbreviation trimmed := (Environment.trimmed String_trim) (only parsing).
#[local] Abbreviation blank := (Environment.blank String_trim) (only parsing).
#[local] Abbreviation load :=
  (Environment.load String_trim String_toLowerCase JSON_stringify
                    Number_parseInt path_resolve tooSmall) (only parsing).

Lemma preprocess_not_empty value : preprocess value <> Some "".
Proof.
  unfold Environment.preprocess. destruct value as [v|]; [|discriminate].
  destruct (String.eqb_spec (String_trim v) ""); [discriminate|congruence].
Qed.

Lemma optionalTrimmedString_ok value :
  optionalTrimmedString String_trim tooSmall value = inr (preprocess value).
Proof.
  unfold optionalTrimmedString.
  pose proof (preprocess_not_empty value) as Hne.
  destruct (preprocess value) as [[|c s]|]; [congruence|reflexivity|reflexivity].
Qed.

Lemma safeParse_trimmed processEnv : safeParse processEnv = inr (trimmed processEnv).
Proof.
  unfold Environment.safeParse, issuesAt, valueAt, keys. cbn [flat_map app].
  rewrite !optionalTrimmedString_ok. reflexivity.
Qed.

(** X21. The schema check never fails: every value of [process.env]
    is a string, a string that trims to the empty string is read as
    unset, and any other string passes [min(1)].  The parsed data are the
    trimmed variables, and none of the ten fields is the empty string. *)
Theorem validation_never_fails (processEnv : string -> option string) :
  safeParse processEnv = inr (trimmed processEnv)
  /\ Forall (fun field => field <> Some "") (fields (trimmed processEnv)).
Proof.
  split; [apply safeParse_trimmed|].
  unfold fields, Environment.trimmed.
  cbn [credentialFields Config.YELP_BUSINESS_USERNAME Config.YELP_BUSINESS_PASSWORD
       Config.YELP_BIZ_USERNAME Config.YELP_BIZ_PASSWORD YELP_BUSINESS_USERNMAE
       PORT HEADLESS SLOW_MO_MS ARTIFACTS_DIR YELP_BIZ_USER_DATA_DIR].
  repeat (apply Forall_cons; [apply preprocess_not_empty|]). apply Forall_nil.
Qed.

Lemma load_trimmed processEnv processEnv' :
  trimmed processEnv = trimmed processEnv' -> load processEnv = load processEnv'.
Proof.
  intros H. unfold Environment.load. rewrite !safeParse_trimmed, H. reflexivity.
Qed.

(** X22. A variable set to a string that trims to the empty string
    counts as not set: loading the module gives the same result, value or
    error, as with the variable removed. *)
Theorem blank_is_unset (processEnv : string -> option string) (key value : string) :
  String_trim value = "" ->
  load (setVar key (Some value) processEnv) = load (setVar key None processEnv).
Proof.
  intros H. apply load_trimmed.
  assert (E : forall k,
             preprocess (setVar key (Some value) processEnv k)
             = preprocess (setVar key None processEnv k)).
  { intros k. unfold setVar. destruct (String.eqb k key); [|reflexivity].
    unfold Environment.preprocess. rewrite H. reflexivity. }
  unfold Environment.trimmed. rewrite !E. reflexivity.
Qed.

Lemma load_ok processEnv env :
  load processEnv = Ok env ->
  YELP_BUSINESS_USERNMAE (trimmed processEnv) = None
  /\ exists port slowMoMs,
       Config.resolveBizCredentials (credentialFields (trimmed processEnv))
       = Ok (credentials (yelpBiz env))
       /\ parseInteger JSON_stringify Number_parseInt (PORT (trimmed processEnv)) (Int 3000)
          = Ok port
       /\ parseInteger JSON_stringify Number_parseInt (SLOW_MO_MS (trimmed processEnv)) (Int 250)
          = Ok slowMoMs
       /\ env = mkExports
                  (mkYelpBiz (credentials (yelpBiz env))
                     (path_resolve (Environment.orDefault
                                      (YELP_BIZ_USER_DATA_DIR (trimmed processEnv))
                                      "state/yelp-biz/user-data")))
                  (mkServerSettings port) (mkPlaywright false slowMoMs)
                  (path_resolve (Environment.orDefault
                                   (ARTIFACTS_DIR (trimmed processEnv)) "artifacts"))
       /\ (forall h, HEADLESS (trimmed processEnv) = Some h ->
             parseBoolean String_trim String_toLowerCase JSON_stringify (Some h) false
             = Ok false).
Proof.
  unfold Environment.load. rewrite safeParse_trimmed.
  destruct (YELP_BUSINESS_USERNMAE (trimmed processEnv)) eqn:Et; cbn [defined];
    [discriminate|].
  destruct (Config.resolveBizCredentials _) as [creds|e] eqn:Ec; [|discriminate].
  destruct (parseInteger _ _ (PORT _) _) as [port|e] eqn:Ep; [|discriminate].
  destruct (parseInteger _ _ (SLOW_MO_MS _) _) as [slowMoMs|e] eqn:Es; [|discriminate].
  destruct (HEADLESS (trimmed processEnv)) as [h|] eqn:Eh; cbn [defined].
  - destruct (parseBoolean _ _ _ (Some h) false) as [[|]|e] eqn:Eb; try discriminate.
    intros H. injection H as <-. split; [reflexivity|].
    exists port, slowMoMs. cbn [yelpBiz credentials]. repeat split.
    intros h' Hh. injection Hh as <-. exact Eb.
  - intros H. injection H as <-. split; [reflexivity|].
    exists port, slowMoMs. cbn [yelpBiz credentials]. repeat split.
    intros h' Hh. discriminate Hh.
Qed.

(** X23. The module never loads with a request for headless mode:
    when it loads, [env.playwright.headless] is false, and [HEADLESS] is
    unset (or blank) or is, once trimmed and lowered, one of the six
    spellings of false and none of the six spellings of true. *)
Theorem headless_is_refused (processEnv : string -> option string) (env : Exports) :
  load processEnv = Ok env ->
  headless (playwright env) = false
  /\ forall h, preprocess (processEnv "HEADLESS") = Some h ->
       includes truthy (String_toLowerCase (String_trim h)) = false
       /\ includes falsy (String_toLowerCase (String_trim h)) = true.
Proof.
  intros H. destruct (load_ok _ H) as [_ [port [slowMoMs [_ [_ [_ [-> Hh]]]]]]].
  split; [reflexivity|]. intros h Eh. specialize (Hh h Eh).
  unfold parseBoolean in Hh.
  destruct (includes truthy _); [discriminate|].
  destruct (includes falsy _); [auto|discriminate].
Qed.

(** X24. The guard against the misspelt variable comes first: when
    [YELP_BUSINESS_USERNMAE] is set to a string that does not trim to the
    empty string, loading the module throws the typo error, whatever the
    other variables are. *)
Theorem typo_is_refused (processEnv : string -> option string) :
  ~ blank processEnv "YELP_BUSINESS_USERNMAE" ->
  load processEnv = Throw typo.
Proof.
  intros H. unfold Environment.load. rewrite safeParse_trimmed.
  unfold Environment.trimmed. cbn [YELP_BUSINESS_USERNMAE].
  unfold Environment.blank in H.
  destruct (preprocess (processEnv "YELP_BUSINESS_USERNMAE")); [reflexivity|].
  exfalso. apply H. reflexivity.
Qed.

Lemma parseInteger_ok value defaultValue n :
  parseInteger JSON_stringify Number_parseInt value defaultValue = Ok n ->
  match value with
  | None => n = defaultValue
  | Some v => n = Number_parseInt v /\ Number_isFinite n = true
  end.
Proof.
  unfold parseInteger. destruct value as [v|]; [|intros H; injection H; auto].
  destruct (Number_isFinite (Number_parseInt v)) eqn:E; cbn [negb]; [|discriminate].
  intros H. injection H as <-. auto.
Qed.

(** X25. The numbers of a loaded configuration are finite: the port
    is 3000 when [PORT] is unset or blank and otherwise what [parseInt]
    reads from the trimmed value, never [NaN] or an infinity; the same
    for the slow-motion delay, with the default 250. *)
Theorem loaded_numbers_are_finite (processEnv : string -> option string) (env : Exports) :
  load processEnv = Ok env ->
  Number_isFinite (port (server env)) = true
  /\ Number_isFinite (slowMoMs (playwright env)) = true
  /\ match preprocess (processEnv "PORT") with
     | None => port (server env) = Int 3000
     | Some v => port (server env) = Number_parseInt v
     end
  /\ match preprocess (processEnv "SLOW_MO_MS") with
     | None => slowMoMs (playwright env) = Int 250
     | Some v => slowMoMs (playwright env) = Number_parseInt v
     end.
Proof.
  intros H. destruct (load_ok _ H) as [_ [port [slowMoMs [_ [Hp [Hs [-> _]]]]]]].
  cbn [server playwright Environment.port Environment.slowMoMs].
  apply parseInteger_ok in Hp. apply parseInteger_ok in Hs.
  unfold Environment.trimmed in Hp, Hs. cbn [PORT SLOW_MO_MS] in Hp, Hs.
  destruct (preprocess (processEnv "PORT")) as [vp|];
    destruct (preprocess (processEnv "SLOW_MO_MS")) as [vs|];
    repeat match goal with H : _ /\ _ |- _ => destruct H end; subst;
    repeat split; auto.
Qed.

(** X26. The credentials of a loaded configuration: they are null
    exactly when none of the four credential variables is set (blank
    counting as unset), and then [requireYelpBizCredentials] throws the
    missing-credentials error; otherwise exactly one pair is set, both of
    its members, and [requireYelpBizCredentials] returns the trimmed user
    name and password of that pair. *)
Theorem loaded_credentials (processEnv : string -> option string) (env : Exports) :
  load processEnv = Ok env ->
  let bu := preprocess (processEnv "YELP_BUSINESS_USERNAME") in
  let bp := preprocess (processEnv "YELP_BUSINESS_PASSWORD") in
  let zu := preprocess (processEnv "YELP_BIZ_USERNAME") in
  let zp := preprocess (processEnv "YELP_BIZ_PASSWORD") in
  match credentials (yelpBiz env) with
  | None =>
      bu = None /\ bp = None /\ zu = None /\ zp = None
      /\ requireYelpBizCredentials env = Throw missingCredentials
  | Some c =>
      ((bu = Some (Config.username c) /\ bp = Some (Config.password c)
        /\ zu = None /\ zp = None /\ Config.source c = Config.SrcBusiness)
       \/ (zu = Some (Config.username c) /\ zp = Some (Config.password c)
           /\ bu = None /\ bp = None /\ Config.source c = Config.SrcBiz))
      /\ requireYelpBizCredentials env
         = Ok (Client.mkCredentials (Config.username c) (Config.password c))
  end.
Proof.
  intros H bu bp zu zp.
  destruct (load_ok _ H) as [_ [port [slowMoMs [Hc _]]]].
  unfold requireYelpBizCredentials.
  unfold Environment.trimmed in Hc. cbn [credentialFields] in Hc.
  fold bu bp zu zp in Hc.
  destruct bu as [bu'|], bp as [bp'|], zu as [zu'|], zp as [zp'|];
    cbn in Hc; try discriminate Hc;
    injection Hc as <-; cbn; auto 10.
Qed.

(** X27. With none of the ten variables set (blank counting as
    unset) the module loads, with null credentials, port 3000, a
    slow-motion delay of 250, headless off and the two default
    directories. *)
Theorem defaults_when_nothing_is_set (processEnv : string -> option string) :
  (forall key, In key keys -> blank processEnv key) ->
  load processEnv
  = Ok (mkExports
          (mkYelpBiz None (path_resolve "state/yelp-biz/user-data"))
          (mkServerSettings (Int 3000)) (mkPlaywright false (Int 250))
          (path_resolve "artifacts")).
Proof.
  intros H. unfold Environment.load. rewrite safeParse_trimmed.
  unfold Environment.trimmed, Environment.blank in *.
  rewrite !H by (unfold keys; cbn; tauto). reflexivity.
Qed.

End EnvironmentFacts.

(** A port set to blanks. *)
Lemma blank_is_unset_witness :
  Demo.load (setVar "PORT" (Some "   ") (Demo.processEnv [("SLOW_MO_MS", "100")]))
  = Demo.load (setVar "PORT" None (Demo.processEnv [("SLOW_MO_MS", "100")])).
Proof.
  unfold Demo.load. apply blank_is_unset. reflexivity.
Defined.

(** [HEADLESS] spelt as a false value. *)
Lemma headless_is_refused_witness :
  exists env,
    Demo.load (Demo.processEnv [("HEADLESS", " Off ")]) = Ok env
    /\ headless (playwright env) = false.
Proof.
  eexists. 
  refine ((fun H => conj H (proj1 (@headless_is_refused
                                     Demo.trim Demo.toLowerCase
                                     (fun s => (Client.dq ++ s ++ Client.dq)%string)
                                     Demo.parseInt
                                     (fun p => ("/srv/yelp-bot/" ++ p)%string)
                                     "String must contain at least 1 character(s)"
                                     (Demo.processEnv [("HEADLESS", " Off ")]) _ H))) _).
  vm_compute. reflexivity.
Defined.

Example headless_true_is_an_error :
  Demo.load (Demo.processEnv [("HEADLESS", "TRUE")]) = Throw headlessUnsupported.
Proof. vm_compute. reflexivity. Qed.

(** The misspelt variable, with valid credentials beside it. *)
Lemma typo_is_refused_witness :
  Demo.load (Demo.processEnv [("YELP_BUSINESS_USERNMAE", "owner@example.com");
                              ("YELP_BUSINESS_PASSWORD", "hunter2")])
  = Throw typo.
Proof.
  unfold Demo.load. apply typo_is_refused.
  unfold blank. vm_compute. discriminate.
Defined.

(** A port with blanks around it. *)
Lemma loaded_numbers_are_finite_witness :
  exists env,
    Demo.load (Demo.processEnv [("PORT", " 8080 ")]) = Ok env
    /\ Number_isFinite (port (server env)) = true.
Proof.
  eexists.
  refine ((fun H => conj H (proj1 (@loaded_numbers_are_finite
                                     Demo.trim Demo.toLowerCase
                                     (fun s => (Client.dq ++ s ++ Client.dq)%string)
                                     Demo.parseInt
                                     (fun p => ("/srv/yelp-bot/" ++ p)%string)
                                     "String must contain at least 1 character(s)"
                                     (Demo.processEnv [("PORT", " 8080 ")]) _ H))) _).
  vm_compute. reflexivity.
Defined.

Example port_that_is_no_number :
  Demo.load (Demo.processEnv [("PORT", "http")])
  = Throw (Error ("Invalid integer value: " ++ Client.dq ++ "http" ++ Client.dq)).
Proof. vm_compute. reflexivity. Qed.

(** The alias pair, with a blank member of the other pair. *)
Lemma loaded_credentials_witness :
  exists env,
    Demo.load (Demo.processEnv [("YELP_BIZ_USERNAME", " owner@example.com ");
                                ("YELP_BIZ_PASSWORD", "hunter2");
                                ("YELP_BUSINESS_USERNAME", "  ")]) = Ok env
    /\ requireYelpBizCredentials env
       = Ok (Client.mkCredentials "owner@example.com" "hunter2").
Proof.
  assert (H : Demo.load
                (Demo.processEnv [("YELP_BIZ_USERNAME", " owner@example.com ");
                                  ("YELP_BIZ_PASSWORD", "hunter2");
                                  ("YELP_BUSINESS_USERNAME", "  ")])
              = Ok (mkExports
                      (mkYelpBiz
                         (Some (Config.mkBizCreds "owner@example.com" "hunter2"
                                  Config.SrcBiz))
                         "/srv/yelp-bot/state/yelp-biz/user-data")
                      (mkServerSettings (Int 3000)) (mkPlaywright false (Int 250))
                      "/srv/yelp-bot/artifacts"))
    by (vm_compute; reflexivity).
  eexists. split; [exact H|].
  pose proof (@loaded_credentials
                Demo.trim Demo.toLowerCase
                (fun s => (Client.dq ++ s ++ Client.dq)%string)
                Demo.parseInt
                (fun p => ("/srv/yelp-bot/" ++ p)%string)
                "String must contain at least 1 character(s)" _ _ H) as K.
  cbv zeta in K. cbn [yelpBiz credentials] in K. destruct K as [_ K]. exact K.
Defined.

(** The empty environment. *)
Lemma defaults_when_nothing_is_set_witness :
  Demo.load (Demo.processEnv [])
  = Ok (mkExports
          (mkYelpBiz None "/srv/yelp-bot/state/yelp-biz/user-data")
          (mkServerSettings (Int 3000)) (mkPlaywright false (Int 250))
          "/srv/yelp-bot/artifacts").
Proof.
  unfold Demo.load.
  exact (@defaults_when_nothing_is_set
           Demo.trim Demo.toLowerCase
           (fun s => (Client.dq ++ s ++ Client.dq)%string)
           Demo.parseInt
           (fun p => ("/srv/yelp-bot/" ++ p)%string)
           "String must contain at least 1 character(s)"
           (Demo.processEnv []) (fun key _ => eq_refl)).
Defined.

End EnvironmentFacts.

(* ----------------------------------------------------------------- *)
(** ** The links of a page *)

Module ExploreFacts.
Import Explore.

Section ExploreFacts.

Variable String_trim : string -> string.
Variable localeCompare : string -> string -> Z.

#[local] Abbreviation normalized := (Explore.normalized String_trim) (only parsing).
#[local] Abbreviation extractInternalLinks :=
  (Explore.extractInternalLinks String_trim localeCompare) (only parsing).

(** The link that [normalized] makes of [l]. *)
Lemma in_normalized links l :
  In l (normalized links)
  <-> exists l0, In l0 links
                 /\ l = mkLink (absolute (String_trim (href l0))) (text l0)
                 /\ String.prefix "http" (href l) = true.
Proof.
  unfold Explore.normalized. rewrite filter_In, in_map_iff. split.
  - intros [[l0 [<- Hin]] Hp]. exists l0. auto.
  - intros [l0 [Hin [-> Hp]]]. split; [exists l0; auto|exact Hp].
Qed.

Lemma has_spec m key : has m key = true <-> In key (map fst m).
Proof.
  unfold has. rewrite existsb_exists, in_map_iff. split.
  - intros [kv [Hin He]]. apply String.eqb_eq in He. exists kv. auto.
  - intros [kv [He Hin]]. exists kv. split; [assumption|]. apply String.eqb_eq. exact He.
Qed.

Lemma set_fresh m key value : has m key = false -> set m key value = m ++ [(key, value)].
Proof.
  induction m as [|[k v] m IH]; cbn [set has existsb fst app]; [reflexivity|].
  intros H. apply orb_false_iff in H. destruct H as [Hk Hm].
  rewrite Hk. rewrite IH; [reflexivity|exact Hm].
Qed.

(** The entries of [unique], told by the links read so far. *)
Lemma unique_from links : forall m,
  NoDup (map fst m) ->
  (forall k l, In (k, l) m -> k = href l) ->
  let m' := fold_left
              (fun unique link =>
                 if negb (has unique (href link)) then set unique (href link) link
                 else unique) links m in
  NoDup (map fst m')
  /\ (forall k l, In (k, l) m' -> k = href l)
  /\ (forall k l, In (k, l) m' -> In (k, l) m \/ In l links)
  /\ (forall kv, In kv m -> In kv m')
  /\ (forall l, In l links -> In (href l) (map fst m'))
  /\ (forall pre l post,
        links = pre ++ l :: post ->
        ~ In (href l) (map fst m) ->
        (forall p, In p pre -> href p <> href l) ->
        In (href l, l) m').
Proof.
  induction links as [|x links IH]; intros m Hnd Hk; cbn [fold_left].
  - repeat split; auto.
    + intros l [].
    + intros pre l post E. destruct pre; discriminate E.
  - destruct (has m (href x)) eqn:Eh; cbn [negb].
    + destruct (IH m Hnd Hk) as [I1 [I2 [I3 [I4 [I5 I6]]]]].
      split; [exact I1|]. split; [exact I2|]. split.
      { intros k l H. destruct (I3 k l H); [left; assumption|right; right; assumption]. }
      split; [exact I4|]. split.
      { intros l [<-|H]; [|apply I5; exact H].
        apply has_spec in Eh. apply in_map_iff in Eh. destruct Eh as [kv [E Hin]].
        rewrite <- E. apply in_map. apply I4. exact Hin. }
      intros pre l post E Hl Hp. destruct pre as [|p pre]; cbn [app] in E.
      * injection E as -> _. exfalso. apply Hl. apply has_spec. exact Eh.
      * injection E as -> E. apply (I6 pre l post E Hl).
        intros q Hq. apply Hp. right. exact Hq.
    + rewrite set_fresh by exact Eh.
      assert (Hx : ~ In (href x) (map fst m)).
      { intros H. apply has_spec in H. congruence. }
      assert (Hnd' : NoDup (map fst (m ++ [(href x, x)]))).
      { rewrite map_app. cbn [map fst].
        apply NoDup_app; [exact Hnd|repeat constructor; intros []|].
        intros k Hin [<-|[]]. exact (Hx Hin). }
      assert (Hk' : forall k l, In (k, l) (m ++ [(href x, x)]) -> k = href l).
      { intros k l H. apply in_app_or in H. destruct H as [H|[H|[]]];
          [apply Hk; exact H|]. injection H as <- <-. reflexivity. }
      destruct (IH _ Hnd' Hk') as [I1 [I2 [I3 [I4 [I5 I6]]]]].
      split; [exact I1|]. split; [exact I2|]. split.
      { intros k l H. destruct (I3 k l H) as [H'|H']; [|right; right; exact H'].
        apply in_app_or in H'. destruct H' as [H'|[H'|[]]]; [left; exact H'|].
        injection H' as <- <-. right. left. reflexivity. }
      split.
      { intros kv H. apply I4. apply in_or_app. left. exact H. }
      split.
      { intros l [<-|H]; [|apply I5; exact H].
        change (href x) with (fst (href x, x)). apply in_map. apply I4.
        apply in_or_app. right. left. reflexivity. }
      intros pre l post E Hl Hp. destruct pre as [|p pre]; cbn [app] in E.
      * injection E as -> _. apply I4. apply in_or_app. right. left. reflexivity.
      * injection E as -> E. apply (I6 pre l post E).
        -- rewrite map_app. cbn [map fst]. intros H. apply in_app_or in H.
           destruct H as [H|[H|[]]]; [exact (Hl H)|].
           apply (Hp p); [left; reflexivity|exact H].
        -- intros q Hq. apply Hp. right. exact Hq.
Qed.

Lemma in_insert compare x y sorted :
  In y (insert compare x sorted) <-> x = y \/ In y sorted.
Proof.
  induction sorted as [|z sorted IH]; cbn [insert In]; [tauto|].
  destruct (compare x z <? 0)%Z; cbn [In]; [tauto|].
  rewrite IH. tauto.
Qed.

Lemma in_sort compare xs : forall y, In y (sort compare xs) <-> In y xs.
Proof.
  unfold sort.
  assert (H : forall acc y,
             In y (fold_left (fun sorted x => insert compare x sorted) xs acc)
             <-> In y acc \/ In y xs).
  { induction xs as [|x xs IH]; intros acc y; cbn [fold_left In]; [tauto|].
    rewrite IH, in_insert. split; intros H; tauto. }
  intros y. rewrite H. cbn [In]. tauto.
Qed.

Lemma map_href_insert compare x sorted :
  NoDup (map href sorted) -> ~ In (href x) (map href sorted) ->
  NoDup (map href (insert compare x sorted)).
Proof.
  induction sorted as [|z sorted IH]; cbn [insert map]; intros Hnd Hx.
  - repeat constructor. intros [].
  - destruct (compare x z <? 0)%Z; cbn [map].
    + constructor; assumption.
    + inversion Hnd as [|? ? Hz Hnd']; subst. constructor.
      * intros H. apply in_map_iff in H. destruct H as [y [E Hy]].
        apply in_insert in Hy. destruct Hy as [<-|Hy].
        -- apply Hx. left. symmetry. exact E.
        -- apply Hz. rewrite <- E. apply in_map. exact Hy.
      * apply IH; [exact Hnd'|]. intros H. apply Hx. right. exact H.
Qed.

Lemma NoDup_app_disjoint (A : Type) (l1 l2 : list A) (a : A) :
  NoDup (l1 ++ l2) -> In a l1 -> In a l2 -> False.
Proof.
  induction l1 as [|b l1 IH]; cbn [app In]; [intros _ []|].
  intros H [<-|H1] H2; inversion H as [|? ? Hb Hn]; subst.
  - apply Hb. apply in_or_app. right. exact H2.
  - exact (IH Hn H1 H2).
Qed.

Lemma sort_nodup compare xs :
  NoDup (map href xs) -> NoDup (map href (sort compare xs)).
Proof.
  unfold sort.
  assert (H : forall acc,
             NoDup (map href (acc ++ xs)) ->
             NoDup (map href (fold_left (fun sorted x => insert compare x sorted) xs acc))).
  { induction xs as [|x xs IH]; intros acc Hnd; cbn [fold_left].
    - rewrite app_nil_r in Hnd. exact Hnd.
    - apply IH. rewrite map_app in *. cbn [map] in Hnd.
      apply NoDup_remove in Hnd. destruct Hnd as [Hnd Hx].
      apply NoDup_app.
      + apply map_href_insert.
        * apply NoDup_app_remove_r in Hnd. exact Hnd.
        * intros H. apply Hx. apply in_or_app. left. exact H.
      + apply NoDup_app_remove_l in Hnd. exact Hnd.
      + intros k Hk Hk'. apply in_map_iff in Hk. destruct Hk as [y [E Hy]].
        apply in_insert in Hy. destruct Hy as [<-|Hy].
        * apply Hx. apply in_or_app. right. rewrite E. exact Hk'.
        * apply (NoDup_app_disjoint _ _ k Hnd); [|exact Hk'].
          rewrite <- E. apply in_map. exact Hy. }
  intros Hnd. apply H. exact Hnd.
Qed.

(** X28. The links that [extractInternalLinks] returns, whatever
    the order in which the comparison puts them: each is an anchor of the
    page with its [href] trimmed and, when it starts with a slash, made
    absolute on biz.yelp.com; each [href] starts with [http]; no two have
    the same [href]; every anchor whose [href] so normalised starts with
    [http] is represented; and of the anchors with the same normalised
    [href], the first one of the page gives the text. *)
Theorem extracted_links (links : list Link) :
  let result := extractInternalLinks links in
  let norm l0 := absolute (String_trim (href l0)) in
  Forall (fun l => String.prefix "http" (href l) = true) result
  /\ NoDup (map href result)
  /\ (forall l, In l result ->
        exists l0, In l0 links /\ l = mkLink (norm l0) (text l0))
  /\ (forall l0, In l0 links -> String.prefix "http" (norm l0) = true ->
        exists l, In l result /\ href l = norm l0)
  /\ (forall pre l0 post,
        links = pre ++ l0 :: post ->
        (forall p, In p pre -> norm p <> norm l0) ->
        String.prefix "http" (norm l0) = true ->
        In (mkLink (norm l0) (text l0)) result).
Proof.
  intros result norm. subst result.
  unfold Explore.extractInternalLinks, values, unique.
  destruct (@unique_from (normalized links) [] (NoDup_nil _)
              (fun k l (H : In (k, l) []) => match H with end))
    as [I1 [I2 [I3 [_ [I5 I6]]]]].
  set (m := fold_left _ (normalized links) []) in *.
  assert (Hm : forall l, In l (map snd m) -> In l (normalized links)).
  { intros l H. apply in_map_iff in H. destruct H as [[k l'] [E Hin]].
    cbn [snd] in E. subst l'. destruct (I3 k l Hin) as [[]|H]. exact H. }
  assert (Hh : map href (map snd m) = map fst m).
  { rewrite map_map. apply map_ext_in. intros [k l] Hin. cbn [fst snd].
    symmetry. apply I2. exact Hin. }
  split; [|split; [|split; [|split]]].
  - apply Forall_forall. intros l H. apply in_sort in H.
    apply Hm, in_normalized in H. destruct H as [l0 [_ [_ Hp]]]. exact Hp.
  - apply sort_nodup. rewrite Hh. exact I1.
  - intros l H. apply in_sort in H. apply Hm, in_normalized in H.
    destruct H as [l0 [Hin [-> _]]]. exists l0. auto.
  - intros l0 Hin Hp.
    assert (Hn : In (mkLink (norm l0) (text l0)) (normalized links)).
    { apply in_normalized. exists l0. auto. }
    apply I5 in Hn. cbn [href] in Hn. rewrite <- Hh in Hn.
    apply in_map_iff in Hn. destruct Hn as [l [E Hl]].
    exists l. split; [apply in_sort; exact Hl|exact E].
  - intros pre l0 post E Hpre Hp. apply in_sort.
    assert (En : normalized links
                 = normalized pre ++ mkLink (norm l0) (text l0) :: normalized post).
    { rewrite E. unfold Explore.normalized. rewrite map_app, filter_app.
      cbn [map filter href]. fold (norm l0). rewrite Hp. reflexivity. }
    pose proof (I6 _ _ _ En (fun H => match H with end)) as H6.
    cbn [href] in H6.
    change (mkLink (norm l0) (text l0))
      with (snd (norm l0, mkLink (norm l0) (text l0))).
    apply in_map. apply H6.
    intros p Hin. apply in_normalized in Hin. destruct Hin as [p0 [Hp0 [-> _]]].
    cbn [href]. apply Hpre. exact Hp0.
Qed.

End ExploreFacts.

End ExploreFacts.

